(** * cluster.py: plan construction and plan execution

    A shallow embedding of [src/cluster.py]: the renumbering of raw cluster
    labels ([build_plan_live]), the execution of a plan on a file tree
    ([distribute_to_folders]) and the coordinator that threads the cluster-id
    cursor through sibling subfolders ([process_group_folder]).

    Python integers are [Z]; a [dict] is a [gmap], a [set] a [gset];
    [pathlib.Path] values are lists of components; the file tree is a finite
    map from paths to nodes; exceptions and the mutable world (file tree and
    console log) are threaded by a small state-and-exception monad.

    The progress callbacks are absent ([progress_callback=None], the way
    [process_group_folder] calls both functions).  Of the [print] calls only
    those of the [except] handlers are recorded; the calls to the analysis
    libraries are recorded next to them, so that one can say which calls a
    run has made.  Detection scores are binary64 floats, compared as Python
    compares them. *)

From Stdlib Require Import Floats.
From stdpp Require Import gmap strings list fin_maps sorting pretty.

Local Open Scope Z_scope.

(** ** Python containers *)

(** [sorted(s)] for a set [s] of integers. *)
Definition sorted_set (s : gset Z) : list Z := merge_sort Z.le (elements s).

(** A dict comprehension [{k: v for ...}]: bindings are inserted from left to
    right, so a later binding of a key replaces an earlier one. *)
Definition dict_of {K V} `{Countable K} (l : list (K * V)) : gmap K V :=
  foldl (λ m kv, <[kv.1 := kv.2]> m) ∅ l.

(** [{x: f(idx) for idx, x in enumerate(l)}]. *)
Definition enumerate_dict (f : nat → Z) (l : list Z) : gmap Z Z :=
  dict_of (imap (λ idx x, (x, f idx)) l).

(** ** Renumbering of raw labels (cluster.py, line 127) *)

(** The noise label of HDBSCAN. *)
Definition NOISE : Z := -1.

(** [label_map = {label: idx + 1 for idx, label in
                  enumerate(sorted(set(raw_labels) - {-1}))}] *)
Definition non_noise (raw_labels : list Z) : gset Z :=
  list_to_set raw_labels ∖ {[ NOISE ]}.

Definition label_map (raw_labels : list Z) : gmap Z Z :=
  enumerate_dict (λ idx, Z.of_nat idx + 1) (sorted_set (non_noise raw_labels)).

(** ** Paths and the file tree *)

(** A [pathlib.Path] is the list of its components below the anchor; the
    anchor itself is [[]].  [Path(str(p)) = p], so the strings stored in a
    plan are modelled by the paths they denote. *)
Abbreviation path := (list string).

(** [p.parent] (the anchor is its own parent). *)
Definition parent (p : path) : path := removelast p.

(** [p.name] (empty for the anchor). *)
Definition name (p : path) : string := default "" (last p).

(** [p / s] *)
Definition child (p : path) (s : string) : path := p ++ [s].

(** [str(p)] *)
Definition path_str (p : path) : string :=
  foldr (λ c acc, "/" +:+ c +:+ acc) "" p.

Inductive node : Type :=
  | File (data : string)
  | Dir.

Global Instance node_eq_dec : EqDecision node.
Proof. solve_decision. Defined.

Abbreviation tree := (gmap path node).

(** The anchor is a directory that is always there and is never a key. *)
Definition node_at (t : tree) (p : path) : option node :=
  match p with
  | [] => Some Dir
  | _ => t !! p
  end.

(** [p.exists()] and [p.is_dir()] *)
Definition path_exists (t : tree) (p : path) : bool :=
  bool_decide (is_Some (node_at t p)).

Definition path_is_dir (t : tree) (p : path) : bool :=
  bool_decide (node_at t p = Some Dir).

(** The entries of a directory, in no particular order. *)
Definition entries (t : tree) (p : path) : list path :=
  filter (λ q, q ≠ [] ∧ parent q = p) (elements (dom t)).

(** [p.mkdir(parents=True, exist_ok=True)]: every missing directory on the
    way is created; a regular file on the way is an error. *)
Definition mkdir_one (t : tree) (p : path) : option tree :=
  match node_at t p with
  | Some Dir => Some t
  | Some (File _) => None
  | None => Some (<[p := Dir]> t)
  end.

Fixpoint mkdir_from (pre rest : path) (t : tree) : option tree :=
  match rest with
  | [] => Some t
  | c :: rest' =>
      match mkdir_one t (child pre c) with
      | Some t' => mkdir_from (child pre c) rest' t'
      | None => None
      end
  end.

Definition mkdir_parents (t : tree) (p : path) : option tree :=
  mkdir_from [] p t.

(** Moving the directory [src] to the fresh place [dst]: every key below
    [src] is rebased. *)
Definition rebase_key (src dst k : path) : path :=
  if decide (src `prefix_of` k) then dst ++ drop (length src) k else k.

Definition rebase (src dst : path) (t : tree) : tree :=
  list_to_map (prod_map (rebase_key src dst) id <$> map_to_list t).

(** [shutil.move(src, dst)] when it succeeds.  A destination that is an
    existing directory receives the source under its own name, and that
    place has to be free; renaming a path onto itself does nothing; a file
    replaces an existing destination file; a directory needs a fresh
    destination outside itself.  The copy-and-delete fallback of
    [shutil.move] is part of the operation. *)
Definition shutil_move (t : tree) (src dst : path) : option tree :=
  match src, t !! src with
  | [], _ | _, None => None
  | _, Some n =>
      if decide (src = dst) then Some t else
      let real_dst := if path_is_dir t dst then child dst (name src) else dst in
      if path_is_dir t dst && path_exists t real_dst then None else
      if negb (path_is_dir t (parent real_dst)) then None else
      match n with
      | File d => Some (<[real_dst := File d]> (delete src t))
      | Dir =>
          if path_exists t real_dst then None else
          if decide (src `prefix_of` real_dst) then None else
          Some (rebase src real_dst t)
      end
  end.

(** [shutil.copy2(src, dst)] when it succeeds: [src] is a regular file, the
    destination (inside [dst] if that is a directory) is not [src] itself
    and not a directory, and its parent exists. *)
Definition shutil_copy2 (t : tree) (src dst : path) : option tree :=
  match node_at t src with
  | Some (File d) =>
      let real_dst := if path_is_dir t dst then child dst (name src) else dst in
      if decide (src = real_dst) then None else
      if path_is_dir t real_dst then None else
      if negb (path_is_dir t (parent real_dst)) then None else
      Some (<[real_dst := File d]> t)
  | _ => None
  end.

(** [p.unlink()]: only a regular file can be unlinked. *)
Definition unlink (t : tree) (p : path) : option tree :=
  match node_at t p with
  | Some (File _) => Some (delete p t)
  | _ => None
  end.

(** [p.rmdir()]: only an empty directory other than the anchor. *)
Definition rmdir (t : tree) (p : path) : option tree :=
  match p, t !! p with
  | _ :: _, Some Dir => if entries t p is [] then Some (delete p t) else None
  | _, _ => None
  end.

(** ** The world: file tree, platform errors, console *)

(** The filesystem operations the program performs. *)
Inductive fsop : Type :=
  | OpMkdir (p : path)
  | OpMove (src dst : path)
  | OpCopy (src dst : path)
  | OpUnlink (p : path)
  | OpIterdir (p : path)
  | OpRmdir (p : path).

Global Instance fsop_eq_dec : EqDecision fsop.
Proof. solve_decision. Defined.

Inductive exn : Type :=
  | OSError (op : fsop)
  | KeyError (k : Z)
  | BackendError (msg : string).

(** What the program prints in its [except] handlers, the calls it makes
    to the face-analysis and clustering libraries, and the calls of the
    cleanup pass on a directory ([p.exists()], [p.iterdir()], [p.rmdir()])
    where these are written down. *)
Inductive event : Type :=
  | PrintMoveError (src dst : path) (e : exn)
  | PrintCopyError (src dst : path) (e : exn)
  | PrintUnlinkError (src : path) (e : exn)
  | CallFaceAnalysis
  | CallGet (p : path)
  | CallCosineDistances (n : nat)
  | CallHdbscan (n : nat)
  | CallExists (p : path)
  | CallIterdir (p : path)
  | CallRmdir (p : path).

(** [w_flaky] lists the operations that fail in this run for a reason
    outside the tree (permissions, path length, a full disk); it never
    changes. *)
Record world : Type := World {
  w_tree : gmap path node;
  w_flaky : fsop → bool;
  w_log : list event;
}.

Definition set_tree (t : tree) (w : world) : world :=
  {| w_tree := t; w_flaky := w_flaky w; w_log := w_log w |}.

Definition add_log (ev : event) (w : world) : world :=
  {| w_tree := w_tree w; w_flaky := w_flaky w; w_log := w_log w ++ [ev] |}.

Inductive outcome (A : Type) : Type :=
  | Ok (a : A)
  | Raise (e : exn).
Arguments Ok {A} a.
Arguments Raise {A} e.

(** Computations that read and change the world and may raise. *)
Definition M (A : Type) : Type := world → outcome A * world.

Definition ret {A} (a : A) : M A := λ w, (Ok a, w).

Definition bind {A B} (c : M A) (k : A → M B) : M B :=
  λ w, match c w with
       | (Ok a, w') => k a w'
       | (Raise e, w') => (Raise e, w')
       end.

Definition raise {A} (e : exn) : M A := λ w, (Raise e, w).

(** [try: c  except Exception as e: h e] *)
Definition try_except {A} (c : M A) (h : exn → M A) : M A :=
  λ w, match c w with
       | (Ok a, w') => (Ok a, w')
       | (Raise e, w') => h e w'
       end.

Definition print (ev : event) : M unit := λ w, (Ok tt, add_log ev w).

Definition lift {A} (o : outcome A) : M A := λ w, (o, w).

Declare Scope m_scope.
Delimit Scope m_scope with m.
Notation "x <- c ;; k" := (bind c (λ x, k))
  (at level 100, c at next level, right associativity) : m_scope.
Notation "c ;;; k" := (bind c (λ _, k))
  (at level 100, right associativity) : m_scope.
Local Open Scope m_scope.

(** [for x in l: st = body st x] *)
Fixpoint for_each {A S} (body : S → A → M S) (l : list A) (st : S) : M S :=
  match l with
  | [] => ret st
  | x :: l' => st' <- body st x ;; for_each body l' st'
  end.

(** [wp c Q E w]: run from [w], the computation [c] returns a value and a
    world in [Q], or raises an exception with a world in [E]. *)
Definition wp {A} (c : M A) (Q : A → world → Prop) (E : exn → world → Prop)
    (w : world) : Prop :=
  match c w with
  | (Ok a, w') => Q a w'
  | (Raise e, w') => E e w'
  end.

(** An operation on the tree as the program sees it: it fails when the
    platform says so or when the tree does not allow it. *)
Definition fs_run (op : fsop) (f : tree → option tree) : M unit :=
  λ w, if w_flaky w op then (Raise (OSError op), w) else
       match f (w_tree w) with
       | Some t' => (Ok tt, set_tree t' w)
       | None => (Raise (OSError op), w)
       end.

Definition fs_exists (p : path) : M bool := λ w, (Ok (path_exists (w_tree w) p), w).
Definition fs_is_dir (p : path) : M bool := λ w, (Ok (path_is_dir (w_tree w) p), w).
Definition fs_mkdir (p : path) : M unit := fs_run (OpMkdir p) (λ t, mkdir_parents t p).
Definition fs_move (src dst : path) : M unit := fs_run (OpMove src dst) (λ t, shutil_move t src dst).
Definition fs_copy2 (src dst : path) : M unit := fs_run (OpCopy src dst) (λ t, shutil_copy2 t src dst).
Definition fs_unlink (p : path) : M unit := fs_run (OpUnlink p) (λ t, unlink t p).
Definition fs_rmdir (p : path) : M unit := fs_run (OpRmdir p) (λ t, rmdir t p).

(** [p.iterdir()]: raises unless [p] is a directory. *)
Definition fs_iterdir (p : path) : M (list path) :=
  λ w, if w_flaky w (OpIterdir p) then (Raise (OSError (OpIterdir p)), w) else
       if path_is_dir (w_tree w) p then (Ok (entries (w_tree w) p), w)
       else (Raise (OSError (OpIterdir p)), w).

(** ** Plans *)

(** One entry of [plan["plan"]]: [{"path": ..., "cluster": [...], "faces": n}]. *)
Record plan_item : Type := PlanItem {
  item_path : path;
  item_cluster : list Z;
  item_faces : Z;
}.

(** The dict returned by [build_plan_live].  A missing ["plan"] key reads as
    the empty list ([plan.get("plan", [])]). *)
Record plan : Type := Plan {
  plan_clusters : gmap Z (list path);
  plan_items : list plan_item;
  plan_unreadable : list path;
  plan_no_faces : list path;
}.

(** ** distribute_to_folders (cluster.py, lines 170-229) *)

(** [used_clusters = sorted({c for item in plan.get("plan", [])
                              for c in item["cluster"]})] *)
Definition used_set (pl : plan) : gset Z :=
  list_to_set (concat (item_cluster <$> plan_items pl)).

Definition used_clusters (pl : plan) : list Z := sorted_set (used_set pl).

(** [cluster_id_map = {old: cluster_start + idx
                       for idx, old in enumerate(used_clusters)}] *)
Definition cluster_id_map (pl : plan) (cluster_start : Z) : gmap Z Z :=
  enumerate_dict (λ idx, cluster_start + Z.of_nat idx) (used_clusters pl).

(** The local variables of the loop: [moved], [copied], [moved_paths]. *)
Record dist_state : Type := DistState {
  moved : Z;
  copied : Z;
  moved_paths : gset path;
}.

(** [[cluster_id_map[c] for c in item["cluster"]]] *)
Fixpoint lookup_ids (m : gmap Z Z) (cs : list Z) : M (list Z) :=
  match cs with
  | [] => ret []
  | c :: cs' =>
      match m !! c with
      | Some g => gs <- lookup_ids m cs' ;; ret (g :: gs)
      | None => raise (KeyError c)
      end
  end.

(** [base_dir / f"{cluster_id}" / src.name] *)
Definition target (base_dir : path) (cluster_id : Z) (src : path) : path :=
  child (child base_dir (pretty cluster_id)) (name src).

(** Lines 194-202: the branch for one membership. *)
Definition move_single (base_dir src : path) (cluster_id : Z)
    (st : dist_state) : M dist_state :=
  let dst := target base_dir cluster_id src in
  fs_mkdir (parent dst) ;;;
  try_except
    (fs_move src dst ;;;
     ret {| moved := moved st + 1; copied := copied st;
            moved_paths := moved_paths st ∪ {[ parent src ]} |})
    (λ e, print (PrintMoveError src dst e) ;;; ret st).

(** Lines 205-211: the body of the copy loop. *)
Definition copy_one (base_dir src : path) (st : dist_state)
    (cluster_id : Z) : M dist_state :=
  let dst := target base_dir cluster_id src in
  fs_mkdir (parent dst) ;;;
  try_except
    (fs_copy2 src dst ;;;
     ret {| moved := moved st; copied := copied st + 1;
            moved_paths := moved_paths st |})
    (λ e, print (PrintCopyError src dst e) ;;; ret st).

(** Lines 204-215: the branch for any other number of memberships. *)
Definition copy_multi (base_dir src : path) (clusters : list Z)
    (st : dist_state) : M dist_state :=
  st' <- for_each (copy_one base_dir src) clusters st ;;
  try_except (fs_unlink src) (λ e, print (PrintUnlinkError src e)) ;;;
  ret st'.

(** Lines 188-215: the body of the loop over the items. *)
Definition distribute_item (base_dir : path) (idmap : gmap Z Z)
    (st : dist_state) (item : plan_item) : M dist_state :=
  let src := item_path item in
  clusters <- lookup_ids idmap (item_cluster item) ;;
  there <- fs_exists src ;;
  if negb there then ret st else
  match clusters with
  | [cluster_id] => move_single base_dir src cluster_id st
  | _ => copy_multi base_dir src clusters st
  end.

(** Lines 221-226: one round of the cleanup loop. *)
Definition cleanup_dir (p : path) : M unit :=
  try_except
    (there <- fs_exists p ;;
     if there then
       es <- fs_iterdir p ;;
       if es is [] then fs_rmdir p else ret tt
     else ret tt)
    (λ _, ret tt).

(** [sorted(moved_paths, key=lambda x: len(str(x)), reverse=True)] *)
Definition longer_eq (a b : path) : Prop :=
  (String.length (path_str b) ≤ String.length (path_str a))%nat.

Global Instance longer_eq_dec : RelDecision longer_eq.
Proof. intros a b. unfold longer_eq. apply _. Defined.

Definition longest_first (s : gset path) : list path :=
  merge_sort longer_eq (elements s).

Definition cleanup (dirs : list path) : M unit :=
  for_each (λ _ p, cleanup_dir p) dirs tt.

(** Lines 221-226 with every call on a path written to the log before it is
    made: the same loop as [cleanup_dir], kept apart from it so that the log
    of [distribute_to_folders] holds what the program prints and no more. *)
Definition cleanup_dir_logged (p : path) : M unit :=
  try_except
    (print (CallExists p) ;;;
     there <- fs_exists p ;;
     if there then
       print (CallIterdir p) ;;;
       es <- fs_iterdir p ;;
       if es is [] then print (CallRmdir p) ;;; fs_rmdir p else ret tt
     else ret tt)
    (λ _, ret tt).

Definition cleanup_logged (dirs : list path) : M unit :=
  for_each (λ _ p, cleanup_dir_logged p) dirs tt.

(** The calls that the cleanup pass makes on the directory [p]. *)
Definition is_call_on (p : path) (ev : event) : Prop :=
  ev = CallExists p ∨ ev = CallIterdir p ∨ ev = CallRmdir p.

Definition distribute_items (pl : plan) (base_dir : path)
    (cluster_start : Z) : M dist_state :=
  for_each (distribute_item base_dir (cluster_id_map pl cluster_start))
    (plan_items pl)
    {| moved := 0; copied := 0; moved_paths := ∅ |}.

(** The error of a directory that could not be created. *)
Definition is_mkdir_error (e : exn) : Prop := ∃ p, e = OSError (OpMkdir p).


(** The progress callback is [None], as in [process_group_folder]. *)
Definition distribute_to_folders (pl : plan) (base_dir : path)
    (cluster_start : Z) : M (Z * Z * Z) :=
  st <- distribute_items pl base_dir cluster_start ;;
  cleanup (longest_first (moved_paths st)) ;;;
  ret (moved st, copied st, cluster_start + Z.of_nat (length (used_clusters pl))).

(** ** The analysis libraries *)

(** A detection returned by [app.get]: [det_score] and [normed_embedding]
    are read with [getattr] and may be missing. *)
Record face (Emb : Type) : Type := Face {
  det_score : option float;
  normed_embedding : option Emb;
}.
Arguments Face {Emb} _ _.
Arguments det_score {Emb} _.
Arguments normed_embedding {Emb} _.

(** What [build_plan_live] takes from outside this file: pathlib's suffix
    and globbing, OpenCV decoding, the InsightFace model, NumPy, scikit-learn
    and HDBSCAN.  A call that can raise returns an [outcome]. *)
Record backend : Type := Backend {
  Img : Type;
  Emb : Type;
  Dist : Type;
  (** [p.suffix.lower()] *)
  suffix_lower : path → string;
  (** ["общие" in s.lower()] *)
  has_shared_marker : string → bool;
  (** [input_dir.rglob("*")], in the order the platform lists it *)
  rglob : tree → path → list path;
  (** [cv2.imdecode] on the bytes of a file; [None] when it fails *)
  imdecode : string → option Img;
  (** [FaceAnalysis(...)] followed by [app.prepare(...)] *)
  face_analysis : outcome unit;
  (** [app.get(img)] *)
  app_get : Img → outcome (list (face Emb));
  (** [astype(float64)] and the division by the norm when it is positive *)
  unit_norm : Emb → Emb;
  (** [cosine_distances(np.vstack(embeddings))] *)
  cosine_distances : list Emb → outcome Dist;
  (** [HDBSCAN(metric='precomputed', min_cluster_size, min_samples)
       .fit_predict(distance_matrix)] *)
  fit_predict : Z → Z → Dist → outcome (list Z);
}.

(** A call to a library: it is recorded, then it returns or raises. *)
Definition invoke {A} (ev : event) (o : outcome A) : M A :=
  print ev ;;; lift o.

Definition get_tree : M tree := λ w, (Ok (w_tree w), w).

(** ** build_plan_live (cluster.py, lines 11-168) *)

Definition IMG_EXTS : list string :=
  [".jpg"; ".jpeg"; ".png"; ".bmp"; ".tif"; ".tiff"; ".webp"].

Definition is_image (B : backend) (p : path) : bool :=
  bool_decide (suffix_lower B p ∈ IMG_EXTS).

(** Line 41: the images below [input_dir] outside the shared folders. *)
Definition all_images (B : backend) (t : tree) (input_dir : path) : list path :=
  filter (λ p, is_image B p ∧ ¬ has_shared_marker B (path_str (parent p)))
    (rglob B t input_dir).

(** [imread_safe]: any failure, and an empty file, give [None]. *)
Definition imread_safe (B : backend) (t : tree) (p : path) : option (Img B) :=
  match node_at t p with
  | Some (File data) => if decide (data = "") then None else imdecode B data
  | _ => None
  end.

(** The lists and the dict filled by the loop of lines 65-98. *)
Record scan_state (B : backend) : Type := ScanState {
  embeddings : list (Emb B);
  owners : list path;
  img_face_count : gmap path Z;
  unreadable : list path;
  no_faces : list path;
}.
Arguments ScanState {B} _ _ _ _ _.
Arguments embeddings {B} _.
Arguments owners {B} _.
Arguments img_face_count {B} _.
Arguments unreadable {B} _.
Arguments no_faces {B} _.

(** [getattr(f, "det_score", 1.0) < min_score] *)
Definition below_min_score {E} (min_score : float) (f : face E) : bool :=
  PrimFloat.ltb (default 1%float (det_score f)) min_score.

(** Lines 83-95: the body of the loop over the faces of one image. *)
Definition take_face (B : backend) (min_score : float) (p : path)
    (acc : scan_state B * Z) (f : face (Emb B)) : scan_state B * Z :=
  if below_min_score min_score f then acc else
  match normed_embedding f with
  | None => acc
  | Some emb =>
      ({| embeddings := embeddings acc.1 ++ [unit_norm B emb];
          owners := owners acc.1 ++ [p];
          img_face_count := img_face_count acc.1;
          unreadable := unreadable acc.1;
          no_faces := no_faces acc.1 |},
       acc.2 + 1)
  end.

(** Lines 71-98: the body of the loop over the images. *)
Definition scan_image (B : backend) (min_score : float)
    (st : scan_state B) (p : path) : M (scan_state B) :=
  t <- get_tree ;;
  match imread_safe B t p with
  | None =>
      ret {| embeddings := embeddings st; owners := owners st;
             img_face_count := img_face_count st;
             unreadable := unreadable st ++ [p]; no_faces := no_faces st |}
  | Some img =>
      faces <- invoke (CallGet p) (app_get B img) ;;
      if faces is [] then
        ret {| embeddings := embeddings st; owners := owners st;
               img_face_count := img_face_count st;
               unreadable := unreadable st; no_faces := no_faces st ++ [p] |}
      else
        let acc := foldl (take_face B min_score p) (st, 0) faces in
        if bool_decide (0 < acc.2) then
          ret {| embeddings := embeddings acc.1; owners := owners acc.1;
                 img_face_count := <[p := acc.2]> (img_face_count acc.1);
                 unreadable := unreadable acc.1; no_faces := no_faces acc.1 |}
        else ret acc.1
  end.

(** [cluster_map] and [cluster_by_img] of lines 129-137. *)
Record groups : Type := Groups {
  cluster_map : gmap Z (gset path);
  cluster_by_img : gmap path (gset Z);
}.

(** [d.setdefault(k, set()).add(x)] *)
Definition setdefault_add {K X} `{Countable K, Countable X}
    (k : K) (x : X) (d : gmap K (gset X)) : gmap K (gset X) :=
  <[k := default ∅ (d !! k) ∪ {[ x ]}]> d.

(** Lines 133-137: the body of the loop over [zip(raw_labels, owners)]. *)
Definition group_one (lm : gmap Z Z) (g : groups) (lo : Z * path) : M groups :=
  if decide (lo.1 = NOISE) then ret g else
  match lm !! lo.1 with
  | None => raise (KeyError lo.1)
  | Some new_lbl =>
      ret {| cluster_map := setdefault_add new_lbl lo.2 (cluster_map g);
             cluster_by_img := setdefault_add lo.2 new_lbl (cluster_by_img g) |}
  end.

(** Lines 145-152: the plan entry of one image, if it has one. *)
Definition plan_entry (cbi : gmap path (gset Z)) (counts : gmap path Z)
    (p : path) : option plan_item :=
  match cbi !! p with
  | None => None
  | Some clusters =>
      if decide (clusters = ∅) then None else
      Some {| item_path := p; item_cluster := sorted_set clusters;
              item_faces := default 0 (counts !! p) |}
  end.

(** [sorted(v, key=lambda x: str(x))] *)
Definition str_le (a b : path) : Prop := String.leb (path_str a) (path_str b).

Global Instance str_le_dec : RelDecision str_le.
Proof. intros a b. unfold str_le. apply _. Defined.

Definition sorted_by_str (s : gset path) : list path :=
  merge_sort str_le (elements s).

Definition empty_scan {B : backend} : scan_state B :=
  {| embeddings := []; owners := []; img_face_count := ∅;
     unreadable := []; no_faces := [] |}.

(** Lines 56-98: the scan of all images. *)
Definition scan_images (B : backend) (min_score : float)
    (imgs : list path) : M (scan_state B) :=
  for_each (scan_image B min_score) imgs empty_scan.

Definition build_plan_live (B : backend) (input_dir : path)
    (min_score : float) (min_cluster_size min_samples : Z) : M plan :=
  t <- get_tree ;;
  let imgs := all_images B t input_dir in
  invoke CallFaceAnalysis (face_analysis B) ;;;
  st <- scan_images B min_score imgs ;;
  if embeddings st is [] then
    ret {| plan_clusters := ∅; plan_items := [];
           plan_unreadable := unreadable st; plan_no_faces := no_faces st |}
  else
    dm <- invoke (CallCosineDistances (length (embeddings st)))
                 (cosine_distances B (embeddings st)) ;;
    raw_labels <- invoke (CallHdbscan (length (embeddings st)))
                         (fit_predict B min_cluster_size min_samples dm) ;;
    g <- for_each (group_one (label_map raw_labels))
                  (zip raw_labels (owners st))
                  {| cluster_map := ∅; cluster_by_img := ∅ |} ;;
    ret {| plan_clusters := sorted_by_str <$> cluster_map g;
           plan_items := omap (plan_entry (cluster_by_img g) (img_face_count st)) imgs;
           plan_unreadable := unreadable st;
           plan_no_faces := no_faces st |}.

(** What holds of the lists while the images are scanned from the world
    [w0]: the tree is not touched, the only calls are to the face model,
    every owner has an accepted detection, and [no_faces] holds images whose
    detection returned nothing. *)
Definition scan_calls_only (w0 w : world) : Prop :=
  w_tree w = w_tree w0 ∧ w_flaky w = w_flaky w0 ∧
  ∀ ev, ev ∈ w_log w →
        ev ∈ w_log w0 ∨ ev = CallFaceAnalysis ∨ ∃ p, ev = CallGet p.

Definition scan_inv (B : backend) (min_score : float) (w0 : world)
    (st : scan_state B) (w : world) : Prop :=
  scan_calls_only w0 w ∧
  length (embeddings st) = length (owners st) ∧
  (∀ q, q ∈ owners st →
        ∃ img faces f, imread_safe B (w_tree w0) q = Some img ∧
                       app_get B img = Ok faces ∧ f ∈ faces ∧
                       below_min_score min_score f = false) ∧
  (∀ q, q ∈ no_faces st →
        ∃ img, imread_safe B (w_tree w0) q = Some img ∧ app_get B img = Ok []) ∧
  (∀ q, is_Some (img_face_count st !! q) → q ∈ owners st).

(** An image with a detection that passes the score test. *)
Definition has_accepted_face (B : backend) (min_score : float) (t : tree)
    (q : path) : Prop :=
  ∃ img faces f, imread_safe B t q = Some img ∧ app_get B img = Ok faces ∧
                 f ∈ faces ∧ below_min_score min_score f = false.

(** An image whose detection returned nothing. *)
Definition has_no_detection (B : backend) (t : tree) (q : path) : Prop :=
  ∃ img, imread_safe B t q = Some img ∧ app_get B img = Ok [].

(** ** process_group_folder (cluster.py, lines 231-242) *)

(** [sorted(group_dir.iterdir())]: the entries of one directory differ in
    their last component only. *)
Definition name_le (a b : path) : Prop := String.leb (name a) (name b).

Global Instance name_le_dec : RelDecision name_le.
Proof. intros a b. unfold name_le. apply _. Defined.

(** Lines 234-242: the body of the loop; the value is the new
    [cluster_counter]. *)
Definition process_subfolder (B : backend) (cluster_counter : Z)
    (subfolder : path) : M Z :=
  d <- fs_is_dir subfolder ;;
  if negb d then ret cluster_counter else
  if has_shared_marker B (name subfolder) then ret cluster_counter else
  pl <- build_plan_live B subfolder 0.5%float 2 1 ;;
  r <- distribute_to_folders pl subfolder cluster_counter ;;
  ret r.2.

Definition process_subfolders (B : backend) (subfolders : list path)
    (cluster_counter : Z) : M Z :=
  for_each (process_subfolder B) subfolders cluster_counter.

(** The function returns nothing in Python; the model returns the last value
    of its local [cluster_counter]. *)
Definition process_group_folder (B : backend) (group_dir : path) : M Z :=
  subfolders <- fs_iterdir group_dir ;;
  process_subfolders B (merge_sort name_le subfolders) 1.

(** ** Sample worlds *)

(** A world in which no operation fails for an outside reason. *)
Definition quiet (t : tree) : world :=
  {| w_tree := t; w_flaky := λ _, false; w_log := [] |}.

(** Stand-ins for the libraries.  A file's content says what the detector
    finds in it; the raw label of a face is ten times its embedding. *)
Definition demo_get (img : string) : outcome (list (face Z)) :=
  if decide (img = "alice") then Ok [Face (Some 0.75%float) (Some 1)]
  else if decide (img = "bob") then Ok [Face (Some 0.75%float) (Some 2)]
  else if decide (img = "both") then
    Ok [Face (Some 0.75%float) (Some 2); Face None (Some 1)]
  else if decide (img = "blurry") then Ok [Face (Some 0.25%float) (Some 1)]
  else if decide (img = "broken") then Raise (BackendError "detector")
  else Ok [].

Definition demo : backend :=
  {| Img := string; Emb := Z; Dist := list Z;
     suffix_lower := λ _, ".jpg";
     has_shared_marker := λ _, false;
     rglob := λ t d,
       filter (λ k, d `prefix_of` k ∧ k ≠ d ∧ t !! k ≠ Some Dir) (elements (dom t));
     imdecode := λ data, if decide (data = "garbage") then None else Some data;
     face_analysis := Ok tt;
     app_get := demo_get;
     unit_norm := id;
     cosine_distances := Ok;
     fit_predict := λ _ _ embs, Ok ((λ z, 10 * z) <$> embs) |}.

(** A folder of five images: two people, one image showing both, one
    detection below the score, one file that does not decode, one image
    without faces. *)
Definition album : tree :=
  list_to_map
    [ (["in"], Dir);
      (["in"; "a.jpg"], File "alice");
      (["in"; "b.jpg"], File "bob");
      (["in"; "ab.jpg"], File "both");
      (["in"; "dim.jpg"], File "blurry");
      (["in"; "bad.jpg"], File "garbage");
      (["in"; "sky.jpg"], File "nothing") ].

(** A folder where nothing passes the score. *)
Definition dim_album : tree :=
  list_to_map
    [ (["in"], Dir);
      (["in"; "dim.jpg"], File "blurry");
      (["in"; "sky.jpg"], File "nothing") ].

(** A group of two subfolders; the detector fails in the first. *)
Definition group : tree :=
  list_to_map
    [ (["g"], Dir);
      (["g"; "k"], Dir);
      (["g"; "k"; "x.jpg"], File "broken");
      (["g"; "m"], Dir);
      (["g"; "m"; "y.jpg"], File "alice") ].

(** A folder that has been distributed before. *)
Definition sorted_album : tree :=
  list_to_map
    [ (["in"], Dir);
      (["in"; "1"], Dir);
      (["in"; "1"; "a.jpg"], File "alice") ].

Definition sorted_plan : plan :=
  {| plan_clusters := ∅;
     plan_items := [ {| item_path := ["in"; "1"; "a.jpg"]; item_cluster := [1];
                        item_faces := 1 |} ];
     plan_unreadable := []; plan_no_faces := [] |}.

(** A folder that holds a regular file named like the first cluster. *)
Definition blocked_album : tree :=
  list_to_map
    [ (["in"], Dir);
      (["in"; "1"], File "notes");
      (["in"; "a.jpg"], File "alice");
      (["in"; "b.jpg"], File "bob") ].

Definition two_plan : plan :=
  {| plan_clusters := ∅;
     plan_items := [ {| item_path := ["in"; "a.jpg"]; item_cluster := [1];
                        item_faces := 1 |};
                     {| item_path := ["in"; "b.jpg"]; item_cluster := [2];
                        item_faces := 1 |} ];
     plan_unreadable := []; plan_no_faces := [] |}.

(** The same folder without the obstacle, on a platform that refuses to
    move [a.jpg]. *)
Definition open_album : tree :=
  list_to_map
    [ (["in"], Dir);
      (["in"; "a.jpg"], File "alice");
      (["in"; "b.jpg"], File "bob") ].

Definition no_move_a (t : tree) : world :=
  {| w_tree := t;
     w_flaky := λ op, bool_decide (op = OpMove ["in"; "a.jpg"] ["in"; "1"; "a.jpg"]);
     w_log := [] |}.

(** A plan with three clusters and an image in two of them. *)
Definition three_plan : plan :=
  {| plan_clusters := ∅;
     plan_items := [ {| item_path := ["in"; "a.jpg"]; item_cluster := [2];
                        item_faces := 1 |};
                     {| item_path := ["in"; "ab.jpg"]; item_cluster := [2; 7];
                        item_faces := 2 |};
                     {| item_path := ["in"; "b.jpg"]; item_cluster := [5];
                        item_faces := 1 |} ];
     plan_unreadable := []; plan_no_faces := [] |}.

(** A folder with a subfolder that holds one image. *)
Definition nested_album : tree :=
  list_to_map
    [ (["in"], Dir);
      (["in"; "sky.jpg"], File "nothing");
      (["in"; "sub"], Dir);
      (["in"; "sub"; "c.jpg"], File "alice") ].

Definition nested_plan : plan :=
  {| plan_clusters := ∅;
     plan_items := [ {| item_path := ["in"; "sub"; "c.jpg"]; item_cluster := [1];
                        item_faces := 1 |} ];
     plan_unreadable := []; plan_no_faces := [] |}.

(** A folder with two nested subfolders, each holding one image. *)
Definition deep_album : tree :=
  list_to_map
    [ (["in"], Dir);
      (["in"; "a"], Dir);
      (["in"; "a"; "y.jpg"], File "bob");
      (["in"; "a"; "b"], Dir);
      (["in"; "a"; "b"; "x.jpg"], File "alice") ].

Definition deep_plan : plan :=
  {| plan_clusters := ∅;
     plan_items := [ {| item_path := ["in"; "a"; "b"; "x.jpg"]; item_cluster := [1];
                        item_faces := 1 |};
                     {| item_path := ["in"; "a"; "y.jpg"]; item_cluster := [2];
                        item_faces := 1 |} ];
     plan_unreadable := []; plan_no_faces := [] |}.

(** A platform on which no copy succeeds. *)
Definition no_copy (t : tree) : world :=
  {| w_tree := t;
     w_flaky := λ op, match op with OpCopy _ _ => true | _ => false end;
     w_log := [] |}.

(** ** Measures of a plan *)

(** The items with exactly one membership, and the memberships of all the
    other items. *)
Definition single_count (items : list plan_item) : nat :=
  length (filter (λ it, length (item_cluster it) = 1%nat) items).

Definition other_memberships (items : list plan_item) : nat :=
  sum_list ((λ it, length (item_cluster it)) <$>
            filter (λ it, length (item_cluster it) ≠ 1%nat) items).

(** ** More sample worlds *)

(** A folder whose subfolders have been emptied, next to a file that
    stays. *)
Definition emptied_tree : tree :=
  list_to_map
    [ (["top"], Dir);
      (["top"; "keep.txt"], File "notes");
      (["top"; "a"], Dir);
      (["top"; "a"; "b"], Dir) ].

Definition emptied_dirs : gset path :=
  list_to_set [ ["top"]; ["top"; "a"]; ["top"; "a"; "b"] ].

(** ** Paths a call leaves alone *)

(** The node at [q] in [t] is the one of [t0], or [q] is a directory on the
    way to [base_dir] that has been created. *)
Definition kept (base_dir q : path) (t0 t : tree) : Prop :=
  t !! q = t0 !! q ∨
  (q `prefix_of` base_dir ∧ t0 !! q = None ∧ t !! q = Some Dir).

(** ** What the scan finds in one image *)

(** A detection that the loop of lines 82-95 keeps. *)
Definition accepted {E} (min_score : float) (f : face E) : bool :=
  negb (below_min_score min_score f) &&
  bool_decide (is_Some (normed_embedding f)).

(** The number of detections of an image that the loop keeps (0 when the
    image is not read). *)
Definition face_count (B : backend) (min_score : float) (t : tree)
    (p : path) : Z :=
  match imread_safe B t p with
  | Some img =>
      match app_get B img with
      | Ok faces => Z.of_nat (length (filter (λ f, accepted min_score f) faces))
      | Raise _ => 0
      end
  | None => 0
  end.

(** An image that is read and in which the detector finds nothing. *)
Definition no_detection (B : backend) (t : tree) (p : path) : bool :=
  match imread_safe B t p with
  | Some img => match app_get B img with Ok [] => true | _ => false end
  | None => false
  end.

(** The lists of the scan after the images [pre], read from the tree [t]. *)
Definition scan_done (B : backend) (min_score : float) (t : tree)
    (pre : list path) (st : scan_state B) (w : world) : Prop :=
  w_tree w = t ∧
  unreadable st = filter (λ p, imread_safe B t p = None) pre ∧
  no_faces st = filter (λ p, no_detection B t p) pre ∧
  length (embeddings st) = length (owners st) ∧
  (∀ p, p ∈ owners st ↔ p ∈ pre ∧ 0 < face_count B min_score t p) ∧
  (∀ p, img_face_count st !! p =
        if decide (p ∈ pre ∧ 0 < face_count B min_score t p)
        then Some (face_count B min_score t p) else None).

(** An exception that one of the libraries has raised. *)
Definition library_error (B : backend) (e : exn) : Prop :=
  face_analysis B = Raise e ∨
  (∃ img, app_get B img = Raise e) ∨
  (∃ embs, cosine_distances B embs = Raise e) ∨
  (∃ a b dm, fit_predict B a b dm = Raise e).

(** ** What a plan says *)

(** The image [q] is listed under the cluster [c] of [plan["clusters"]]. *)
Definition cluster_member (pl : plan) (c : Z) (q : path) : Prop :=
  ∃ ps, plan_clusters pl !! c = Some ps ∧ q ∈ ps.

(** A set-valued dict holds [x] under [k]. *)
Definition dict_member {K X} `{Countable K, Countable X}
    (d : gmap K (gset X)) (k : K) (x : X) : Prop :=
  ∃ s, d !! k = Some s ∧ x ∈ s.

(** The dicts of the grouping loop after the pairs [done]. *)
Definition group_done (lm : gmap Z Z) (done : list (Z * path)) (g : groups)
    : Prop :=
  (∀ c q, dict_member (cluster_map g) c q ↔
          ∃ lbl, (lbl, q) ∈ done ∧ lbl ≠ NOISE ∧ lm !! lbl = Some c) ∧
  (∀ c q, dict_member (cluster_by_img g) q c ↔
          ∃ lbl, (lbl, q) ∈ done ∧ lbl ≠ NOISE ∧ lm !! lbl = Some c) ∧
  (∀ q s, cluster_by_img g !! q = Some s → s ≠ ∅) ∧
  (∀ c s, cluster_map g !! c = Some s → s ≠ ∅).

(** The plan that [build_plan_live] returns for the images [imgs] read from
    the tree [t]. *)
Definition plan_facts (B : backend) (min_score : float) (t : tree)
    (imgs : list path) (pl : plan) : Prop :=
  plan_unreadable pl = filter (λ p, imread_safe B t p = None) imgs ∧
  plan_no_faces pl = filter (λ p, no_detection B t p) imgs ∧
  (item_path <$> plan_items pl) `sublist_of` imgs ∧
  (∀ item, item ∈ plan_items pl →
     item_cluster item ≠ [] ∧
     (∀ i j a b, item_cluster item !! i = Some a → item_cluster item !! j = Some b →
                 (i < j)%nat → a < b) ∧
     (∀ c, c ∈ item_cluster item → 1 ≤ c ∧ cluster_member pl c (item_path item)) ∧
     item_faces item = face_count B min_score t (item_path item) ∧
     0 < item_faces item) ∧
  (∀ c q, cluster_member pl c q →
          ∃ item, item ∈ plan_items pl ∧ item_path item = q ∧
                  c ∈ item_cluster item) ∧
  (∀ c ps, plan_clusters pl !! c = Some ps → ps ≠ [] ∧ NoDup ps).

(** Where the cluster numbers of a plan come from: the plan has no cluster,
    or its clusters are the values of [label_map] at the labels that
    [zip(raw_labels, owners)] reaches. *)
Definition plan_labels (B : backend) (min_cluster_size min_samples : Z)
    (pl : plan) : Prop :=
  plan_clusters pl = ∅ ∨
  ∃ embs dm raw_labels (owners : list path),
    length embs = length owners ∧
    cosine_distances B embs = Ok dm ∧
    fit_predict B min_cluster_size min_samples dm = Ok raw_labels ∧
    ∀ c, is_Some (plan_clusters pl !! c) ↔
         ∃ lbl q, (lbl, q) ∈ zip raw_labels owners ∧ lbl ≠ NOISE ∧
                  label_map raw_labels !! lbl = Some c.


(** ** Sample plans *)

(** The plan of the second subfolder of the group. *)
Definition m_plan : plan :=
  {| plan_clusters := {[ 1 := [["g"; "m"; "y.jpg"]] ]};
     plan_items := [ {| item_path := ["g"; "m"; "y.jpg"]; item_cluster := [1];
                        item_faces := 1 |} ];
     plan_unreadable := []; plan_no_faces := [] |}.

(** The plan of the album. *)
Definition album_plan : plan :=
  {| plan_clusters :=
       {[ 1 := [["in"; "a.jpg"]; ["in"; "ab.jpg"]];
          2 := [["in"; "ab.jpg"]; ["in"; "b.jpg"]] ]};
     plan_items := [ {| item_path := ["in"; "b.jpg"]; item_cluster := [2];
                        item_faces := 1 |};
                     {| item_path := ["in"; "ab.jpg"]; item_cluster := [1; 2];
                        item_faces := 2 |};
                     {| item_path := ["in"; "a.jpg"]; item_cluster := [1];
                        item_faces := 1 |} ];
     plan_unreadable := [["in"; "bad.jpg"]];
     plan_no_faces := [["in"; "sky.jpg"]] |}.

(** ** What the program expects of HDBSCAN *)

(** [fit_predict] returns one label for each row of the distance matrix,
    that is, one for each embedding given to [cosine_distances]. *)
Definition labels_per_face (B : backend) : Prop :=
  ∀ a b embs dm labels,
    cosine_distances B embs = Ok dm → fit_predict B a b dm = Ok labels →
    length labels = length embs.

(** ** A group with a loose file *)

Definition loose_group : tree :=
  list_to_map
    [ (["g"], Dir);
      (["g"; "notes.txt"], File "notes");
      (["g"; "m"], Dir);
      (["g"; "m"; "y.jpg"], File "alice") ].
(** * Properties *)

(** ** Sorting a set, building a dict *)

Section containers.
Implicit Types (s : gset Z) (l : list Z).

Lemma elem_of_sorted_set s x : x ∈ sorted_set s ↔ x ∈ s.
Proof.
  unfold sorted_set. rewrite merge_sort_Permutation. apply elem_of_elements.
Qed.

Lemma NoDup_sorted_set s : NoDup (sorted_set s).
Proof.
  unfold sorted_set. rewrite merge_sort_Permutation. apply NoDup_elements.
Qed.

Lemma length_sorted_set s : length (sorted_set s) = size s.
Proof. unfold sorted_set. by rewrite merge_sort_Permutation. Qed.

Lemma sorted_set_le s : StronglySorted Z.le (sorted_set s).
Proof. apply StronglySorted_merge_sort; apply _. Qed.

(** Positions in [sorted(s)] follow the order of the values. *)
Lemma sorted_set_lookup_lt s i j a b :
  sorted_set s !! i = Some a → sorted_set s !! j = Some b →
  (i < j)%nat → a < b.
Proof.
  intros Hi Hj Hij.
  assert (a ≤ b) as Hle.
  { pose proof (sorted_set_le s) as Hs.
    rewrite <- (take_drop j (sorted_set s)) in Hs.
    eapply StronglySorted_app_1_elem_of; [exact Hs | |].
    - apply list_elem_of_lookup. exists i. by rewrite lookup_take_lt.
    - apply list_elem_of_lookup. exists 0%nat. by rewrite lookup_drop, Nat.add_0_r. }
  assert (a ≠ b) as Hne.
  { intros ->. pose proof (NoDup_lookup _ _ _ _ (NoDup_sorted_set s) Hi Hj). lia. }
  lia.
Qed.

Lemma sorted_set_lookup_mono s i j a b :
  sorted_set s !! i = Some a → sorted_set s !! j = Some b →
  a < b → (i < j)%nat.
Proof.
  intros Hi Hj Hab. destruct (decide (i < j)%nat) as [|Hge]; [done|].
  destruct (decide (i = j)) as [->|Hne]; [simplify_eq; lia|].
  assert (b < a) by (eapply (sorted_set_lookup_lt s j i); eauto; lia). lia.
Qed.

Lemma dict_of_snoc {K V} `{Countable K} (bs : list (K * V)) kv :
  dict_of (bs ++ [kv]) = <[kv.1 := kv.2]> (dict_of bs).
Proof. unfold dict_of. by rewrite foldl_snoc. Qed.

Lemma enumerate_dict_snoc f l x :
  enumerate_dict f (l ++ [x]) = <[x := f (length l)]> (enumerate_dict f l).
Proof.
  unfold enumerate_dict. rewrite imap_app. simpl.
  rewrite dict_of_snoc. simpl. by rewrite Nat.add_0_r.
Qed.

Lemma enumerate_dict_dom f l x :
  is_Some (enumerate_dict f l !! x) ↔ x ∈ l.
Proof.
  induction l as [|y l IH] using rev_ind.
  - unfold enumerate_dict, dict_of. simpl. rewrite lookup_empty.
    split; [by intros [? ?] | by intros ?%elem_of_nil].
  - rewrite enumerate_dict_snoc, elem_of_app, list_elem_of_singleton.
    destruct (decide (y = x)) as [->|Hne].
    + rewrite lookup_insert_eq. split; [by right | by eexists].
    + rewrite lookup_insert_ne by done. rewrite IH.
      split; [by left | by intros [?|?]].
Qed.

(** Without repeated keys, the dict sends the element at position [i]
    to [f i]. *)
Lemma enumerate_dict_lookup f l x v :
  NoDup l →
  enumerate_dict f l !! x = Some v ↔ ∃ i, l !! i = Some x ∧ v = f i.
Proof.
  induction l as [|y l IH] using rev_ind; intros Hnd.
  - unfold enumerate_dict, dict_of. simpl. rewrite lookup_empty.
    split; [done | by intros (i & ? & _)].
  - apply NoDup_app in Hnd as (Hl & Hy & _).
    rewrite enumerate_dict_snoc.
    destruct (decide (y = x)) as [->|Hne].
    + rewrite lookup_insert_eq. split.
      * intros [= <-]. exists (length l). by rewrite list_lookup_middle.
      * intros (i & Hi & ->). f_equal. f_equal.
        destruct (decide (i < length l)%nat) as [Hlt|Hge].
        -- rewrite lookup_app_l in Hi by done.
           exfalso. apply (Hy x); [by eapply list_elem_of_lookup_2 | apply list_elem_of_here].
        -- apply lookup_lt_Some in Hi. rewrite length_app in Hi. simpl in Hi. lia.
    + rewrite lookup_insert_ne by done. rewrite (IH Hl). split.
      * intros (i & Hi & ->). exists i. split; [|done].
        by apply lookup_app_l_Some.
      * intros (i & Hi & ->). exists i. split; [|done].
        apply lookup_app_Some in Hi as [Hi|[_ Hi]]; [done|].
        destruct (i - length l)%nat; simplify_eq/=.
Qed.
End containers.

(** ** The renumbering of raw labels *)

Lemma elem_of_non_noise raw_labels l :
  l ∈ non_noise raw_labels ↔ l ∈ raw_labels ∧ l ≠ NOISE.
Proof. unfold non_noise. set_solver. Qed.

Lemma label_map_lookup raw_labels l v :
  label_map raw_labels !! l = Some v ↔
  ∃ i, sorted_set (non_noise raw_labels) !! i = Some l ∧ v = Z.of_nat i + 1.
Proof. unfold label_map. apply enumerate_dict_lookup, NoDup_sorted_set. Qed.

(** C2: [label_map] is defined exactly on the distinct raw labels other than
    the noise label -1, its values are exactly 1..K for K the number of these
    labels, and it is strictly increasing. *)
Theorem label_map_dense_ascending (raw_labels : list Z) :
  (∀ l, is_Some (label_map raw_labels !! l) ↔ l ∈ raw_labels ∧ l ≠ NOISE) ∧
  (∀ v, (∃ l, label_map raw_labels !! l = Some v) ↔
        1 ≤ v ≤ Z.of_nat (size (non_noise raw_labels))) ∧
  (∀ l1 l2 v1 v2,
     label_map raw_labels !! l1 = Some v1 →
     label_map raw_labels !! l2 = Some v2 →
     l1 < l2 → v1 < v2).
Proof.
  split; [|split].
  - intros l. unfold label_map.
    by rewrite enumerate_dict_dom, elem_of_sorted_set, elem_of_non_noise.
  - intros v. rewrite <- length_sorted_set. split.
    + intros (l & (i & Hi & ->)%label_map_lookup).
      apply lookup_lt_Some in Hi. lia.
    + intros Hv.
      destruct (lookup_lt_is_Some_2 (sorted_set (non_noise raw_labels))
                  (Z.to_nat (v - 1))) as [l Hl]; [lia|].
      exists l. apply label_map_lookup. exists (Z.to_nat (v - 1)).
      split; [done | lia].
  - intros l1 l2 v1 v2 (i & Hi & ->)%label_map_lookup
      (j & Hj & ->)%label_map_lookup Hlt.
    pose proof (sorted_set_lookup_mono _ _ _ _ _ Hi Hj Hlt). lia.
Qed.

(** ** The global cluster ids *)

Lemma elem_of_concat {A} (x : A) (ls : list (list A)) :
  x ∈ concat ls ↔ ∃ l, l ∈ ls ∧ x ∈ l.
Proof.
  induction ls as [|l ls IH]; simpl.
  - split; [by intros ?%elem_of_nil | by intros (? & ?%elem_of_nil & _)].
  - rewrite elem_of_app, IH. split.
    + intros [?|(l' & ? & ?)]; [exists l | exists l']; split; auto;
        [apply list_elem_of_here | by apply list_elem_of_further].
    + intros (l' & [->|?]%elem_of_cons & ?); [by left | right; eauto].
Qed.

Lemma elem_of_used_clusters pl c :
  c ∈ used_clusters pl ↔
  ∃ item, item ∈ plan_items pl ∧ c ∈ item_cluster item.
Proof.
  unfold used_clusters, used_set.
  rewrite elem_of_sorted_set, elem_of_list_to_set, elem_of_concat.
  split.
  - intros (cs & (item & -> & Hitem)%list_elem_of_fmap & Hc). eauto.
  - intros (item & Hitem & Hc). exists (item_cluster item).
    split; [|done]. apply list_elem_of_fmap. eauto.
Qed.

Lemma cluster_id_map_lookup pl cluster_start c g :
  cluster_id_map pl cluster_start !! c = Some g ↔
  ∃ i, used_clusters pl !! i = Some c ∧ g = cluster_start + Z.of_nat i.
Proof. unfold cluster_id_map. apply enumerate_dict_lookup, NoDup_sorted_set. Qed.

Lemma cluster_id_map_is_Some pl cluster_start item c :
  item ∈ plan_items pl → c ∈ item_cluster item →
  is_Some (cluster_id_map pl cluster_start !! c).
Proof.
  intros Hitem Hc. unfold cluster_id_map.
  apply enumerate_dict_dom, elem_of_used_clusters. eauto.
Qed.

Lemma cluster_id_map_inj pl cluster_start c1 c2 g :
  cluster_id_map pl cluster_start !! c1 = Some g →
  cluster_id_map pl cluster_start !! c2 = Some g → c1 = c2.
Proof.
  intros (i & Hi & ->)%cluster_id_map_lookup (j & Hj & Heq)%cluster_id_map_lookup.
  assert (i = j) as -> by lia. congruence.
Qed.

(** ** Reasoning about computations *)

Lemma wp_ret {A} (a : A) (Q : A → world → Prop) E w : Q a w → wp (ret a) Q E w.
Proof. done. Qed.

Lemma wp_raise {A} e (Q : A → world → Prop) (E : exn → world → Prop) w :
  E e w → wp (raise e) Q E w.
Proof. done. Qed.

Lemma wp_bind {A B} (c : M A) (k : A → M B) Q E w :
  wp c (λ a w', wp (k a) Q E w') E w → wp (bind c k) Q E w.
Proof. unfold wp, bind. by destruct (c w) as [[a|e] w']. Qed.

Lemma wp_try_except {A} (c : M A) (h : exn → M A) Q E w :
  wp c Q (λ e w', wp (h e) Q E w') w → wp (try_except c h) Q E w.
Proof. unfold wp, try_except. by destruct (c w) as [[a|e] w']. Qed.

Lemma wp_mono {A} (c : M A) (Q Q' : A → world → Prop) (E E' : exn → world → Prop) w :
  (∀ a w', Q a w' → Q' a w') → (∀ e w', E e w' → E' e w') →
  wp c Q E w → wp c Q' E' w.
Proof. unfold wp. destruct (c w) as [[a|e] w']; auto. Qed.

(** The invariant rule for loops. *)
Lemma wp_for_each {A S} (body : S → A → M S) (l : list A)
    (I : S → world → Prop) E st w :
  (∀ st x w, x ∈ l → I st w → wp (body st x) I E w) →
  I st w → wp (for_each body l st) I E w.
Proof.
  revert st w. induction l as [|x l IH]; intros st w Hbody HI; simpl.
  - by apply wp_ret.
  - apply wp_bind. eapply wp_mono; [| |apply Hbody; [apply list_elem_of_here|done]].
    + intros st' w' HI'. apply IH; [|done].
      intros ? ? ? ?. apply Hbody. by apply list_elem_of_further.
    + done.
Qed.

Lemma wp_print ev (Q : unit → world → Prop) E w :
  Q tt (add_log ev w) → wp (print ev) Q E w.
Proof. done. Qed.

(** An operation on the tree either succeeds on the tree, or raises its own
    error and leaves the world as it was. *)
Lemma wp_fs_run op f (Q : unit → world → Prop) (E : exn → world → Prop) w :
  (∀ t', w_flaky w op = false → f (w_tree w) = Some t' → Q tt (set_tree t' w)) →
  E (OSError op) w →
  wp (fs_run op f) Q E w.
Proof.
  intros HQ HE. unfold wp, fs_run.
  destruct (w_flaky w op) eqn:Hfl; [done|].
  destruct (f (w_tree w)) as [t'|] eqn:Hf; [by apply HQ | done].
Qed.

(** [distribute_to_folders] reads the id of every cluster of every item from
    [cluster_id_map]; the lookups cannot fail. *)
Lemma lookup_ids_ok (m : gmap Z Z) cs w :
  (∀ c, c ∈ cs → is_Some (m !! c)) →
  ∃ gs, lookup_ids m cs w = (Ok gs, w) ∧ Forall2 (λ c g, m !! c = Some g) cs gs.
Proof.
  induction cs as [|c cs IH]; intros Hcs; simpl.
  - by exists [].
  - destruct (Hcs c) as [g Hg]; [apply list_elem_of_here|]. rewrite Hg.
    destruct IH as (gs & Hgs & Hall).
    { intros ? ?. apply Hcs. by apply list_elem_of_further. }
    exists (g :: gs). unfold bind. rewrite Hgs. split; [done|].
    by constructor.
Qed.

(** ** distribute_to_folders: results *)

Lemma bind_Ok {A B} (c : M A) (k : A → M B) w b w' :
  bind c k w = (Ok b, w') ↔ ∃ a w1, c w = (Ok a, w1) ∧ k a w1 = (Ok b, w').
Proof.
  unfold bind. destruct (c w) as [[a|e] w1]; split.
  - intros Hk. by exists a, w1.
  - by intros (? & ? & [= <- <-] & ?).
  - done.
  - by intros (? & ? & ? & ?).
Qed.

Lemma lookup_ids_plan pl cluster_start item w :
  item ∈ plan_items pl →
  ∃ gs, lookup_ids (cluster_id_map pl cluster_start) (item_cluster item) w = (Ok gs, w) ∧
        Forall2 (λ c g, cluster_id_map pl cluster_start !! c = Some g)
          (item_cluster item) gs.
Proof.
  intros Hitem. apply lookup_ids_ok.
  intros c Hc. by eapply cluster_id_map_is_Some.
Qed.

Lemma longest_first_empty : longest_first ∅ = [].
Proof. unfold longest_first. by rewrite elements_empty. Qed.

Lemma distribute_item_missing pl base_dir cluster_start st item w :
  item ∈ plan_items pl →
  path_exists (w_tree w) (item_path item) = false →
  distribute_item base_dir (cluster_id_map pl cluster_start) st item w = (Ok st, w).
Proof.
  intros Hitem Hmiss. unfold distribute_item.
  destruct (lookup_ids_plan pl cluster_start item w Hitem) as (gs & Hgs & _).
  unfold bind at 1. rewrite Hgs. unfold bind, fs_exists. by rewrite Hmiss.
Qed.

(** C9: when no source path of the plan exists any more, every item is
    skipped: the call returns [moved = 0] and [copied = 0] with the usual
    cursor, raises nothing, prints nothing and leaves the tree as it is. *)
Theorem distribute_to_folders_already_distributed pl base_dir cluster_start w :
  (∀ item, item ∈ plan_items pl →
           path_exists (w_tree w) (item_path item) = false) →
  distribute_to_folders pl base_dir cluster_start w =
    (Ok (0, 0, cluster_start + Z.of_nat (length (used_clusters pl))), w).
Proof.
  intros Hmiss.
  assert (∀ l st, (∀ item, item ∈ l → item ∈ plan_items pl) →
            for_each (distribute_item base_dir (cluster_id_map pl cluster_start))
              l st w = (Ok st, w)) as Hloop.
  { induction l as [|item l IH]; intros st Hl; simpl; [done|].
    unfold bind.
    rewrite (distribute_item_missing pl base_dir cluster_start st item w).
    - apply IH. intros ? ?. apply Hl. by apply list_elem_of_further.
    - apply Hl, list_elem_of_here.
    - apply Hmiss, Hl, list_elem_of_here. }
  unfold distribute_to_folders, distribute_items, bind.
  rewrite Hloop by done. simpl. by rewrite longest_first_empty.
Qed.

(** ** distribute_to_folders: which errors escape *)

Lemma wp_fs_mkdir_escapes p (Q : unit → world → Prop) w :
  (∀ w', Q tt w') → wp (fs_mkdir p) Q (λ e _, is_mkdir_error e) w.
Proof. intros HQ. apply wp_fs_run; [auto | by exists p]. Qed.

Lemma move_single_escapes base_dir src g st w :
  wp (move_single base_dir src g st) (λ _ _, True) (λ e _, is_mkdir_error e) w.
Proof.
  unfold move_single. apply wp_bind, wp_fs_mkdir_escapes. intros w1.
  apply wp_try_except, wp_bind, wp_fs_run; [done|].
  by apply wp_bind, wp_print.
Qed.

Lemma copy_one_escapes base_dir src g st w :
  wp (copy_one base_dir src st g) (λ _ _, True) (λ e _, is_mkdir_error e) w.
Proof.
  unfold copy_one. apply wp_bind, wp_fs_mkdir_escapes. intros w1.
  apply wp_try_except, wp_bind, wp_fs_run; [done|].
  by apply wp_bind, wp_print.
Qed.

Lemma copy_multi_escapes base_dir src gs st w :
  wp (copy_multi base_dir src gs st) (λ _ _, True) (λ e _, is_mkdir_error e) w.
Proof.
  unfold copy_multi. apply wp_bind.
  eapply wp_mono; [| |apply (wp_for_each _ _ (λ _ _, True) (λ e _, is_mkdir_error e))];
    try done.
  - intros st' w' _. apply wp_bind, wp_try_except, wp_fs_run; [done|].
    by apply wp_print.
  - intros ? ? ? _ _. apply copy_one_escapes.
Qed.

Lemma distribute_item_escapes pl base_dir cluster_start st item w :
  item ∈ plan_items pl →
  wp (distribute_item base_dir (cluster_id_map pl cluster_start) st item)
    (λ _ _, True) (λ e _, is_mkdir_error e) w.
Proof.
  intros Hitem. unfold distribute_item.
  destruct (lookup_ids_plan pl cluster_start item w Hitem) as (gs & Hgs & _).
  apply wp_bind. unfold wp at 1. rewrite Hgs.
  apply wp_bind. unfold wp at 1, fs_exists.
  destruct (path_exists _ _); simpl; [|done].
  destruct gs as [|g [|g' gs]];
    auto using move_single_escapes, copy_multi_escapes.
Qed.

Lemma cleanup_dir_returns p w : ∃ w', cleanup_dir p w = (Ok tt, w').
Proof.
  unfold cleanup_dir, try_except.
  destruct (bind _ _ w) as [[[]|e] w']; unfold ret; eauto.
Qed.

Lemma cleanup_returns dirs w : ∃ w', cleanup dirs w = (Ok tt, w').
Proof.
  unfold cleanup. revert w. induction dirs as [|p dirs IH]; intros w; simpl.
  - by exists w.
  - unfold bind. destruct (cleanup_dir_returns p w) as (w1 & ->). apply IH.
Qed.

(** A call returns the counts and the next cursor unless a directory could
    not be created: no other failure gets out of it. *)
Lemma distribute_to_folders_outcome pl base_dir cluster_start w :
  wp (distribute_to_folders pl base_dir cluster_start)
    (λ r _, r.2 = cluster_start + Z.of_nat (length (used_clusters pl)))
    (λ e _, is_mkdir_error e) w.
Proof.
  unfold distribute_to_folders. apply wp_bind.
  eapply wp_mono; [| |apply (wp_for_each _ _ (λ _ _, True) (λ e _, is_mkdir_error e))];
    try done.
  - intros st w1 _. apply wp_bind. unfold wp at 1.
    destruct (cleanup_returns (longest_first (moved_paths st)) w1) as (w2 & ->).
    by apply wp_ret.
  - intros ? ? ? ? _. by apply distribute_item_escapes.
Qed.

(** ** The file tree *)

Lemma parent_child p s : parent (child p s) = p.
Proof. unfold parent, child. apply removelast_last. Qed.

Lemma name_child p s : name (child p s) = s.
Proof. unfold name, child. by rewrite last_snoc. Qed.

Lemma child_not_anchor p s : child p s ≠ [].
Proof. unfold child. by destruct p. Qed.

Lemma parent_target base_dir g src :
  parent (target base_dir g src) = child base_dir (pretty g).
Proof. apply parent_child. Qed.

Lemma length_target base_dir g src :
  length (target base_dir g src) = S (S (length base_dir)).
Proof. unfold target, child. rewrite !length_app. simpl. lia. Qed.

Lemma target_not_anchor base_dir g src : target base_dir g src ≠ [].
Proof. apply child_not_anchor. Qed.

(** A target is never on the way to a cluster directory. *)
Lemma target_not_prefix base_dir g (g' : Z) src :
  ¬ target base_dir g src `prefix_of` child base_dir (pretty g').
Proof.
  intros Hpre%prefix_length. rewrite length_target in Hpre.
  unfold child in Hpre. rewrite length_app in Hpre. simpl in Hpre. lia.
Qed.

Lemma mkdir_one_spec t p t' :
  p ≠ [] → mkdir_one t p = Some t' →
  t' !! p = Some Dir ∧ (t' = t ∨ (t !! p = None ∧ t' = <[p := Dir]> t)).
Proof.
  intros Hp. unfold mkdir_one, node_at. destruct p as [|c p]; [done|].
  destruct (t !! (c :: p)) as [[d|]|] eqn:Hlook; intros [= <-].
  - auto.
  - rewrite lookup_insert_eq. auto.
Qed.

Lemma mkdir_from_spec pre rest t t' :
  mkdir_from pre rest t = Some t' →
  (∀ q n, t !! q = Some n → t' !! q = Some n) ∧
  (∀ q, t' !! q = t !! q ∨
        (t !! q = None ∧ t' !! q = Some Dir ∧ q `prefix_of` pre ++ rest)) ∧
  (rest ≠ [] → t' !! (pre ++ rest) = Some Dir).
Proof.
  revert pre t. induction rest as [|c rest IH]; intros pre t; simpl.
  - intros [= <-]. split; [done|]. split; [by left | done].
  - destruct (mkdir_one t (child pre c)) as [t1|] eqn:Hone; [|done].
    intros Hrest.
    apply mkdir_one_spec in Hone as [Hdir Ht1]; [|apply child_not_anchor].
    apply IH in Hrest as (Hkeep & Hnew & Hlast).
    unfold child in *. rewrite <- (assoc_L (++)) in Hnew, Hlast. simpl in *.
    assert (∀ q n, t !! q = Some n → t1 !! q = Some n) as Hkeep1.
    { intros q n Hq. destruct Ht1 as [->|[Hnone ->]]; [done|].
      rewrite lookup_insert_ne; [done|]. intros <-. congruence. }
    split; [|split].
    + intros q n Hq. by apply Hkeep, Hkeep1.
    + intros q. destruct (Hnew q) as [Heq|(Hnone & Hq & Hpre)].
      * rewrite Heq. destruct Ht1 as [->|[Hnone ->]]; [by left|].
        destruct (decide (pre ++ [c] = q)) as [<-|Hne].
        -- right. rewrite lookup_insert_eq. split; [done|]. split; [done|].
           apply prefix_app, prefix_cons, prefix_nil.
        -- left. by rewrite lookup_insert_ne.
      * right. split; [|done].
        destruct (t !! q) as [n|] eqn:Hq'; [|done].
        apply Hkeep1 in Hq'. congruence.
    + intros _. destruct rest as [|c' rest].
      * by apply Hkeep.
      * by apply Hlast.
Qed.

Lemma mkdir_parents_spec t p t' :
  mkdir_parents t p = Some t' →
  (∀ q n, t !! q = Some n → t' !! q = Some n) ∧
  (∀ q, t' !! q = t !! q ∨
        (t !! q = None ∧ t' !! q = Some Dir ∧ q `prefix_of` p)) ∧
  (p ≠ [] → t' !! p = Some Dir).
Proof. apply mkdir_from_spec. Qed.

(** Creating a cluster directory leaves every target as it was. *)
Lemma mkdir_parents_target t base_dir (g' : Z) t' g src :
  mkdir_parents t (child base_dir (pretty g')) = Some t' →
  t' !! target base_dir g src = t !! target base_dir g src.
Proof.
  intros (_ & Hnew & _)%mkdir_parents_spec.
  destruct (Hnew (target base_dir g src)) as [|(_ & _ & Hpre)]; [done|].
  by apply target_not_prefix in Hpre.
Qed.

(** ** One step of the copy loop, one move *)

Lemma fs_run_inv op f w r w' :
  fs_run op f w = (r, w') →
  (∃ t', w_flaky w op = false ∧ f (w_tree w) = Some t' ∧
         r = Ok tt ∧ w' = set_tree t' w) ∨
  ((w_flaky w op = true ∨ f (w_tree w) = None) ∧
   r = Raise (OSError op) ∧ w' = w).
Proof.
  unfold fs_run. destruct (w_flaky w op) eqn:Hfl.
  - intros [= <- <-]. right. auto.
  - destruct (f (w_tree w)) as [t'|] eqn:Hf; intros [= <- <-].
    + left. by exists t'.
    + right. auto.
Qed.

(** The three ways [copy_one] can go: the directory cannot be created and
    the error escapes; the copy is made and counted; the copy fails, which
    is printed and not counted. *)
Lemma copy_one_inv base_dir src st g w r w' :
  let dir := child base_dir (pretty g) in
  let dst := target base_dir g src in
  copy_one base_dir src st g w = (r, w') →
  ((w_flaky w (OpMkdir dir) = true ∨ mkdir_parents (w_tree w) dir = None) ∧
   r = Raise (OSError (OpMkdir dir)) ∧ w' = w) ∨
  (∃ t1, w_flaky w (OpMkdir dir) = false ∧ mkdir_parents (w_tree w) dir = Some t1 ∧
     ((∃ t2, w_flaky w (OpCopy src dst) = false ∧ shutil_copy2 t1 src dst = Some t2 ∧
             r = Ok {| moved := moved st; copied := copied st + 1;
                       moved_paths := moved_paths st |} ∧
             w' = set_tree t2 w) ∨
      ((w_flaky w (OpCopy src dst) = true ∨ shutil_copy2 t1 src dst = None) ∧
       r = Ok st ∧
       w' = add_log (PrintCopyError src dst (OSError (OpCopy src dst)))
              (set_tree t1 w)))).
Proof.
  intros dir dst. unfold copy_one. rewrite parent_target. fold dir dst.
  unfold bind at 1, fs_mkdir.
  destruct (fs_run (OpMkdir dir) _ w) as [r1 w1] eqn:Hmk.
  apply fs_run_inv in Hmk as [(t1 & Hfl & Hmk & -> & ->)|(Hfail & -> & ->)].
  - intros Hrun. right. exists t1. split; [done|]. split; [done|].
    revert Hrun. unfold try_except, bind at 1, fs_copy2.
    destruct (fs_run (OpCopy src dst) _ (set_tree t1 w)) as [r2 w2] eqn:Hcp.
    apply fs_run_inv in Hcp as [(t2 & Hfl2 & Hcp & -> & ->)|(Hfail & -> & ->)];
      simpl in *.
    + intros [= <- <-]. left. by exists t2.
    + intros [= <- <-]. right. auto.
  - intros [= <- <-]. left. auto.
Qed.

Lemma move_single_inv base_dir src g st w r w' :
  let dir := child base_dir (pretty g) in
  let dst := target base_dir g src in
  move_single base_dir src g st w = (r, w') →
  ((w_flaky w (OpMkdir dir) = true ∨ mkdir_parents (w_tree w) dir = None) ∧
   r = Raise (OSError (OpMkdir dir)) ∧ w' = w) ∨
  (∃ t1, w_flaky w (OpMkdir dir) = false ∧ mkdir_parents (w_tree w) dir = Some t1 ∧
     ((∃ t2, w_flaky w (OpMove src dst) = false ∧ shutil_move t1 src dst = Some t2 ∧
             r = Ok {| moved := moved st + 1; copied := copied st;
                       moved_paths := moved_paths st ∪ {[ parent src ]} |} ∧
             w' = set_tree t2 w) ∨
      ((w_flaky w (OpMove src dst) = true ∨ shutil_move t1 src dst = None) ∧
       r = Ok st ∧
       w' = add_log (PrintMoveError src dst (OSError (OpMove src dst)))
              (set_tree t1 w)))).
Proof.
  intros dir dst. unfold move_single. rewrite parent_target. fold dir dst.
  unfold bind at 1, fs_mkdir.
  destruct (fs_run (OpMkdir dir) _ w) as [r1 w1] eqn:Hmk.
  apply fs_run_inv in Hmk as [(t1 & Hfl & Hmk & -> & ->)|(Hfail & -> & ->)].
  - intros Hrun. right. exists t1. split; [done|]. split; [done|].
    revert Hrun. unfold try_except, bind at 1, fs_move.
    destruct (fs_run (OpMove src dst) _ (set_tree t1 w)) as [r2 w2] eqn:Hmv.
    apply fs_run_inv in Hmv as [(t2 & Hfl2 & Hmv & -> & ->)|(Hfail & -> & ->)];
      simpl in *.
    + intros [= <- <-]. left. by exists t2.
    + intros [= <- <-]. right. auto.
  - intros [= <- <-]. left. auto.
Qed.

(** The end of the multi-membership branch: the original is unlinked, or
    the failure is printed. *)
Lemma unlink_step_inv src w r w' :
  try_except (fs_unlink src) (λ e, print (PrintUnlinkError src e)) w = (r, w') →
  r = Ok tt ∧
  ((∃ t', w_flaky w (OpUnlink src) = false ∧ unlink (w_tree w) src = Some t' ∧
          w' = set_tree t' w) ∨
   ((w_flaky w (OpUnlink src) = true ∨ unlink (w_tree w) src = None) ∧
    w' = add_log (PrintUnlinkError src (OSError (OpUnlink src))) w)).
Proof.
  unfold try_except, fs_unlink.
  destruct (fs_run (OpUnlink src) _ w) as [r1 w1] eqn:Hun.
  apply fs_run_inv in Hun as [(t' & Hfl & Hun & -> & ->)|(Hfail & -> & ->)].
  - intros [= <- <-]. split; [done|]. left. by exists t'.
  - intros [= <- <-]. split; [done|]. right. auto.
Qed.

Lemma add_log_ne ev w0 w : w_log (add_log ev w0) = w_log w → w_log w0 ≠ w_log w.
Proof.
  simpl. intros Heq Heq'. rewrite Heq' in Heq.
  apply (f_equal length) in Heq. rewrite length_app in Heq. simpl in Heq. lia.
Qed.

Lemma shutil_copy2_spec t src dst t' :
  shutil_copy2 t src dst = Some t' →
  ∃ d real_dst,
    node_at t src = Some (File d) ∧ real_dst ≠ src ∧
    t !! real_dst ≠ Some Dir ∧ t' = <[real_dst := File d]> t ∧
    real_dst = (if path_is_dir t dst then child dst (name src) else dst).
Proof.
  unfold shutil_copy2. destruct (node_at t src) as [[d|]|] eqn:Hsrc; try done.
  set (real_dst := if path_is_dir t dst then child dst (name src) else dst).
  destruct (decide (src = real_dst)) as [|Hne]; [done|].
  destruct (path_is_dir t real_dst) eqn:Hdir; [done|].
  destruct (negb _); [done|]. intros [= <-].
  exists d, real_dst. repeat split; try done.
  intros Hd. unfold path_is_dir in Hdir. apply bool_decide_eq_false in Hdir.
  apply Hdir. unfold node_at. by destruct real_dst.
Qed.

(** ** The multi-membership branch when copies fail *)

(** Whatever happens to the copies, the loop leaves the original in place. *)
Lemma copy_loop_keeps_source base_dir src d gs st w st' w' :
  for_each (copy_one base_dir src) gs st w = (Ok st', w') →
  node_at (w_tree w) src = Some (File d) →
  node_at (w_tree w') src = Some (File d) ∧ w_flaky w' = w_flaky w ∧
  moved st' = moved st ∧ moved_paths st' = moved_paths st ∧
  copied st ≤ copied st' ≤ copied st + Z.of_nat (length gs).
Proof.
  revert st w. induction gs as [|g gs IH]; intros st w; simpl.
  - intros [= <- <-] Hsrc. split_and!; try done; lia.
  - intros (st1 & w1 & Hone & Hrest)%bind_Ok Hsrc.
    apply copy_one_inv in Hone
      as [(_ & ? & _)|(t1 & _ & Hmk & [(t2 & _ & Hcp & [= ->] & ->)|(_ & [= ->] & ->)])];
      [done| |].
    + apply mkdir_parents_spec in Hmk as (Hkeep & _ & _).
      apply shutil_copy2_spec in Hcp as (d' & rd & _ & Hrd & _ & -> & _).
      apply IH in Hrest as (? & ? & ? & ? & ?); simpl in *.
      * split_and!; try done; lia.
      * destruct src as [|c src]; [done|]. simpl in *.
        apply Hkeep in Hsrc. by rewrite lookup_insert_ne.
    + apply mkdir_parents_spec in Hmk as (Hkeep & _ & _).
      apply IH in Hrest as (? & ? & ? & ? & ?); simpl in *.
      * split_and!; try done; lia.
      * destruct src as [|c src]; [done|]. simpl in *. by apply Hkeep.
Qed.

(** When every copy of the file fails, the loop counts nothing and creates
    directories only. *)
Lemma copy_loop_all_fail base_dir src gs st w st' w' :
  (∀ dst, w_flaky w (OpCopy src dst) = true) →
  for_each (copy_one base_dir src) gs st w = (Ok st', w') →
  st' = st ∧
  (∀ q, w_tree w' !! q = w_tree w !! q ∨
        (w_tree w !! q = None ∧ w_tree w' !! q = Some Dir)).
Proof.
  revert st w. induction gs as [|g gs IH]; intros st w Hfl; simpl.
  - intros [= <- <-]. split; [done|]. by left.
  - intros (st1 & w1 & Hone & Hrest)%bind_Ok.
    apply copy_one_inv in Hone
      as [(_ & ? & _)|(t1 & _ & Hmk & [(t2 & Hok & _)|(_ & [= ->] & ->)])];
      [done|by rewrite Hfl in Hok|].
    apply mkdir_parents_spec in Hmk as (Hkeep & Hnew & _).
    apply IH in Hrest as [-> Hrest]; [|done]. split; [done|].
    intros q. simpl in Hrest.
    destruct (Hrest q) as [->|[Hnone Hdir]], (Hnew q) as [Heq|(? & ? & _)];
      rewrite ?Heq; auto.
    right. split; [|done]. by rewrite <- Heq.
Qed.

(** C10: in the branch for several memberships the original is unlinked
    after the copy loop whatever the copies did; when all its copies fail
    and the unlink succeeds, the file is gone, no file has been created
    anywhere and [copied] has not changed. *)
Theorem distribute_item_deletes_uncopied pl base_dir cluster_start st item d w st' w' :
  item ∈ plan_items pl →
  length (item_cluster item) ≠ 1%nat →
  node_at (w_tree w) (item_path item) = Some (File d) →
  w_flaky w (OpUnlink (item_path item)) = false →
  distribute_item base_dir (cluster_id_map pl cluster_start) st item w = (Ok st', w') →
  w_tree w' !! item_path item = None ∧
  moved st' = moved st ∧
  copied st ≤ copied st' ≤ copied st + Z.of_nat (length (item_cluster item)) ∧
  ((∀ dst, w_flaky w (OpCopy (item_path item) dst) = true) →
   copied st' = copied st ∧
   ∀ q d', w_tree w' !! q = Some (File d') → w_tree w !! q = Some (File d')).
Proof.
  intros Hitem Hlen Hsrc Hfl. unfold distribute_item.
  destruct (lookup_ids_plan pl cluster_start item w Hitem) as (gs & Hgs & Hall).
  apply Forall2_length in Hall.
  unfold bind at 1. rewrite Hgs. unfold bind at 1, fs_exists.
  assert (path_exists (w_tree w) (item_path item) = true) as ->.
  { unfold path_exists. apply bool_decide_eq_true. by rewrite Hsrc. }
  simpl.
  assert (copy_multi base_dir (item_path item) gs st w = (Ok st', w') →
          w_tree w' !! item_path item = None ∧ moved st' = moved st ∧
          copied st ≤ copied st' ≤ copied st + Z.of_nat (length (item_cluster item)) ∧
          ((∀ dst, w_flaky w (OpCopy (item_path item) dst) = true) →
           copied st' = copied st ∧
           ∀ q d', w_tree w' !! q = Some (File d') → w_tree w !! q = Some (File d')))
    as Hmulti.
  { unfold copy_multi.
    intros (st1 & w1 & Hloop & (u & w2 & Hun & [= <- <-])%bind_Ok)%bind_Ok.
    pose proof (copy_loop_keeps_source _ _ _ _ _ _ _ _ Hloop Hsrc)
      as (Hsrc1 & Hfl1 & Hmv & _ & Hcp).
    apply unlink_step_inv in Hun as (_ & [(t' & _ & Hun & ->)|([Hbad|Hbad] & _)]).
    - unfold unlink in Hun. rewrite Hsrc1 in Hun. injection Hun as <-. simpl.
      split; [apply lookup_delete_eq|]. split; [done|]. split; [lia|].
      intros Hall_fail.
      apply copy_loop_all_fail in Hloop as [-> Hnew]; [|done].
      split; [done|]. intros q d' Hq.
      apply lookup_delete_Some in Hq as [_ Hq].
      destruct (Hnew q) as [<-|[_ Hdir]]; [done|congruence].
    - congruence.
    - unfold unlink in Hbad. by rewrite Hsrc1 in Hbad. }
  destruct gs as [|g [|g' gs]]; [done| |done].
  simpl in Hall. lia.
Qed.

(** ** Moving and copying when nothing fails *)

Lemma path_is_dir_false t p : p ≠ [] → t !! p ≠ Some Dir → path_is_dir t p = false.
Proof.
  intros Hp Hd. unfold path_is_dir. apply bool_decide_eq_false.
  by destruct p.
Qed.

Lemma shutil_move_file_spec t src dst d t' :
  node_at t src = Some (File d) → dst ≠ [] → t !! dst ≠ Some Dir →
  shutil_move t src dst = Some t' →
  (src = dst ∧ t' = t) ∨ (src ≠ dst ∧ t' = <[dst := File d]> (delete src t)).
Proof.
  intros Hsrc Hdst Hnd. unfold shutil_move.
  destruct src as [|c src]; [done|]. simpl in Hsrc. rewrite Hsrc.
  destruct (decide (c :: src = dst)) as [|Hne]; [intros [= <-]; by left|].
  rewrite (path_is_dir_false t dst) by done. simpl.
  destruct (negb _); [done|]. intros [= <-]. by right.
Qed.

Lemma copy_one_log_prefix base_dir src st g w r w' :
  copy_one base_dir src st g w = (r, w') → w_log w `prefix_of` w_log w'.
Proof.
  intros [(_ & _ & ->)|(t1 & _ & _ & [(t2 & _ & _ & _ & ->)|(_ & _ & ->)])]%copy_one_inv;
    simpl; [done|done|]. by apply prefix_app_r.
Qed.

Lemma copy_loop_log_prefix base_dir src gs st w r w' :
  for_each (copy_one base_dir src) gs st w = (r, w') →
  w_log w `prefix_of` w_log w'.
Proof.
  revert st w. induction gs as [|g gs IH]; intros st w; simpl.
  - by intros [= <- <-].
  - unfold bind. destruct (copy_one _ _ _ _ w) as [[st1|e] w1] eqn:Hone.
    + intros Hrest%IH. apply copy_one_log_prefix in Hone. by etrans.
    + intros [= <- <-]. by apply copy_one_log_prefix in Hone.
Qed.

Lemma log_prefix_eq (l1 l2 l3 : list event) :
  l1 `prefix_of` l2 → l2 `prefix_of` l3 → l3 = l1 → l2 = l1.
Proof.
  intros H12 H23 ->. symmetry. apply (prefix_length_eq _ _ H12).
  by apply prefix_length.
Qed.

(** A copy loop that prints nothing has made every copy. *)
Lemma copy_loop_success base_dir src d gs st w st' w' :
  node_at (w_tree w) src = Some (File d) →
  (∀ g, g ∈ gs → w_tree w !! target base_dir g src ≠ Some Dir) →
  for_each (copy_one base_dir src) gs st w = (Ok st', w') →
  w_log w' = w_log w →
  node_at (w_tree w') src = Some (File d) ∧ w_flaky w' = w_flaky w ∧
  moved st' = moved st ∧ moved_paths st' = moved_paths st ∧
  copied st' = copied st + Z.of_nat (length gs) ∧
  (∀ q, w_tree w !! q = Some Dir → w_tree w' !! q = Some Dir) ∧
  (∀ q, w_tree w !! q = Some (File d) → w_tree w' !! q = Some (File d)) ∧
  (∀ g, g ∈ gs → src ≠ target base_dir g src ∧
                 w_tree w' !! child base_dir (pretty g) = Some Dir ∧
                 w_tree w' !! target base_dir g src = Some (File d)).
Proof.
  revert st w. induction gs as [|g gs IH]; intros st w Hsrc Hnd; simpl.
  - intros [= <- <-] _. split_and!; try done; [lia|]. by intros g ?%elem_of_nil.
  - intros (st1 & w1 & Hone & Hrest)%bind_Ok Hlog.
    assert (w_log w1 = w_log w) as Hlog1.
    { eapply log_prefix_eq; [|by eapply copy_loop_log_prefix|done].
      by eapply copy_one_log_prefix. }
    apply copy_one_inv in Hone
      as [(_ & ? & _)|(t1 & _ & Hmk & [(t2 & _ & Hcp & [= ->] & ->)|(_ & _ & ->)])];
      [done| |by apply add_log_ne in Hlog1].
    pose proof Hmk as (Hkeep & Hnew & Hdir)%mkdir_parents_spec.
    specialize (Hdir (child_not_anchor _ _)).
    apply shutil_copy2_spec in Hcp as (d' & rd & Hsrc1 & Hrd & _ & -> & ->).
    assert (t1 !! target base_dir g src ≠ Some Dir) as Hnd1.
    { rewrite (mkdir_parents_target _ _ _ _ _ _ Hmk). apply Hnd, list_elem_of_here. }
    rewrite (path_is_dir_false t1 _ (target_not_anchor _ _ _) Hnd1) in *.
    assert (t1 !! src = Some (File d)) as Hsrc2.
    { destruct src; [done|]. by apply Hkeep. }
    assert (d' = d) as ->.
    { destruct src; [done|]. simpl in Hsrc1. congruence. }
    apply IH in Hrest as (Hs & Hfl & Hmv & Hmp & Hcp & HD & HF & Hgs);
      simpl in *; [| |  |done].
    + split_and!; try done; [lia| | |].
      * intros q Hq. apply HD. rewrite lookup_insert_ne; [by apply Hkeep|].
        intros <-. apply Hkeep in Hq. congruence.
      * intros q Hq. apply HF.
        destruct (decide (target base_dir g src = q)) as [<-|Hne].
        -- apply lookup_insert_eq.
        -- rewrite lookup_insert_ne by done. by apply Hkeep.
      * intros g' [->|Hg']%elem_of_cons; [|by apply Hgs].
        split; [done|]. split.
        -- apply HD. rewrite lookup_insert_ne; [done|].
           intros Heq. rewrite Heq in Hnd1. congruence.
        -- apply HF, lookup_insert_eq.
    + destruct src; [done|]. simpl. by rewrite lookup_insert_ne.
    + intros g' Hg'.
      destruct (decide (target base_dir g src = target base_dir g' src)) as [<-|Hne].
      * by rewrite lookup_insert_eq.
      * rewrite lookup_insert_ne by done.
        rewrite (mkdir_parents_target _ _ _ _ _ _ Hmk).
        by apply Hnd, list_elem_of_further.
Qed.

Lemma Forall2_lookup_ids (m : gmap Z Z) cs gs c g :
  Forall2 (λ c g, m !! c = Some g) cs gs → c ∈ cs → m !! c = Some g → g ∈ gs.
Proof.
  induction 1 as [|c' g' cs gs Hc' _ IH]; [by intros ?%elem_of_nil|].
  intros [->|Hc]%elem_of_cons Hg.
  - assert (g = g') as -> by congruence. apply list_elem_of_here.
  - apply list_elem_of_further. by apply IH.
Qed.

Lemma cluster_dir_inj pl base_dir cluster_start c1 c2 g1 g2 :
  cluster_id_map pl cluster_start !! c1 = Some g1 →
  cluster_id_map pl cluster_start !! c2 = Some g2 →
  child base_dir (pretty g1) = child base_dir (pretty g2) → c1 = c2.
Proof.
  intros H1 H2 Heq. unfold child in Heq.
  apply app_inv_head in Heq. injection Heq as Heq.
  apply (inj pretty) in Heq as ->. by eapply cluster_id_map_inj.
Qed.

(** C3 (amended): an item whose source is a regular file, whose targets
    [base_dir/<global id>/<name>] are not directories, and which is
    processed without an error being raised or printed.  The cluster
    directories exist afterwards and hold the file, one directory per
    membership.  With one membership [moved] grows by one and the source
    path is free, unless the source already is the target.  Otherwise
    [copied] grows by the number of memberships and the source is gone. *)
Theorem distribute_item_effect pl base_dir cluster_start st item d w st' w' :
  item ∈ plan_items pl →
  node_at (w_tree w) (item_path item) = Some (File d) →
  (∀ c g, c ∈ item_cluster item → cluster_id_map pl cluster_start !! c = Some g →
          w_tree w !! target base_dir g (item_path item) ≠ Some Dir) →
  distribute_item base_dir (cluster_id_map pl cluster_start) st item w = (Ok st', w') →
  w_log w' = w_log w →
  (∀ c g, c ∈ item_cluster item → cluster_id_map pl cluster_start !! c = Some g →
          w_tree w' !! child base_dir (pretty g) = Some Dir ∧
          w_tree w' !! target base_dir g (item_path item) = Some (File d) ∧
          ∀ c' g', cluster_id_map pl cluster_start !! c' = Some g' →
                   child base_dir (pretty g') = child base_dir (pretty g) → c' = c) ∧
  (length (item_cluster item) = 1%nat →
     moved st' = moved st + 1 ∧ copied st' = copied st ∧
     ∀ c g, c ∈ item_cluster item → cluster_id_map pl cluster_start !! c = Some g →
            item_path item ≠ target base_dir g (item_path item) →
            w_tree w' !! item_path item = None) ∧
  (length (item_cluster item) ≠ 1%nat →
     moved st' = moved st ∧
     copied st' = copied st + Z.of_nat (length (item_cluster item)) ∧
     w_tree w' !! item_path item = None).
Proof.
  intros Hitem Hsrc Hnd. set (src := item_path item) in *.
  unfold distribute_item. fold src.
  destruct (lookup_ids_plan pl cluster_start item w Hitem) as (gs & Hgs & Hall).
  pose proof (Forall2_length _ _ _ Hall) as Hlen.
  unfold bind at 1. rewrite Hgs. unfold bind at 1, fs_exists.
  assert (path_exists (w_tree w) src = true) as ->.
  { unfold path_exists. apply bool_decide_eq_true. by rewrite Hsrc. }
  simpl.
  assert (∀ g, g ∈ gs → w_tree w !! target base_dir g src ≠ Some Dir) as Hnd'.
  { intros g (i & Hi)%list_elem_of_lookup.
    destruct (Forall2_lookup_r _ _ _ _ _ Hall Hi) as (c & Hc & Hcg).
    eapply Hnd; [by eapply list_elem_of_lookup_2|done]. }
  assert (src ≠ []) as Hsrc0 by (intros Heq; by rewrite Heq in Hsrc).
  assert (copy_multi base_dir src gs st w = (Ok st', w') → w_log w' = w_log w →
          (∀ g, g ∈ gs → w_tree w' !! child base_dir (pretty g) = Some Dir ∧
                         w_tree w' !! target base_dir g src = Some (File d)) ∧
          moved st' = moved st ∧
          copied st' = copied st + Z.of_nat (length gs) ∧
          w_tree w' !! src = None) as Hmulti.
  { unfold copy_multi.
    intros (st1 & w1 & Hloop & (u & w2 & Hun & [= <- <-])%bind_Ok)%bind_Ok Hlog.
    pose proof (copy_loop_log_prefix _ _ _ _ _ _ _ Hloop) as Hpre1.
    apply unlink_step_inv in Hun as (_ & [(t' & _ & Hun & ->)|(_ & ->)]).
    - simpl in Hlog.
      apply (copy_loop_success _ _ d) in Hloop
        as (Hs & _ & Hmv & _ & Hcp & HD & _ & Htg); [|done..].
      unfold unlink in Hun. rewrite Hs in Hun. injection Hun as <-. simpl.
      split_and!; try done; [|apply lookup_delete_eq].
      intros g Hg. destruct (Htg g Hg) as (Hne & Hdir & Hfile).
      rewrite !lookup_delete_ne; [done|done|].
      intros Heq. rewrite <- Heq in Hdir.
      destruct src; [done|]. simpl in Hs. congruence.
    - simpl in Hlog. apply (f_equal length) in Hlog.
      apply prefix_length in Hpre1. rewrite length_app in Hlog. simpl in Hlog. lia. }
  assert (∀ c g, c ∈ item_cluster item →
            cluster_id_map pl cluster_start !! c = Some g → g ∈ gs) as Hin.
  { intros c g. by apply Forall2_lookup_ids. }
  destruct gs as [|g [|g2 gs]].
  - intros Hrun Hlog. destruct (Hmulti Hrun Hlog) as (_ & Hmv & Hcp & Hgone).
    destruct (item_cluster item) as [|? ?]; [|done].
    split_and!; [by intros c g' ?%elem_of_nil|done|by intros _].
  - intros Hrun Hlog. clear Hmulti.
    apply move_single_inv in Hrun
      as [(_ & ? & _)|(t1 & _ & Hmk & [(t2 & _ & Hmv & [= Hst] & ->)|(_ & _ & ->)])];
      [done| |by apply add_log_ne in Hlog].
    subst st'.
    pose proof Hmk as (Hkeep & _ & Hdir)%mkdir_parents_spec.
    specialize (Hdir (child_not_anchor _ _)).
    assert (t1 !! src = Some (File d)) as Hsrc1.
    { destruct src; [done|]. by apply Hkeep. }
    assert (t1 !! target base_dir g src ≠ Some Dir) as Hnd1.
    { rewrite (mkdir_parents_target _ _ _ _ _ _ Hmk). apply Hnd', list_elem_of_here. }
    assert (node_at t1 src = Some (File d)) as Hsrc2 by (by destruct src).
    destruct (shutil_move_file_spec _ _ _ _ _ Hsrc2 (target_not_anchor _ _ _) Hnd1 Hmv)
      as [[Heq ->]|[Hne ->]]; simpl.
    + split_and!; [|intros _; split_and!; try done|simpl in Hlen; intros ?; lia].
      * intros c g' Hc Hg'. pose proof (Hin _ _ Hc Hg') as ->%list_elem_of_singleton.
        split; [done|]. split; [rewrite <- Heq; exact Hsrc1|].
        intros c' g'' Hc' Hdir'. by eapply cluster_dir_inj.
      * intros c g' Hc Hg'. by pose proof (Hin _ _ Hc Hg') as ->%list_elem_of_singleton.
    + split_and!; [|intros _; split_and!; try done|simpl in Hlen; intros ?; lia].
      * intros c g' Hc Hg'. pose proof (Hin _ _ Hc Hg') as ->%list_elem_of_singleton.
        split; [|split].
        -- rewrite lookup_insert_ne, lookup_delete_ne; [done|congruence|congruence].
        -- apply lookup_insert_eq.
        -- intros c' g'' Hc' Hdir'. by eapply cluster_dir_inj.
      * intros c g' Hc Hg' _.
        rewrite lookup_insert_ne by done. apply lookup_delete_eq.
  - intros Hrun Hlog. destruct (Hmulti Hrun Hlog) as (Htg & Hmv & Hcp & Hgone).
    split_and!; [|simpl in Hlen; intros ?; lia|intros _; by rewrite Hlen].
    intros c g' Hc Hg'. destruct (Htg g' (Hin _ _ Hc Hg')) as [? ?].
    split; [done|]. split; [done|].
    intros c' g'' Hc' Hdir'. by eapply cluster_dir_inj.
Qed.

(** ** The cleanup pass *)

Lemma entries_nil t p :
  entries t p = [] → ∀ q, q ≠ [] → parent q = p → t !! q = None.
Proof.
  intros Hnil q Hq Hpar. destruct (t !! q) as [n|] eqn:Hlook; [|done].
  assert (q ∈ entries t p) as Hin.
  { unfold entries. apply list_elem_of_filter. split; [done|].
    apply elem_of_elements, elem_of_dom. by exists n. }
  rewrite Hnil in Hin. by apply elem_of_nil in Hin.
Qed.

Lemma rmdir_spec t p t' :
  rmdir t p = Some t' →
  t !! p = Some Dir ∧ entries t p = [] ∧ t' = delete p t.
Proof.
  unfold rmdir. destruct p as [|c p]; [done|].
  destruct (t !! (c :: p)) as [[d|]|]; try done.
  destruct (entries t (c :: p)); [|done]. by intros [= <-].
Qed.

(** One round of the cleanup loop never raises and prints nothing; it
    changes the tree only by removing [p], a directory without entries. *)
Lemma cleanup_dir_inv p w :
  ∃ w', cleanup_dir p w = (Ok tt, w') ∧ w_log w' = w_log w ∧
        w_flaky w' = w_flaky w ∧
        (w_tree w' = w_tree w ∨
         (w_tree w !! p = Some Dir ∧
          (∀ q, q ≠ [] → parent q = p → w_tree w !! q = None) ∧
          w_tree w' = delete p (w_tree w))).
Proof.
  unfold cleanup_dir, try_except, bind at 1, fs_exists.
  destruct (path_exists (w_tree w) p); [|exists w; auto].
  unfold bind, fs_iterdir.
  destruct (w_flaky w (OpIterdir p)); [exists w; auto|].
  destruct (path_is_dir (w_tree w) p); [|exists w; auto].
  destruct (entries (w_tree w) p) as [|e es] eqn:Hent; [|exists w; auto].
  unfold fs_rmdir.
  destruct (fs_run (OpRmdir p) _ w) as [r w'] eqn:Hrm.
  apply fs_run_inv in Hrm as [(t' & _ & Hrm & -> & ->)|(_ & -> & ->)].
  - apply rmdir_spec in Hrm as (Hdir & _ & ->).
    exists (set_tree (delete p (w_tree w)) w). simpl. split_and!; try done.
    right. split; [done|]. split; [|done]. by apply entries_nil.
  - exists w. auto.
Qed.

Lemma cleanup_spec dirs w :
  ∃ w', cleanup dirs w = (Ok tt, w') ∧ w_log w' = w_log w ∧
    (∀ q, w_tree w' !! q = w_tree w !! q ∨
          (q ∈ dirs ∧ w_tree w !! q = Some Dir ∧ w_tree w' !! q = None)) ∧
    (∀ q c, w_tree w' !! q ≠ w_tree w !! q → c ≠ [] → parent c = q →
            w_tree w' !! c = None).
Proof.
  unfold cleanup. revert w. induction dirs as [|p dirs IH]; intros w; simpl.
  - exists w. split_and!; try done. by left.
  - destruct (cleanup_dir_inv p w) as (w1 & Hone & Hlog1 & _ & Htree1).
    destruct (IH w1) as (w' & Hrest & Hlog & Hframe & Hempty).
    exists w'. unfold bind. rewrite Hone. split; [done|].
    split; [congruence|].
    assert (∀ q, w_tree w' !! q = w_tree w !! q ∨
                 (q ∈ p :: dirs ∧ w_tree w !! q = Some Dir ∧ w_tree w' !! q = None))
      as Hframe'.
    { intros q. destruct Htree1 as [Heq|(Hdir & _ & Heq)]; rewrite Heq in Hframe.
      - destruct (Hframe q) as [|(? & ? & ?)]; [by left|right].
        split; [by apply list_elem_of_further|done].
      - destruct (decide (q = p)) as [->|Hne].
        + right. split; [apply list_elem_of_here|]. split; [done|].
          destruct (Hframe p) as [->|(_ & _ & ?)]; [apply lookup_delete_eq|done].
        + destruct (Hframe q) as [Hq|(? & Hq & ?)];
            rewrite lookup_delete_ne in Hq by done; [by left|right].
          split; [by apply list_elem_of_further|done]. }
    split; [done|].
    intros q c Hchg Hc Hpar.
    destruct (decide (w_tree w' !! q = w_tree w1 !! q)) as [Hsame|Hdiff];
      [|by eapply Hempty].
    destruct Htree1 as [Heq|(Hdir & Hnone & Heq)]; [congruence|].
    assert (q = p) as ->.
    { destruct (decide (q = p)); [done|]. exfalso. apply Hchg.
      rewrite Hsame, Heq. by apply lookup_delete_ne. }
    destruct (Hframe c) as [->|(_ & _ & ?)]; [|done].
    rewrite Heq. destruct (decide (p = c)) as [->|?].
    + apply lookup_delete_eq.
    + rewrite lookup_delete_ne by done. by apply Hnone.
Qed.

Lemma elem_of_longest_first s p : p ∈ longest_first s ↔ p ∈ s.
Proof.
  unfold longest_first. rewrite merge_sort_Permutation. apply elem_of_elements.
Qed.

Lemma copy_loop_moved base_dir src gs st w st' w' :
  for_each (copy_one base_dir src) gs st w = (Ok st', w') →
  moved st' = moved st ∧ moved_paths st' = moved_paths st.
Proof.
  revert st w. induction gs as [|g gs IH]; intros st w; simpl.
  - by intros [= <- <-].
  - intros (sa & wa & Hone & Hrest)%bind_Ok.
    apply IH in Hrest as [-> ->].
    apply copy_one_inv in Hone
      as [(_ & ? & _)|(t1 & _ & _ & [(t2 & _ & _ & [= ->] & _)|(_ & [= ->] & _)])];
      done.
Qed.

(** [moved] and [moved_paths] change together, and only when the single
    move of the item has succeeded. *)
Lemma distribute_item_moved_paths pl base_dir cluster_start st item w st' w' :
  item ∈ plan_items pl →
  distribute_item base_dir (cluster_id_map pl cluster_start) st item w = (Ok st', w') →
  (moved st' = moved st ∧ moved_paths st' = moved_paths st) ∨
  (length (item_cluster item) = 1%nat ∧
   moved st' = moved st + 1 ∧
   moved_paths st' = moved_paths st ∪ {[ parent (item_path item) ]} ∧
   ∃ g t1, shutil_move t1 (item_path item) (target base_dir g (item_path item))
           = Some (w_tree w')).
Proof.
  intros Hitem. unfold distribute_item.
  destruct (lookup_ids_plan pl cluster_start item w Hitem) as (gs & Hgs & Hall).
  apply Forall2_length in Hall.
  unfold bind at 1. rewrite Hgs. unfold bind at 1, fs_exists.
  destruct (path_exists _ _); simpl; [|intros [= <- <-]; by left].
  assert (copy_multi base_dir (item_path item) gs st w = (Ok st', w') →
          moved st' = moved st ∧ moved_paths st' = moved_paths st) as Hmulti.
  { unfold copy_multi.
    intros (st1 & w1 & Hloop & (u & w2 & _ & [= <- <-])%bind_Ok)%bind_Ok.
    by eapply copy_loop_moved. }
  destruct gs as [|g [|g2 gs]]; [left; auto| |left; auto].
  intros [(_ & ? & _)|(t1 & _ & _ & [(t2 & _ & Hmv & [= ->] & ->)|(_ & [= ->] & _)])]%move_single_inv;
    [done| |by left].
  right. simpl. split_and!; try done. by exists g, t1.
Qed.

(** Every directory in [moved_paths] is the parent of an item with a single
    membership, added when that item was moved. *)
Lemma moved_paths_provenance pl base_dir cluster_start l st w st' w' p :
  (∀ item, item ∈ l → item ∈ plan_items pl) →
  for_each (distribute_item base_dir (cluster_id_map pl cluster_start)) l st w
    = (Ok st', w') →
  p ∈ moved_paths st' →
  p ∈ moved_paths st ∨
  ∃ pre item post st0 w0 st1 w1,
    l = pre ++ item :: post ∧
    for_each (distribute_item base_dir (cluster_id_map pl cluster_start)) pre st w
      = (Ok st0, w0) ∧
    distribute_item base_dir (cluster_id_map pl cluster_start) st0 item w0
      = (Ok st1, w1) ∧
    length (item_cluster item) = 1%nat ∧ p = parent (item_path item) ∧
    moved st1 = moved st0 + 1 ∧
    ∃ g t1, shutil_move t1 (item_path item) (target base_dir g (item_path item))
            = Some (w_tree w1).
Proof.
  revert st w. induction l as [|x l IH]; intros st w Hl; simpl.
  - intros [= <- <-] Hp. by left.
  - intros (sa & wa & Hone & Hrest)%bind_Ok Hp.
    destruct (IH sa wa) as [Hsa|(pre & item & post & st0 & w0 & st1 & w1 & -> & Hpre & Hrun & Hfacts)];
      [by intros ? ?; apply Hl, list_elem_of_further|done|done| |].
    + assert (x ∈ plan_items pl) as Hx by apply Hl, list_elem_of_here.
      destruct (distribute_item_moved_paths _ _ _ _ _ _ _ _ Hx Hone)
        as [[_ Heq]|(Hlen & Hmv & Heq & Hmoved)].
      * left. by rewrite <- Heq.
      * rewrite Heq in Hsa.
        apply elem_of_union in Hsa as [?|Hsa]; [by left|].
        apply elem_of_singleton in Hsa as ->.
        right. exists [], x, l, st, w, sa, wa. by split_and!.
    + right. exists (x :: pre), item, post, st0, w0, st1, w1.
      split; [done|]. split; [|done]. simpl. apply bind_Ok. eauto.
Qed.

(** One round of the logged loop: the tree and the platform end as after the
    plain round, and the log has grown by calls on [p], the first of them
    [p.exists()]. *)
Lemma cleanup_dir_logged_spec p w wl :
  w_tree wl = w_tree w → w_flaky wl = w_flaky w →
  ∃ w' wl' calls,
    cleanup_dir p w = (Ok tt, w') ∧ cleanup_dir_logged p wl = (Ok tt, wl') ∧
    w_tree wl' = w_tree w' ∧ w_flaky wl' = w_flaky w' ∧
    w_log wl' = w_log wl ++ CallExists p :: calls ∧
    ∀ ev, ev ∈ calls → is_call_on p ev.
Proof.
  intros Htree Hflaky.
  assert (∀ ev, ev ∈ [CallIterdir p] → is_call_on p ev) as Hone.
  { intros ev ->%list_elem_of_singleton. right. by left. }
  assert (∀ ev, ev ∈ [CallIterdir p; CallRmdir p] → is_call_on p ev) as Htwo.
  { intros ev [->|[->|?%elem_of_nil]%elem_of_cons]%elem_of_cons; [|right|done].
    - right. by left.
    - by right. }
  unfold cleanup_dir, cleanup_dir_logged, try_except.
  unfold bind at 1. unfold fs_exists.
  unfold bind at 2. unfold print at 1. unfold bind at 2.
  set (wl1 := add_log (CallExists p) wl).
  assert (w_tree wl1 = w_tree w) as Htree1 by done.
  assert (w_flaky wl1 = w_flaky w) as Hflaky1 by done.
  assert (w_log wl1 = w_log wl ++ [CallExists p]) as Hlog1 by done.
  clearbody wl1. rewrite Htree1.
  destruct (path_exists (w_tree w) p).
  2: { exists w, wl1, []. split_and!; try done. by intros ev ?%elem_of_nil. }
  unfold bind at 2. unfold print at 1. unfold bind at 1. unfold bind at 1.
  unfold fs_iterdir.
  set (wl2 := add_log (CallIterdir p) wl1).
  assert (w_tree wl2 = w_tree w) as Htree2 by done.
  assert (w_flaky wl2 = w_flaky w) as Hflaky2 by done.
  assert (w_log wl2 = w_log wl ++ CallExists p :: [CallIterdir p]) as Hlog2.
  { simpl. rewrite Hlog1. by rewrite <- (assoc_L (++)). }
  clearbody wl2. rewrite Htree2, Hflaky2.
  destruct (w_flaky w (OpIterdir p)).
  { exists w, wl2, [CallIterdir p]. split_and!; done. }
  destruct (path_is_dir (w_tree w) p).
  2: { exists w, wl2, [CallIterdir p]. split_and!; done. }
  destruct (entries (w_tree w) p) as [|e es] eqn:Hent.
  2: { exists w, wl2, [CallIterdir p]. split_and!; done. }
  unfold bind, print, fs_rmdir, fs_run.
  set (wl3 := add_log (CallRmdir p) wl2).
  assert (w_tree wl3 = w_tree w) as Htree3 by done.
  assert (w_flaky wl3 = w_flaky w) as Hflaky3 by done.
  assert (w_log wl3 = w_log wl ++ CallExists p :: [CallIterdir p; CallRmdir p]) as Hlog3.
  { simpl. rewrite Hlog2. by rewrite <- (assoc_L (++)). }
  clearbody wl3. rewrite Htree3, Hflaky3.
  destruct (w_flaky w (OpRmdir p)).
  { exists w, wl3, [CallIterdir p; CallRmdir p]. split_and!; done. }
  destruct (rmdir (w_tree w) p) as [t'|].
  - exists (set_tree t' w), (set_tree t' wl3), [CallIterdir p; CallRmdir p].
    split_and!; done.
  - exists w, wl3, [CallIterdir p; CallRmdir p]. split_and!; done.
Qed.

(** The logged pass: the tree and the platform end as after the plain pass;
    the log has grown by calls on the directories of [dirs], and every one of
    them has been asked whether it exists. *)
Lemma cleanup_logged_spec dirs w wl :
  w_tree wl = w_tree w → w_flaky wl = w_flaky w →
  ∃ w' wl' calls,
    cleanup dirs w = (Ok tt, w') ∧ cleanup_logged dirs wl = (Ok tt, wl') ∧
    w_tree wl' = w_tree w' ∧ w_flaky wl' = w_flaky w' ∧
    w_log wl' = w_log wl ++ calls ∧
    (∀ ev, ev ∈ calls → ∃ p, p ∈ dirs ∧ is_call_on p ev) ∧
    (∀ p, p ∈ dirs → CallExists p ∈ calls).
Proof.
  unfold cleanup, cleanup_logged. revert w wl.
  induction dirs as [|p dirs IH]; intros w wl Htree Hflaky; simpl.
  - exists w, wl, []. split_and!; try done.
    + by rewrite app_nil_r.
    + by intros ev ?%elem_of_nil.
    + by intros p ?%elem_of_nil.
  - destruct (cleanup_dir_logged_spec p w wl Htree Hflaky)
      as (w1 & wl1 & calls1 & Hone & Hlogged & Htree1 & Hflaky1 & Hlog1 & Hcalls1).
    destruct (IH w1 wl1 Htree1 Hflaky1)
      as (w' & wl' & calls & Hrest & Hrestl & Htree' & Hflaky' & Hlog' & Hcalls & Hall).
    exists w', wl', (CallExists p :: calls1 ++ calls).
    unfold bind. rewrite Hone, Hlogged. split_and!; try done.
    + rewrite Hlog', Hlog1. by rewrite <- (assoc_L (++)).
    + intros ev [->|[Hev|Hev]%elem_of_app]%elem_of_cons.
      * exists p. split; [apply list_elem_of_here|by left].
      * exists p. split; [apply list_elem_of_here|by apply Hcalls1].
      * destruct (Hcalls ev Hev) as (q & Hq & Hon). exists q.
        split; [by apply list_elem_of_further|done].
    + intros q [->|Hq]%elem_of_cons; [apply list_elem_of_here|].
      apply list_elem_of_further, elem_of_app. right. by apply Hall.
Qed.

Lemma is_call_on_inj p q ev : is_call_on p ev → is_call_on q ev → p = q.
Proof. intros [-> | [-> | ->]] [Hq | [Hq | Hq]]; congruence. Qed.

(** C8 (amended): after the items have been processed, the cleanup pass
    returns without raising or printing.  Every directory in [moved_paths]
    is the parent of an item with one membership whose move succeeded.  The
    pass changes the tree only by removing directories in [moved_paths], and
    a directory goes only when every entry it had was itself removed by the
    pass, so a directory of [moved_paths] that lies above another one goes
    too once the pass has emptied it: any other directory, and any directory
    that keeps an entry, stays as it was.  The calls of the pass ([exists],
    [iterdir], [rmdir]) are made on the directories of [moved_paths], on each
    of them and on no other directory: an ancestor that is not itself in
    [moved_paths] is never inspected. *)
Theorem cleanup_removes_only_emptied_parents pl base_dir cluster_start w st w1 :
  distribute_items pl base_dir cluster_start w = (Ok st, w1) →
  (∀ p, p ∈ moved_paths st →
     ∃ pre item post st0 w0 st1 w1',
       plan_items pl = pre ++ item :: post ∧
       for_each (distribute_item base_dir (cluster_id_map pl cluster_start)) pre
         {| moved := 0; copied := 0; moved_paths := ∅ |} w = (Ok st0, w0) ∧
       distribute_item base_dir (cluster_id_map pl cluster_start) st0 item w0
         = (Ok st1, w1') ∧
       length (item_cluster item) = 1%nat ∧ p = parent (item_path item) ∧
       moved st1 = moved st0 + 1 ∧
       ∃ g t1, shutil_move t1 (item_path item) (target base_dir g (item_path item))
               = Some (w_tree w1')) ∧
  ∃ w2,
    cleanup (longest_first (moved_paths st)) w1 = (Ok tt, w2) ∧
    distribute_to_folders pl base_dir cluster_start w =
      (Ok (moved st, copied st,
           cluster_start + Z.of_nat (length (used_clusters pl))), w2) ∧
    w_log w2 = w_log w1 ∧
    (∀ q, w_tree w2 !! q = w_tree w1 !! q ∨
          (q ∈ moved_paths st ∧ w_tree w1 !! q = Some Dir ∧ w_tree w2 !! q = None)) ∧
    (∀ q c, w_tree w2 !! q ≠ w_tree w1 !! q → c ≠ [] → parent c = q →
            w_tree w1 !! c = None ∨
            (c ∈ moved_paths st ∧ w_tree w1 !! c = Some Dir ∧ w_tree w2 !! c = None)) ∧
    ∃ wl calls,
      cleanup_logged (longest_first (moved_paths st)) w1 = (Ok tt, wl) ∧
      w_tree wl = w_tree w2 ∧
      w_log wl = w_log w1 ++ calls ∧
      (∀ ev, ev ∈ calls → ∃ p, p ∈ moved_paths st ∧ is_call_on p ev) ∧
      (∀ p, p ∈ moved_paths st → CallExists p ∈ calls) ∧
      (∀ q ev, q ∉ moved_paths st → ev ∈ calls → ¬ is_call_on q ev).
Proof.
  intros Hitems. split.
  - intros p Hp. unfold distribute_items in Hitems.
    eapply moved_paths_provenance in Hp as [Hp|Hp]; [|done|done|done].
    simpl in Hp. by apply elem_of_empty in Hp.
  - destruct (cleanup_spec (longest_first (moved_paths st)) w1)
      as (w2 & Hclean & Hlog & Hframe & Hempty).
    exists w2. split; [done|]. split.
    { unfold distribute_to_folders, bind. by rewrite Hitems, Hclean. }
    split; [done|].
    assert (∀ q, w_tree w2 !! q = w_tree w1 !! q ∨
              (q ∈ moved_paths st ∧ w_tree w1 !! q = Some Dir ∧ w_tree w2 !! q = None))
      as Hframe'.
    { intros q. destruct (Hframe q) as [|(Hq%elem_of_longest_first & ? & ?)]; auto. }
    split; [done|]. split.
    { intros q c Hchg Hc Hpar.
      pose proof (Hempty q c Hchg Hc Hpar) as Hgone.
      destruct (Hframe' c) as [Heq|?]; [left; congruence|by right]. }
    destruct (cleanup_logged_spec (longest_first (moved_paths st)) w1 w1 eq_refl eq_refl)
      as (w2' & wl & calls & Hclean' & Hlogged & Htree & _ & Hcalls & Hon & Hall).
    rewrite Hclean in Hclean'. injection Hclean' as <-.
    assert (∀ ev, ev ∈ calls → ∃ p, p ∈ moved_paths st ∧ is_call_on p ev) as Hon'.
    { intros ev (p & Hp%elem_of_longest_first & Hev)%Hon. by exists p. }
    exists wl, calls. split_and!; [done|done|done|done| |].
    + intros p Hp. by apply Hall, elem_of_longest_first.
    + intros q ev Hq (p & Hp & Hev)%Hon' Hqev.
      apply Hq. by rewrite (is_call_on_inj q p ev).
Qed.

(** ** build_plan_live: the scan *)

Lemma wp_invoke {A} ev (o : outcome A) (Q : A → world → Prop)
    (E : exn → world → Prop) w :
  (∀ a, o = Ok a → Q a (add_log ev w)) →
  (∀ e, o = Raise e → E e (add_log ev w)) →
  wp (invoke ev o) Q E w.
Proof.
  intros HQ HE. unfold wp, invoke, bind, print, lift.
  destruct o as [a|e]; auto.
Qed.

Lemma elem_of_snoc {A} (l : list A) x y : y ∈ l ++ [x] ↔ y ∈ l ∨ y = x.
Proof. by rewrite elem_of_app, list_elem_of_singleton. Qed.

(** The faces of one image: what the inner loop adds to the lists. *)
Lemma foldl_take_face B min_score p faces (acc : scan_state B * Z) :
  let acc' := foldl (take_face B min_score p) acc faces in
  unreadable acc'.1 = unreadable acc.1 ∧
  no_faces acc'.1 = no_faces acc.1 ∧
  img_face_count acc'.1 = img_face_count acc.1 ∧
  (length (embeddings acc.1) = length (owners acc.1) →
   length (embeddings acc'.1) = length (owners acc'.1)) ∧
  (∀ q, q ∈ owners acc'.1 →
        q ∈ owners acc.1 ∨
        (q = p ∧ ∃ f, f ∈ faces ∧ below_min_score min_score f = false)) ∧
  (∀ q, q ∈ owners acc.1 → q ∈ owners acc'.1) ∧
  (acc.2 < acc'.2 → p ∈ owners acc'.1) ∧
  ((∀ f, f ∈ faces → below_min_score min_score f = true) → acc' = acc).
Proof.
  revert acc. induction faces as [|f faces IH]; intros acc; simpl.
  - split_and!; auto. lia.
  - destruct (IH (take_face B min_score p acc f))
      as (Hu & Hn & Hc & Hl & Ho & Hm & Hp & Hb).
    assert (∀ q f', q = p ∧ (∃ f0, f0 ∈ faces ∧ below_min_score min_score f0 = f') →
              q = p ∧ ∃ f0, f0 ∈ f :: faces ∧ below_min_score min_score f0 = f')
      as Hweak.
    { intros q f' (-> & f0 & ? & ?). split; [done|]. exists f0.
      split; [by apply list_elem_of_further|done]. }
    unfold take_face in *.
    destruct (below_min_score min_score f) eqn:Hbelow.
    + split_and!; try done.
      * intros q Hq. destruct (Ho q Hq); auto.
      * intros Hall. apply Hb. intros f' Hf'. by apply Hall, list_elem_of_further.
    + destruct (normed_embedding f) as [emb|]; simpl in *.
      * split_and!; try done.
        -- intros Hlen. apply Hl. rewrite !length_app. simpl. lia.
        -- intros q Hq. destruct (Ho q Hq) as [[?| ->]%elem_of_snoc|?]; auto.
           right. split; [done|]. exists f. split; [apply list_elem_of_here|done].
        -- intros q Hq. apply Hm, elem_of_snoc. by left.
        -- intros _. apply Hm, elem_of_snoc. by right.
        -- intros Hall. rewrite Hall in Hbelow; [done|apply list_elem_of_here].
      * split_and!; try done.
        -- intros q Hq. destruct (Ho q Hq); auto.
        -- intros Hall. rewrite Hall in Hbelow; [done|apply list_elem_of_here].
Qed.

Lemma scan_calls_only_refl w : scan_calls_only w w.
Proof. split_and!; auto. Qed.

Lemma scan_calls_only_log w0 w ev :
  scan_calls_only w0 w → (ev = CallFaceAnalysis ∨ ∃ p, ev = CallGet p) →
  scan_calls_only w0 (add_log ev w).
Proof.
  intros (Ht & Hf & Hl) Hev. split_and!; [done..|]. simpl.
  intros ev' [?| ->]%elem_of_snoc; auto.
Qed.

Lemma scan_image_inv B min_score w0 st p w :
  scan_inv B min_score w0 st w →
  wp (scan_image B min_score st p) (scan_inv B min_score w0)
     (λ _ w', scan_calls_only w0 w') w.
Proof.
  intros (Hcalls & Hlen & Hown & Hnf & Hcnt). unfold scan_image.
  apply wp_bind. unfold wp at 1, get_tree.
  pose proof Hcalls as (Htree & _ & _). rewrite Htree.
  destruct (imread_safe B (w_tree w0) p) as [img|] eqn:Hread.
  - assert (scan_calls_only w0 (add_log (CallGet p) w)) as Hcalls'.
    { apply scan_calls_only_log; eauto. }
    apply wp_bind, wp_invoke; [|done].
    intros faces Hget. destruct faces as [|f faces].
    + apply wp_ret. split_and!; try done. simpl.
      intros q [?| ->]%elem_of_snoc; eauto.
    + set (fs := f :: faces) in *.
      destruct (foldl_take_face B min_score p fs (st, 0))
        as (Hu & Hn & Hc & Hl & Ho & Hm & Hp & _).
      set (acc := foldl _ _ fs) in *. simpl in *.
      assert (∀ q, q ∈ owners acc.1 →
                ∃ img faces f, imread_safe B (w_tree w0) q = Some img ∧
                  app_get B img = Ok faces ∧ f ∈ faces ∧
                  below_min_score min_score f = false) as Hown'.
      { intros q Hq. destruct (Ho q Hq) as [?|(-> & f' & ? & ?)]; [by apply Hown|].
        by exists img, fs, f'. }
      case_bool_decide as Hpos; apply wp_ret.
      * split_and!; simpl; try done; [by apply Hl| |].
        -- intros q. rewrite Hn. apply Hnf.
        -- intros q Hq. rewrite Hc in Hq.
           destruct (decide (p = q)) as [<-|Hne]; [by apply Hp|].
           rewrite lookup_insert_ne in Hq by done. by apply Hm, Hcnt.
      * split_and!; try done; [by apply Hl| |].
        -- intros q. rewrite Hn. apply Hnf.
        -- intros q Hq. rewrite Hc in Hq. by apply Hm, Hcnt.
  - apply wp_ret. by split_and!.
Qed.

Lemma scan_images_inv B min_score imgs w :
  wp (scan_images B min_score imgs) (scan_inv B min_score w)
     (λ _ w', scan_calls_only w w') w.
Proof.
  unfold scan_images. apply wp_for_each.
  - intros st p w' _ HI. by apply scan_image_inv.
  - split; [apply scan_calls_only_refl|]. split_and!; try done.
    + by intros q ?%elem_of_nil.
    + by intros q ?%elem_of_nil.
    + intros q [? Hq]. simpl in Hq. by rewrite lookup_empty in Hq.
Qed.

(** ** build_plan_live: the plan *)

Lemma setdefault_add_lookup {K X} `{Countable K, Countable X}
    (k k' : K) (x : X) (d : gmap K (gset X)) s :
  setdefault_add k x d !! k' = Some s →
  (k' = k ∧ s = default ∅ (d !! k) ∪ {[ x ]}) ∨ (k' ≠ k ∧ d !! k' = Some s).
Proof.
  unfold setdefault_add. destruct (decide (k = k')) as [->|Hne].
  - rewrite lookup_insert_eq. intros [= <-]. by left.
  - rewrite lookup_insert_ne by done. intros ?. by right.
Qed.

(** Every path that the grouping loop files under a cluster or gives a
    cluster owns a face. *)
Lemma group_loop_inv lm (pairs : list (Z * path)) (E : exn → world → Prop) w :
  (∀ e, E e w) →
  wp (for_each (group_one lm) pairs {| cluster_map := ∅; cluster_by_img := ∅ |})
    (λ g w', w' = w ∧
       (∀ q s, cluster_by_img g !! q = Some s → s ≠ ∅ → q ∈ pairs.*2) ∧
       (∀ c s q, cluster_map g !! c = Some s → q ∈ s → q ∈ pairs.*2))
    E w.
Proof.
  intros HE.
  apply (wp_for_each _ _ (λ g w', w' = w ∧
       (∀ q s, cluster_by_img g !! q = Some s → s ≠ ∅ → q ∈ pairs.*2) ∧
       (∀ c s q, cluster_map g !! c = Some s → q ∈ s → q ∈ pairs.*2))).
  - intros g [lbl q0] w' Hin (-> & Hcbi & Hcm). unfold group_one. simpl.
    assert (q0 ∈ pairs.*2) as Hq0.
    { apply list_elem_of_fmap. by exists (lbl, q0). }
    destruct (decide (lbl = NOISE)); [by apply wp_ret|].
    destruct (lm !! lbl) as [new_lbl|]; [|by apply wp_raise].
    apply wp_ret. split; [done|]. simpl. split.
    + intros q s [[-> _]|[_ Hq]]%setdefault_add_lookup Hne; [done|by eapply Hcbi].
    + intros c s q [[-> ->]|[_ Hc]]%setdefault_add_lookup Hq; [|by eapply Hcm].
      apply elem_of_union in Hq as [Hq|Hq].
      * destruct (cluster_map g !! new_lbl) as [s'|] eqn:Hs'; simpl in Hq.
        -- by eapply Hcm.
        -- by apply elem_of_empty in Hq.
      * by apply elem_of_singleton in Hq as ->.
  - split; [done|]. split.
    + intros q s Hq. simpl in Hq. by rewrite lookup_empty in Hq.
    + intros c s q Hc. simpl in Hc. by rewrite lookup_empty in Hc.
Qed.

Lemma elem_of_sorted_by_str s q : q ∈ sorted_by_str s ↔ q ∈ s.
Proof.
  unfold sorted_by_str. rewrite merge_sort_Permutation. apply elem_of_elements.
Qed.

(** The analysis never touches the tree; the images of the plan own an
    accepted face, and [no_faces] holds images without detections. *)
Lemma build_plan_live_spec B input_dir min_score min_cluster_size min_samples w :
  wp (build_plan_live B input_dir min_score min_cluster_size min_samples)
    (λ pl w', w_tree w' = w_tree w ∧ w_flaky w' = w_flaky w ∧
       (∀ q, q ∈ plan_no_faces pl → has_no_detection B (w_tree w) q) ∧
       (∀ item, item ∈ plan_items pl →
                item_cluster item ≠ [] ∧
                has_accepted_face B min_score (w_tree w) (item_path item)) ∧
       (∀ c ps q, plan_clusters pl !! c = Some ps → q ∈ ps →
                  has_accepted_face B min_score (w_tree w) q))
    (λ _ w', w_tree w' = w_tree w ∧ w_flaky w' = w_flaky w) w.
Proof.
  unfold build_plan_live. apply wp_bind. unfold wp at 1, get_tree.
  apply wp_bind, wp_invoke; [|done]. intros [] _.
  set (w1 := add_log CallFaceAnalysis w).
  apply wp_bind.
  eapply wp_mono; [| |apply (scan_images_inv B min_score _ w1)].
  2: { intros e w' (? & ? & _). done. }
  intros st w2 ((Htree & Hflaky & _) & Hlen & Hown & Hnf & _). simpl in Htree, Hflaky.
  destruct (embeddings st) as [|e0 es] eqn:Hemb.
  { apply wp_ret. split_and!; [done|done| | |].
    - intros q Hq. by apply Hnf.
    - by intros item ?%elem_of_nil.
    - intros c ps q Hc. simpl in Hc. by rewrite lookup_empty in Hc. }
  apply wp_bind, wp_invoke; [|done]. intros dm _.
  apply wp_bind, wp_invoke; [|done]. intros raw_labels _.
  apply wp_bind.
  eapply wp_mono; [| |apply (group_loop_inv _ _
        (λ _ w', w_tree w' = w_tree w ∧ w_flaky w' = w_flaky w))]; [|done|done].
  intros g w3 (-> & Hcbi & Hcm). apply wp_ret. simpl.
  assert (∀ q, q ∈ (zip raw_labels (owners st)).*2 →
               has_accepted_face B min_score (w_tree w) q) as Hacc.
  { intros q ([lbl q'] & -> & Hq)%list_elem_of_fmap.
    apply Hown. simpl. by eapply elem_of_zip_r. }
  split_and!; [done|done| | |].
  - intros q Hq. by apply Hnf.
  - intros item (q & Hq & Hentry)%list_elem_of_omap.
    unfold plan_entry in Hentry.
    destruct (cluster_by_img g !! q) as [cs|] eqn:Hcs; [|done].
    destruct (decide (cs = ∅)) as [|Hne]; [done|].
    injection Hentry as <-. simpl. split.
    + intros Hnil. apply Hne. apply set_eq. intros c.
      rewrite <- elem_of_sorted_set, Hnil. set_solver.
    + apply Hacc. by eapply Hcbi.
  - intros c ps q Hc Hq. rewrite lookup_fmap in Hc.
    destruct (cluster_map g !! c) as [s|] eqn:Hs; [|done].
    injection Hc as <-. apply elem_of_sorted_by_str in Hq.
    apply Hacc. by eapply Hcm.
Qed.

(** C7: when the scan has collected no embedding, [build_plan_live] returns
    the plan with no cluster and no item and with the [unreadable] and
    [no_faces] lists of the scan; the tree is as before and the only calls
    recorded are the model set-up and the detections: neither the distance
    matrix nor HDBSCAN is called. *)
Theorem build_plan_live_no_embeddings B input_dir min_score min_cluster_size
    min_samples w st w1 :
  face_analysis B = Ok tt →
  scan_images B min_score (all_images B (w_tree w) input_dir)
    (add_log CallFaceAnalysis w) = (Ok st, w1) →
  embeddings st = [] →
  build_plan_live B input_dir min_score min_cluster_size min_samples w =
    (Ok {| plan_clusters := ∅; plan_items := [];
           plan_unreadable := unreadable st; plan_no_faces := no_faces st |}, w1) ∧
  w_tree w1 = w_tree w ∧
  (∀ ev, ev ∈ w_log w1 →
         ev ∈ w_log w ∨ ev = CallFaceAnalysis ∨ ∃ p, ev = CallGet p) ∧
  (∀ n, CallCosineDistances n ∈ w_log w1 → CallCosineDistances n ∈ w_log w) ∧
  (∀ n, CallHdbscan n ∈ w_log w1 → CallHdbscan n ∈ w_log w).
Proof.
  intros Hinit Hscan Hemb.
  assert (∀ ev, ev ∈ w_log w1 →
            ev ∈ w_log w ∨ ev = CallFaceAnalysis ∨ ∃ p, ev = CallGet p) as Hlog.
  { pose proof (scan_images_inv B min_score (all_images B (w_tree w) input_dir)
                  (add_log CallFaceAnalysis w)) as Hwp.
    unfold wp in Hwp. rewrite Hscan in Hwp.
    destruct Hwp as ((_ & _ & Hlog) & _).
    intros ev Hev. destruct (Hlog ev Hev) as [[?| ->]%elem_of_snoc|?]; auto. }
  split_and!.
  - unfold build_plan_live, bind at 1, get_tree, bind at 1, invoke, bind at 1.
    unfold print, lift. rewrite Hinit. unfold bind. rewrite Hscan.
    by rewrite Hemb.
  - pose proof (scan_images_inv B min_score (all_images B (w_tree w) input_dir)
                  (add_log CallFaceAnalysis w)) as Hwp.
    unfold wp in Hwp. rewrite Hscan in Hwp. by destruct Hwp as ((? & _) & _).
  - done.
  - intros n Hn. destruct (Hlog _ Hn) as [?|[?|[? ?]]]; done.
  - intros n Hn. destruct (Hlog _ Hn) as [?|[?|[? ?]]]; done.
Qed.

(** C6: an image that is read, has detections, and has every detection
    below [min_score] is not in [no_faces], not in the items, not a member
    of any cluster, and the scan records no embedding and no face count for
    it; every image in [no_faces] is one whose detection returned the empty
    list. *)
Theorem build_plan_live_below_min_score B input_dir min_score min_cluster_size
    min_samples w pl w' p img faces :
  build_plan_live B input_dir min_score min_cluster_size min_samples w = (Ok pl, w') →
  imread_safe B (w_tree w) p = Some img →
  app_get B img = Ok faces →
  faces ≠ [] →
  (∀ f, f ∈ faces → below_min_score min_score f = true) →
  (p ∉ plan_no_faces pl) ∧
  (p ∉ item_path <$> plan_items pl) ∧
  (∀ c ps, plan_clusters pl !! c = Some ps → p ∉ ps) ∧
  (∀ st w1, scan_images B min_score (all_images B (w_tree w) input_dir)
              (add_log CallFaceAnalysis w) = (Ok st, w1) →
            (p ∉ owners st) ∧ img_face_count st !! p = None) ∧
  (∀ q, q ∈ plan_no_faces pl → has_no_detection B (w_tree w) q).
Proof.
  intros Hrun Hread Hget Hfaces Hbelow.
  assert (¬ has_accepted_face B min_score (w_tree w) p) as Hnot.
  { intros (img' & faces' & f & Hread' & Hget' & Hf & Hok).
    rewrite Hread in Hread'. injection Hread' as <-.
    rewrite Hget in Hget'. injection Hget' as <-.
    rewrite Hbelow in Hok; done. }
  pose proof (build_plan_live_spec B input_dir min_score min_cluster_size
                min_samples w) as Hwp.
  unfold wp in Hwp. rewrite Hrun in Hwp.
  destruct Hwp as (_ & _ & Hnf & Hitems & Hclusters).
  split_and!.
  - intros (img' & Hread' & Hget')%Hnf.
    rewrite Hread in Hread'. injection Hread' as <-.
    rewrite Hget in Hget'. by injection Hget' as ->.
  - intros (item & -> & Hitem)%list_elem_of_fmap.
    by apply Hitems in Hitem as [_ ?].
  - intros c ps Hc Hp. apply Hnot. by eapply Hclusters.
  - intros st w1 Hscan.
    pose proof (scan_images_inv B min_score (all_images B (w_tree w) input_dir)
                  (add_log CallFaceAnalysis w)) as Hwp.
    unfold wp in Hwp. rewrite Hscan in Hwp.
    destruct Hwp as (_ & _ & Hown & _ & Hcnt).
    assert (p ∉ owners st) as Hp by (intros ?%Hown; by apply Hnot).
    split; [done|].
    destruct (img_face_count st !! p) eqn:Hc; [|done].
    exfalso. apply Hp, Hcnt. by rewrite Hc.
  - done.
Qed.

(** ** process_group_folder *)

Lemma for_each_app {A S} (body : S → A → M S) l1 l2 st w :
  for_each body (l1 ++ l2) st w = bind (for_each body l1 st) (for_each body l2) w.
Proof.
  revert st w. induction l1 as [|x l1 IH]; intros st w; simpl; [reflexivity|].
  unfold bind. destruct (body st x w) as [[st'|e] w']; [|reflexivity].
  rewrite IH. reflexivity.
Qed.

(** C5 (amended): [process_group_folder] has no handler around the analysis.
    When the analysis of a subfolder raises, the same exception ends the
    whole run in the world the analysis left: the tree is as it was before
    that subfolder, no cursor is returned, and the subfolders after it are
    not processed. *)
Theorem process_group_folder_stops_at_failure B group_dir w subfolders
    pre s post c1 w1 e w2 :
  fs_iterdir group_dir w = (Ok subfolders, w) →
  merge_sort name_le subfolders = pre ++ s :: post →
  process_subfolders B pre 1 w = (Ok c1, w1) →
  path_is_dir (w_tree w1) s = true →
  has_shared_marker B (name s) = false →
  build_plan_live B s 0.5%float 2 1 w1 = (Raise e, w2) →
  process_group_folder B group_dir w = (Raise e, w2) ∧
  process_subfolders B (s :: post) c1 w1 = (Raise e, w2) ∧
  w_tree w2 = w_tree w1.
Proof.
  intros Hiter Hsorted Hpre Hdir Hshared Hfail.
  assert (process_subfolders B (s :: post) c1 w1 = (Raise e, w2)) as Hstop.
  { unfold process_subfolders. simpl. unfold bind at 1.
    unfold process_subfolder, bind at 1, fs_is_dir. rewrite Hdir. simpl.
    rewrite Hshared. unfold bind at 1. by rewrite Hfail. }
  split_and!; [|done|].
  - unfold process_group_folder, bind at 1. rewrite Hiter, Hsorted.
    unfold process_subfolders in *. rewrite for_each_app.
    unfold bind at 1. by rewrite Hpre.
  - pose proof (build_plan_live_spec B s 0.5%float 2 1 w1) as Hwp.
    unfold wp in Hwp. rewrite Hfail in Hwp. by destruct Hwp.
Qed.

(** ** When distribute_to_folders returns *)



(** What a move leaves above its destination is what was there. *)
Lemma rebase_lookup src dst t q n :
  rebase src dst t !! q = Some n →
  ∃ k, t !! k = Some n ∧ q = rebase_key src dst k.
Proof.
  unfold rebase. intros Hq%elem_of_list_to_map_2.
  apply list_elem_of_fmap in Hq as ([k n'] & [= -> ->] & Hk).
  exists k. split; [by apply elem_of_map_to_list|done].
Qed.











(** * Concrete runs *)

Lemma elem_of_three_plan (P : plan_item → Prop) :
  Forall P (plan_items three_plan) → ∀ item, item ∈ plan_items three_plan → P item.
Proof. intros HP item Hitem. by eapply Forall_forall in HP. Qed.


Example label_map_example :
  let m := label_map [40; -1; 20; 20; 90; -1] in
  (m !! 20, m !! 40, m !! 90, m !! (-1)) = (Some 1, Some 2, Some 3, None).
Proof. vm_compute. reflexivity. Qed.

Lemma distribute_to_folders_already_distributed_witness :
  distribute_to_folders three_plan ["in"] 1 (quiet sorted_album) =
    (Ok (0, 0, 1 + Z.of_nat (length (used_clusters three_plan))), quiet sorted_album).
Proof.
  apply distribute_to_folders_already_distributed.
  apply elem_of_three_plan. repeat constructor.
Defined.

(** An image of two people in [three_plan]: copied into the directories of
    both clusters, then removed. *)
Lemma distribute_item_effect_witness :
  let item := {| item_path := ["in"; "ab.jpg"]; item_cluster := [2; 7];
                 item_faces := 2 |} in
  let run := distribute_item ["in"] (cluster_id_map three_plan 1)
               {| moved := 0; copied := 0; moved_paths := ∅ |} item (quiet album) in
  (∃ st', run.1 = Ok st' ∧ copied st' = 2 ∧ moved st' = 0) ∧
  w_tree run.2 !! ["in"; "1"; "ab.jpg"] = Some (File "both") ∧
  w_tree run.2 !! ["in"; "3"; "ab.jpg"] = Some (File "both") ∧
  w_tree run.2 !! ["in"; "ab.jpg"] = None.
Proof.
  intros item run.
  assert (∃ st', run = (Ok st', run.2)) as [st' Hrun].
  { exists {| moved := 0; copied := 2; moved_paths := ∅ |}.
    vm_compute. reflexivity. }
  assert (item ∈ plan_items three_plan) as Hitem.
  { apply list_elem_of_further, list_elem_of_here. }
  assert (node_at (w_tree (quiet album)) (item_path item) = Some (File "both"))
    as Hsrc by (vm_compute; reflexivity).
  assert (∀ c g, c ∈ item_cluster item →
            cluster_id_map three_plan 1 !! c = Some g →
            w_tree (quiet album) !! target ["in"] g (item_path item) ≠ Some Dir)
    as Hfree.
  { intros c g Hc Hg. simpl in Hc.
    apply elem_of_cons in Hc as [->|Hc];
      [|apply list_elem_of_singleton in Hc as ->];
      vm_compute in Hg; injection Hg as <-; vm_compute; discriminate. }
  assert (w_log run.2 = w_log (quiet album)) as Hlog by (vm_compute; reflexivity).
  destruct (distribute_item_effect three_plan ["in"] 1 _ item "both"
              (quiet album) st' run.2 Hitem Hsrc Hfree Hrun Hlog)
    as (Htargets & _ & Hmulti).
  destruct Hmulti as (Hmv & Hcp & Hgone); [simpl; lia|].
  split_and!.
  - exists st'. split; [exact (f_equal fst Hrun)|]. split; [exact Hcp|exact Hmv].
  - apply (Htargets 2 1); [apply list_elem_of_here|vm_compute; reflexivity].
  - apply (Htargets 7 3);
      [apply list_elem_of_further, list_elem_of_here|vm_compute; reflexivity].
  - exact Hgone.
Defined.

(** The same image where every copy fails: it is removed all the same. *)
Lemma distribute_item_deletes_uncopied_witness :
  let item := {| item_path := ["in"; "ab.jpg"]; item_cluster := [2; 7];
                 item_faces := 2 |} in
  let run := distribute_item ["in"] (cluster_id_map three_plan 1)
               {| moved := 0; copied := 0; moved_paths := ∅ |} item (no_copy album) in
  (∃ st', run.1 = Ok st' ∧ copied st' = 0) ∧
  w_tree run.2 !! ["in"; "ab.jpg"] = None ∧
  w_tree run.2 !! ["in"; "1"; "ab.jpg"] = None ∧
  w_tree run.2 !! ["in"; "3"; "ab.jpg"] = None.
Proof.
  intros item run.
  assert (∃ st', run = (Ok st', run.2)) as [st' Hrun].
  { exists {| moved := 0; copied := 0; moved_paths := ∅ |}.
    vm_compute. reflexivity. }
  assert (item ∈ plan_items three_plan) as Hitem.
  { apply list_elem_of_further, list_elem_of_here. }
  assert (node_at (w_tree (no_copy album)) (item_path item) = Some (File "both"))
    as Hsrc by (vm_compute; reflexivity).
  destruct (distribute_item_deletes_uncopied three_plan ["in"] 1
              {| moved := 0; copied := 0; moved_paths := ∅ |} item "both"
              (no_copy album) st' run.2 Hitem)
    as (Hgone & _ & _ & Hnone); [simpl; lia|exact Hsrc|reflexivity|exact Hrun|].
  destruct Hnone as [Hcp Hfiles]; [reflexivity|].
  split_and!.
  - exists st'. split; [exact (f_equal fst Hrun)|exact Hcp].
  - exact Hgone.
  - vm_compute. reflexivity.
  - vm_compute. reflexivity.
Defined.

(** A single image moved out of a subfolder: the emptied subfolder is
    removed, its parent, which still holds a file, is not, and the pass makes
    no call on that parent. *)
Lemma cleanup_removes_only_emptied_parents_witness :
  let run := distribute_items nested_plan ["in"] 1 (quiet nested_album) in
  let final := distribute_to_folders nested_plan ["in"] 1 (quiet nested_album) in
  let traced := cleanup_logged [["in"; "sub"]] run.2 in
  (∃ st, run.1 = Ok st ∧ moved_paths st = {[ ["in"; "sub"] ]}) ∧
  w_tree run.2 !! ["in"; "sub"] = Some Dir ∧
  w_tree final.2 !! ["in"; "sub"] = None ∧
  w_tree final.2 !! ["in"] = w_tree run.2 !! ["in"] ∧
  w_log traced.2 =
    [CallExists ["in"; "sub"]; CallIterdir ["in"; "sub"]; CallRmdir ["in"; "sub"]].
Proof.
  intros run final traced.
  assert (∃ st, run = (Ok st, run.2) ∧ moved_paths st = {[ ["in"; "sub"] ]})
    as (st & Hrun & Hmp).
  { exists {| moved := 1; copied := 0; moved_paths := {[ ["in"; "sub"] ]} |}.
    split; vm_compute; reflexivity. }
  destruct (cleanup_removes_only_emptied_parents nested_plan ["in"] 1
              (quiet nested_album) st run.2 Hrun)
    as (_ & w2 & _ & Hdone & _ & Hframe & _).
  fold final in Hdone.
  split_and!.
  - exists st. split; [exact (f_equal fst Hrun)|exact Hmp].
  - vm_compute. reflexivity.
  - vm_compute. reflexivity.
  - rewrite Hdone.
    destruct (Hframe ["in"]) as [Heq|(Hin & _)]; [exact Heq|].
    rewrite Hmp in Hin. apply elem_of_singleton in Hin. discriminate Hin.
  - vm_compute. reflexivity.
Defined.

(** The album: the dim image is read and has a detection, all below 0.5. *)
Lemma build_plan_live_below_min_score_witness :
  let run := build_plan_live demo ["in"] 0.5%float 2 1 (quiet album) in
  ∃ pl, run.1 = Ok pl ∧
        (["in"; "dim.jpg"] ∉ plan_no_faces pl) ∧
        (["in"; "dim.jpg"] ∉ item_path <$> plan_items pl) ∧
        plan_no_faces pl = [["in"; "sky.jpg"]].
Proof.
  intros run.
  assert (∃ pl, run = (Ok pl, run.2) ∧ plan_no_faces pl = [["in"; "sky.jpg"]])
    as (pl & Hrun & Hnf).
  { eexists. split; vm_compute; reflexivity. }
  destruct (build_plan_live_below_min_score demo ["in"] 0.5%float 2 1
              (quiet album) pl run.2 ["in"; "dim.jpg"] "blurry"
              [Face (Some 0.25%float) (Some 1)] Hrun)
    as (Hno & Hitems & _).
  - vm_compute. reflexivity.
  - reflexivity.
  - discriminate.
  - intros f Hf. apply list_elem_of_singleton in Hf as ->. vm_compute. reflexivity.
  - exists pl. split; [exact (f_equal fst Hrun)|].
    split; [exact Hno|]. split; [exact Hitems|exact Hnf].
Defined.

(** A folder where no detection passes: the plan is empty and HDBSCAN is
    never called. *)
Lemma build_plan_live_no_embeddings_witness :
  let w := quiet dim_album in
  let scan := scan_images demo 0.5%float (all_images demo (w_tree w) ["in"])
                (add_log CallFaceAnalysis w) in
  let run := build_plan_live demo ["in"] 0.5%float 2 1 w in
  (∃ st, scan.1 = Ok st ∧ embeddings st = [] ∧
         run.1 = Ok {| plan_clusters := ∅; plan_items := [];
                       plan_unreadable := unreadable st;
                       plan_no_faces := no_faces st |}) ∧
  ∀ n, CallHdbscan n ∉ w_log run.2.
Proof.
  intros w scan run.
  assert (∃ st, scan = (Ok st, scan.2) ∧ embeddings st = [])
    as (st & Hscan & Hemb).
  { exists {| embeddings := []; owners := []; img_face_count := ∅;
              unreadable := []; no_faces := [["in"; "sky.jpg"]] |}.
    split; reflexivity. }
  destruct (build_plan_live_no_embeddings demo ["in"] 0.5%float 2 1 w st scan.2
              eq_refl Hscan Hemb) as (Hrun & _ & _ & _ & Hno).
  fold run in Hrun. split.
  - exists st. split; [exact (f_equal fst Hscan)|]. split; [exact Hemb|].
    exact (f_equal fst Hrun).
  - intros n Hn. rewrite Hrun in Hn. apply Hno in Hn.
    exact (proj1 (elem_of_nil _) Hn).
Defined.

(** The group: the detector fails in the first subfolder and the run ends
    there. *)
Lemma process_group_folder_stops_at_failure_witness :
  let failed := build_plan_live demo ["g"; "k"] 0.5%float 2 1 (quiet group) in
  failed.1 = Raise (BackendError "detector") ∧
  process_group_folder demo ["g"] (quiet group) =
    (Raise (BackendError "detector"), failed.2) ∧
  w_tree failed.2 = group.
Proof.
  intros failed.
  assert (failed = (Raise (BackendError "detector"), failed.2)) as Hfail
    by (vm_compute; reflexivity).
  destruct (process_group_folder_stops_at_failure demo ["g"] (quiet group)
              [["g"; "m"]; ["g"; "k"]] [] ["g"; "k"] [["g"; "m"]] 1 (quiet group)
              (BackendError "detector") failed.2)
    as (Hstop & _ & Htree).
  - vm_compute. reflexivity.
  - vm_compute. reflexivity.
  - reflexivity.
  - vm_compute. reflexivity.
  - reflexivity.
  - exact Hfail.
  - split; [exact (f_equal fst Hfail)|]. split; [exact Hstop|exact Htree].
Defined.

(** C3 as first stated fails here.  A folder distributed before, planned
    again: the only item already is at its target.  The call counts it as
    moved, reports nothing, and the file is still at the source path. *)
Lemma distribute_single_source_is_target :
  let item := {| item_path := ["in"; "1"; "a.jpg"]; item_cluster := [1];
                 item_faces := 1 |} in
  plan_items sorted_plan = [item] ∧
  node_at (w_tree (quiet sorted_album)) (item_path item) = Some (File "alice") ∧
  target ["in"] 1 (item_path item) = item_path item ∧
  distribute_to_folders sorted_plan ["in"] 1 (quiet sorted_album) =
    (Ok (1, 0, 2), quiet sorted_album) ∧
  path_exists (w_tree (quiet sorted_album)) (item_path item) = true.
Proof. vm_compute. by split_and!. Qed.

(** C5 as first stated fails here.  After the failure in the first
    subfolder the second one has not been touched, although processing it
    from there would have moved its image. *)
Lemma process_group_folder_does_not_continue :
  let failed := build_plan_live demo ["g"; "k"] 0.5%float 2 1 (quiet group) in
  let next := process_subfolders demo [["g"; "m"]] 1 failed.2 in
  failed.1 = Raise (BackendError "detector") ∧
  (process_group_folder demo ["g"] (quiet group)).1 = Raise (BackendError "detector") ∧
  w_tree (process_group_folder demo ["g"] (quiet group)).2 !! ["g"; "m"; "y.jpg"]
    = Some (File "alice") ∧
  next.1 = Ok 2 ∧
  w_tree next.2 !! ["g"; "m"; "1"; "y.jpg"] = Some (File "alice") ∧
  process_group_folder demo ["g"] (quiet group) ≠ next.
Proof.
  vm_compute. split_and!; try reflexivity. discriminate.
Qed.

(** C8 as first stated fails here.  Two images, one in [in/a/b] and one in
    [in/a], are moved to their cluster folders.  When the cleanup pass
    starts, [in/a] still holds [in/a/b].  The pass removes [in/a/b] first and
    then [in/a], the directory above this immediate parent, which has become
    empty as a result. *)
Lemma cleanup_removes_emptied_ancestor :
  let run := distribute_items deep_plan ["in"] 1 (quiet deep_album) in
  let final := distribute_to_folders deep_plan ["in"] 1 (quiet deep_album) in
  let traced := cleanup_logged [["in"; "a"; "b"]; ["in"; "a"]] run.2 in
  parent ["in"; "a"; "b"; "x.jpg"] = ["in"; "a"; "b"] ∧
  parent ["in"; "a"; "b"] = ["in"; "a"] ∧
  (∃ st, run.1 = Ok st ∧
         longest_first (moved_paths st) = [["in"; "a"; "b"]; ["in"; "a"]]) ∧
  w_tree run.2 !! ["in"; "a"] = Some Dir ∧
  entries (w_tree run.2) ["in"; "a"] = [["in"; "a"; "b"]] ∧
  final.1 = Ok (2, 0, 3) ∧
  w_tree final.2 !! ["in"; "a"; "b"] = None ∧
  w_tree final.2 !! ["in"; "a"] = None ∧
  w_tree final.2 !! ["in"; "1"; "x.jpg"] = Some (File "alice") ∧
  w_tree final.2 !! ["in"; "2"; "y.jpg"] = Some (File "bob") ∧
  w_log traced.2 =
    [CallExists ["in"; "a"; "b"]; CallIterdir ["in"; "a"; "b"];
     CallRmdir ["in"; "a"; "b"];
     CallExists ["in"; "a"]; CallIterdir ["in"; "a"]; CallRmdir ["in"; "a"]] ∧
  w_tree traced.2 = w_tree final.2.
Proof.
  intros run final traced. split_and!; try (vm_compute; reflexivity).
  exists {| moved := 2; copied := 0;
            moved_paths := {[ ["in"; "a"; "b"]; ["in"; "a"] ]} |}.
  split; vm_compute; reflexivity.
Qed.

(** C4: a regular file named [1] stands where the first cluster directory
    has to be created.  The error of [mkdir] is not caught: the call raises,
    returns no counts, and the second item is never processed.  On a
    platform that refuses the move instead, the same plan runs to the end:
    the failure is printed and the second item is moved. *)
Theorem distribute_to_folders_mkdir_error_aborts :
  distribute_to_folders two_plan ["in"] 1 (quiet blocked_album) =
    (Raise (OSError (OpMkdir ["in"; "1"])), quiet blocked_album) ∧
  (distribute_to_folders two_plan ["in"] 1 (no_move_a open_album)).1 = Ok (1, 0, 3) ∧
  w_log (distribute_to_folders two_plan ["in"] 1 (no_move_a open_album)).2 =
    [PrintMoveError ["in"; "a.jpg"] ["in"; "1"; "a.jpg"]
       (OSError (OpMove ["in"; "a.jpg"] ["in"; "1"; "a.jpg"]))] ∧
  w_tree (distribute_to_folders two_plan ["in"] 1 (no_move_a open_album)).2
    !! ["in"; "2"; "b.jpg"] = Some (File "bob").
Proof. vm_compute. by split_and!. Qed.

(** * Further properties *)

(** ** Global ids across calls *)

Lemma cluster_id_map_range pl cluster_start c g :
  cluster_id_map pl cluster_start !! c = Some g →
  cluster_start ≤ g < cluster_start + Z.of_nat (length (used_clusters pl)).
Proof.
  intros (i & Hi & ->)%cluster_id_map_lookup.
  apply lookup_lt_Some in Hi. lia.
Qed.

(** X1: the global ids of a call lie between its [cluster_start] and the
    cursor it returns, so a later call that starts from the returned cursor
    uses larger ids and differently named cluster directories. *)
Theorem distribute_to_folders_ids_do_not_collide pl1 pl2 base_dir cluster_start
    w r w1 c1 g1 c2 g2 :
  distribute_to_folders pl1 base_dir cluster_start w = (Ok r, w1) →
  cluster_id_map pl1 cluster_start !! c1 = Some g1 →
  cluster_id_map pl2 r.2 !! c2 = Some g2 →
  cluster_start ≤ g1 < r.2 ∧ r.2 ≤ g2 ∧
  (pretty g1 : string) ≠ pretty g2.
Proof.
  intros Hrun Hg1 Hg2.
  pose proof (distribute_to_folders_outcome pl1 base_dir cluster_start w) as Hwp.
  unfold wp in Hwp. rewrite Hrun in Hwp.
  apply cluster_id_map_range in Hg1, Hg2. rewrite Hwp.
  split; [lia|]. split; [lia|].
  intros Heq%(inj pretty). lia.
Qed.

(** ** The cursor of process_group_folder *)

(** X2: the cluster counter never goes down from one subfolder to the
    next, whatever the subfolders hold. *)
Theorem process_subfolders_cursor_grows B subfolders cluster_counter w c' w' :
  process_subfolders B subfolders cluster_counter w = (Ok c', w') →
  cluster_counter ≤ c'.
Proof.
  intros Hrun.
  assert (wp (process_subfolders B subfolders cluster_counter)
            (λ c _, cluster_counter ≤ c) (λ _ _, True) w) as Hwp.
  { unfold process_subfolders. apply wp_for_each; [|lia].
    intros c s w0 _ Hc. unfold process_subfolder.
    apply wp_bind. unfold wp at 1, fs_is_dir.
    destruct (path_is_dir _ _); simpl; [|by apply wp_ret].
    destruct (has_shared_marker _ _); [by apply wp_ret|].
    apply wp_bind.
    destruct (build_plan_live B s 0.5 2 1 w0) as [[pl|e] w1] eqn:Hplan;
      unfold wp at 1; rewrite Hplan; [|done].
    apply wp_bind.
    eapply wp_mono; [| |apply distribute_to_folders_outcome]; [|done].
    intros r w2 Hr. apply wp_ret. simpl in *. lia. }
  unfold wp in Hwp. by rewrite Hrun in Hwp.
Qed.

(** ** An image with one membership is not lost *)

Lemma shutil_move_file_cases t src dst d t' :
  node_at t src = Some (File d) →
  shutil_move t src dst = Some t' →
  t' = t ∨ ∃ real_dst, dst `prefix_of` real_dst ∧
                       t' = <[real_dst := File d]> (delete src t).
Proof.
  intros Hsrc. unfold shutil_move.
  destruct src as [|c src]; [done|]. simpl in Hsrc. rewrite Hsrc.
  destruct (decide (c :: src = dst)) as [|Hne]; [intros [= <-]; by left|].
  destruct (_ && _); [done|]. destruct (negb _); [done|]. intros [= <-].
  right. eexists. split; [|done].
  destruct (path_is_dir t dst); [by apply prefix_app_r|done].
Qed.

(** X3: one iteration of the loop never loses the file of its item.  For an
    item with exactly one membership whose source is a regular file when the
    iteration starts, whatever fails in it: when the iteration ends, and also
    when it ends with the exception of a directory that could not be
    created, the same content is at the source path or at (or below) the
    target path.  This is about the one iteration: a later item with the
    same file name and cluster can still replace the file at the target. *)
Theorem distribute_item_single_keeps_file pl base_dir cluster_start st item c d
    w r w' :
  item ∈ plan_items pl →
  item_cluster item = [c] →
  node_at (w_tree w) (item_path item) = Some (File d) →
  distribute_item base_dir (cluster_id_map pl cluster_start) st item w = (r, w') →
  ∃ g q, cluster_id_map pl cluster_start !! c = Some g ∧
         w_tree w' !! q = Some (File d) ∧
         (q = item_path item ∨ target base_dir g (item_path item) `prefix_of` q).
Proof.
  intros Hitem Hc Hsrc. unfold distribute_item.
  destruct (lookup_ids_plan pl cluster_start item w Hitem) as (gs & Hgs & Hall).
  rewrite Hc in Hall, Hgs.
  apply Forall2_cons_inv_l in Hall as (g & gs' & Hg & Hnil & ->).
  apply Forall2_nil_inv_l in Hnil as ->.
  unfold bind at 1. rewrite Hc, Hgs. unfold bind at 1, fs_exists.
  assert (path_exists (w_tree w) (item_path item) = true) as ->.
  { unfold path_exists. apply bool_decide_eq_true. by rewrite Hsrc. }
  simpl. intros Hrun. exists g.
  assert (w_tree w !! item_path item = Some (File d)) as Hsrc0.
  { by destruct (item_path item). }
  apply move_single_inv in Hrun
    as [(_ & _ & ->)|(t1 & _ & Hmk & [(t2 & _ & Hmv & _ & ->)|(_ & _ & ->)])].
  - exists (item_path item). auto.
  - apply mkdir_parents_spec in Hmk as (Hkeep & _ & _).
    assert (node_at t1 (item_path item) = Some (File d)) as Hsrc1.
    { destruct (item_path item); [done|]. by apply Hkeep. }
    destruct (shutil_move_file_cases _ _ _ _ _ Hsrc1 Hmv)
      as [->|(rd & Hrd & ->)]; simpl.
    + exists (item_path item). split; [done|]. split; [by apply Hkeep|by left].
    + exists rd. split; [done|]. split; [apply lookup_insert_eq|by right].
  - apply mkdir_parents_spec in Hmk as (Hkeep & _ & _).
    exists (item_path item). split; [done|]. split; [by apply Hkeep|by left].
Qed.

(** ** The counts *)

Lemma copy_loop_copied base_dir src gs st w st' w' :
  for_each (copy_one base_dir src) gs st w = (Ok st', w') →
  copied st ≤ copied st' ≤ copied st + Z.of_nat (length gs).
Proof.
  revert st w. induction gs as [|g gs IH]; intros st w; simpl.
  - intros [= <- <-]. lia.
  - intros (sa & wa & Hone & Hrest)%bind_Ok. apply IH in Hrest.
    apply copy_one_inv in Hone
      as [(_ & ? & _)|(t1 & _ & _ & [(t2 & _ & _ & [= ->] & _)|(_ & [= ->] & _)])];
      [done| |]; simpl in *; lia.
Qed.

Lemma distribute_item_counts pl base_dir cluster_start st item w st' w' :
  item ∈ plan_items pl →
  distribute_item base_dir (cluster_id_map pl cluster_start) st item w = (Ok st', w') →
  (length (item_cluster item) = 1%nat →
     moved st ≤ moved st' ≤ moved st + 1 ∧ copied st' = copied st) ∧
  (length (item_cluster item) ≠ 1%nat →
     moved st' = moved st ∧
     copied st ≤ copied st' ≤ copied st + Z.of_nat (length (item_cluster item))).
Proof.
  intros Hitem. unfold distribute_item.
  destruct (lookup_ids_plan pl cluster_start item w Hitem) as (gs & Hgs & Hall).
  apply Forall2_length in Hall.
  unfold bind at 1. rewrite Hgs. unfold bind at 1, fs_exists.
  destruct (path_exists _ _); simpl; [|intros [= <- <-]; split; intros _; lia].
  assert (copy_multi base_dir (item_path item) gs st w = (Ok st', w') →
          moved st' = moved st ∧
          copied st ≤ copied st' ≤ copied st + Z.of_nat (length gs)) as Hmulti.
  { unfold copy_multi.
    intros (st1 & w1 & Hloop & (u & w2 & _ & [= <- <-])%bind_Ok)%bind_Ok.
    split; [by eapply copy_loop_moved|by eapply copy_loop_copied]. }
  destruct gs as [|g [|g2 gs]].
  - intros Hrun. apply Hmulti in Hrun. rewrite Hall. simpl in *.
    split; intros _; lia.
  - intros Hrun. split; [intros _|simpl in Hall; intros ?; lia].
    apply move_single_inv in Hrun
      as [(_ & ? & _)|(t1 & _ & _ & [(t2 & _ & _ & [= ->] & _)|(_ & [= ->] & _)])];
      [done| |]; simpl; lia.
  - intros Hrun. apply Hmulti in Hrun.
    split; [simpl in Hall; intros ?; lia|intros _; by rewrite Hall].
Qed.

Lemma single_count_cons x l :
  single_count (x :: l) =
  if decide (length (item_cluster x) = 1%nat) then S (single_count l)
  else single_count l.
Proof. unfold single_count. rewrite filter_cons. by destruct (decide _). Qed.

Lemma other_memberships_cons x l :
  other_memberships (x :: l) =
  if decide (length (item_cluster x) = 1%nat) then other_memberships l
  else (length (item_cluster x) + other_memberships l)%nat.
Proof.
  unfold other_memberships. rewrite filter_cons.
  destruct (decide (length (item_cluster x) = 1%nat)) as [Heq|Hne].
  - by rewrite decide_False by (intros ?; done).
  - by rewrite decide_True by done.
Qed.

Lemma distribute_loop_counts pl base_dir cluster_start l st w st' w' :
  (∀ item, item ∈ l → item ∈ plan_items pl) →
  for_each (distribute_item base_dir (cluster_id_map pl cluster_start)) l st w
    = (Ok st', w') →
  moved st ≤ moved st' ≤ moved st + Z.of_nat (single_count l) ∧
  copied st ≤ copied st' ≤ copied st + Z.of_nat (other_memberships l).
Proof.
  revert st w. induction l as [|x l IH]; intros st w Hl; simpl.
  - intros [= <- <-]. unfold single_count, other_memberships. simpl. lia.
  - intros (sa & wa & Hone & Hrest)%bind_Ok.
    apply IH in Hrest; [|by intros ? ?; apply Hl, list_elem_of_further].
    apply (distribute_item_counts pl) in Hone as [H1 Hn];
      [|apply Hl, list_elem_of_here].
    rewrite single_count_cons, other_memberships_cons.
    destruct (decide (length (item_cluster x) = 1%nat)) as [Heq|Hne].
    + destruct (H1 Heq). lia.
    + destruct (Hn Hne). lia.
Qed.

(** X4: on return, [moved] is between 0 and the number of items with exactly
    one membership, and [copied] is between 0 and the number of memberships
    of the other items. *)
Theorem distribute_to_folders_counts_bounded pl base_dir cluster_start w r w' :
  distribute_to_folders pl base_dir cluster_start w = (Ok r, w') →
  0 ≤ r.1.1 ≤ Z.of_nat (single_count (plan_items pl)) ∧
  0 ≤ r.1.2 ≤ Z.of_nat (other_memberships (plan_items pl)).
Proof.
  unfold distribute_to_folders.
  intros (st & w1 & Hloop & (u & w2 & _ & [= <- <-])%bind_Ok)%bind_Ok.
  unfold distribute_items in Hloop.
  apply (distribute_loop_counts pl) in Hloop; [|done]. simpl in *. lia.
Qed.

(** ** The order of the cleanup pass *)

Lemma string_length_app (s1 s2 : string) :
  String.length (s1 +:+ s2) = (String.length s1 + String.length s2)%nat.
Proof. induction s1 as [|a s1 IH]; simpl; [done|]. by rewrite IH. Qed.

Lemma path_str_app (p k : path) :
  String.length (path_str (p ++ k)) =
  (String.length (path_str p) + String.length (path_str k))%nat.
Proof.
  induction p as [|c p IH]; simpl; [done|].
  rewrite !string_length_app, IH. lia.
Qed.

(** A path below another has the longer string. *)
Lemma path_str_longer (a b : path) :
  a `prefix_of` b → a ≠ b →
  (String.length (path_str a) < String.length (path_str b))%nat.
Proof.
  intros [k ->] Hne. rewrite path_str_app.
  destruct k as [|c k]; [by rewrite app_nil_r in Hne|]. simpl. lia.
Qed.

Lemma longer_eq_sorted (s : gset path) : StronglySorted longer_eq (longest_first s).
Proof.
  unfold longest_first. apply StronglySorted_merge_sort.
  - intros a b c. unfold longer_eq. lia.
  - intros a b. unfold longer_eq. lia.
Qed.

Lemma NoDup_longest_first (s : gset path) : NoDup (longest_first s).
Proof.
  unfold longest_first. rewrite merge_sort_Permutation. apply NoDup_elements.
Qed.

(** A directory of the list comes after every directory of the list below
    it. *)
Lemma longest_first_below_first (s : gset path) i j a b :
  longest_first s !! i = Some a → longest_first s !! j = Some b →
  a `prefix_of` b → a ≠ b → (j < i)%nat.
Proof.
  intros Hi Hj Hpre Hne.
  destruct (decide (j < i)%nat) as [|Hge]; [done|]. exfalso.
  assert (i ≠ j) as Hij by (intros ->; congruence).
  pose proof (path_str_longer a b Hpre Hne) as Hlen.
  pose proof (longer_eq_sorted s) as Hs.
  rewrite <- (take_drop j (longest_first s)) in Hs.
  assert (longer_eq a b) as Hab.
  { eapply StronglySorted_app_1_elem_of; [exact Hs| |].
    - apply list_elem_of_lookup. exists i. rewrite lookup_take_lt; [done|lia].
    - apply list_elem_of_lookup. exists 0%nat. by rewrite lookup_drop, Nat.add_0_r. }
  unfold longer_eq in Hab. lia.
Qed.

(** X5: the cleanup pass examines every directory of [moved_paths] exactly
    once, and a directory only after every directory of [moved_paths] that
    lies below it. *)
Theorem longest_first_children_first (s : gset path) :
  NoDup (longest_first s) ∧
  (∀ p, p ∈ longest_first s ↔ p ∈ s) ∧
  (∀ i j a b, longest_first s !! i = Some a → longest_first s !! j = Some b →
              a `prefix_of` b → a ≠ b → (j < i)%nat).
Proof.
  split; [apply NoDup_longest_first|]. split; [apply elem_of_longest_first|].
  apply longest_first_below_first.
Qed.

(** ** What the cleanup pass leaves *)

Lemma entries_elem t p q :
  q ∈ entries t p ↔ q ≠ [] ∧ parent q = p ∧ is_Some (t !! q).
Proof.
  unfold entries. rewrite list_elem_of_filter, elem_of_elements, elem_of_dom.
  tauto.
Qed.

Lemma parent_prefix q : q ≠ [] → parent q `prefix_of` q ∧ parent q ≠ q.
Proof.
  intros Hq. destruct (exists_last Hq) as (p & c & ->).
  unfold parent. rewrite removelast_last. split; [by apply prefix_app_r|].
  intros Heq. apply (f_equal length) in Heq. rewrite length_app in Heq.
  simpl in Heq. lia.
Qed.

(** One round on a platform that lets it through: an existing directory
    without entries goes, one with entries stays. *)
Lemma cleanup_dir_quiet p w :
  p ≠ [] → w_tree w !! p = Some Dir →
  w_flaky w (OpIterdir p) = false → w_flaky w (OpRmdir p) = false →
  (entries (w_tree w) p = [] ∧
   cleanup_dir p w = (Ok tt, set_tree (delete p (w_tree w)) w)) ∨
  (entries (w_tree w) p ≠ [] ∧ cleanup_dir p w = (Ok tt, w)).
Proof.
  intros Hp Hdir Hit Hrm.
  unfold cleanup_dir, try_except, bind, fs_exists, fs_iterdir, fs_rmdir, fs_run.
  assert (path_exists (w_tree w) p = true) as ->.
  { unfold path_exists. apply bool_decide_eq_true. destruct p; [done|]. simpl.
    by rewrite Hdir. }
  assert (path_is_dir (w_tree w) p = true) as ->.
  { unfold path_is_dir. apply bool_decide_eq_true. by destruct p. }
  rewrite Hit. destruct (entries (w_tree w) p) as [|e es] eqn:Hent.
  - left. split; [done|]. rewrite Hrm. unfold rmdir. destruct p; [done|].
    by rewrite Hdir, Hent.
  - right. done.
Qed.

(** In a list that has the lower directories first, on a platform that lets
    the pass through, a directory of the list that is still there at the
    end has kept an entry. *)
Lemma cleanup_leaves_no_empty_dir dirs w w' :
  NoDup dirs →
  (∀ i j a b, dirs !! i = Some a → dirs !! j = Some b →
              a `prefix_of` b → a ≠ b → (j < i)%nat) →
  (∀ p, w_flaky w (OpIterdir p) = false ∧ w_flaky w (OpRmdir p) = false) →
  cleanup dirs w = (Ok tt, w') →
  ∀ p, p ∈ dirs → p ≠ [] → w_tree w' !! p = Some Dir →
       ∃ q, q ≠ [] ∧ parent q = p ∧ is_Some (w_tree w' !! q).
Proof.
  revert w. induction dirs as [|x dirs IH]; intros w Hnd Hord Hquiet Hrun p Hp;
    [by apply elem_of_nil in Hp|].
  apply NoDup_cons in Hnd as [Hx Hnd].
  unfold cleanup in Hrun. simpl in Hrun.
  apply bind_Ok in Hrun as ([] & w1 & Hone & Hrest).
  destruct (cleanup_dir_inv x w) as (w1' & Hone' & _ & Hfl1 & _).
  rewrite Hone in Hone'. injection Hone' as <-.
  destruct (cleanup_spec dirs w1) as (w2 & Hrest' & _ & Hframe & _).
  unfold cleanup in Hrest'. rewrite Hrest in Hrest'. injection Hrest' as <-.
  assert (∀ i j a b, dirs !! i = Some a → dirs !! j = Some b →
            a `prefix_of` b → a ≠ b → (j < i)%nat) as Hord'.
  { intros i j a b Hi Hj Hab Hne.
    pose proof (Hord (S i) (S j) a b Hi Hj Hab Hne). lia. }
  apply elem_of_cons in Hp as [->|Hp].
  - intros Hx0 Hfinal.
    assert (w_tree w1 !! x = Some Dir) as Hx1.
    { destruct (Hframe x) as [<-|(? & _)]; done. }
    assert (w_tree w !! x = Some Dir) as Hxw.
    { destruct (cleanup_dir_inv x w) as (w1' & Hone' & _ & _ & [Heq|(? & _ & Heq)]);
        rewrite Hone in Hone'; injection Hone' as <-; [by rewrite <- Heq|done]. }
    destruct (Hquiet x) as [Hit Hrm].
    destruct (cleanup_dir_quiet x w Hx0 Hxw Hit Hrm) as [[_ Hgone]|[Hent Hsame]].
    { rewrite Hone in Hgone. injection Hgone as ->. simpl in Hx1.
      by rewrite lookup_delete_eq in Hx1. }
    rewrite Hone in Hsame. injection Hsame as ->.
    destruct (entries (w_tree w) x) as [|q es] eqn:Hes; [done|].
    assert (q ∈ entries (w_tree w) x) as Hq by (rewrite Hes; apply list_elem_of_here).
    apply entries_elem in Hq as (Hq0 & Hpar & Hsome).
    exists q. split; [done|]. split; [done|].
    destruct (Hframe q) as [->|(Hin & _)]; [done|]. exfalso.
    apply list_elem_of_lookup in Hin as [j Hj].
    destruct (parent_prefix q Hq0) as [Hpre Hne]. rewrite Hpar in Hpre, Hne.
    pose proof (Hord 0%nat (S j) x q eq_refl Hj Hpre Hne). lia.
  - eapply (IH w1); try done.
    intros q. rewrite Hfl1. apply Hquiet.
Qed.

(** X6: on a platform that lets the cleanup pass through, no directory of
    [moved_paths] is left empty: each one that is still a directory at the
    end holds an entry, also when it was emptied by the pass itself. *)
Theorem cleanup_leaves_no_empty_parent (s : gset path) w w' :
  (∀ p, w_flaky w (OpIterdir p) = false ∧ w_flaky w (OpRmdir p) = false) →
  cleanup (longest_first s) w = (Ok tt, w') →
  ∀ p, p ∈ s → p ≠ [] → w_tree w' !! p = Some Dir →
       ∃ q, q ≠ [] ∧ parent q = p ∧ is_Some (w_tree w' !! q).
Proof.
  intros Hquiet Hrun p Hp.
  eapply cleanup_leaves_no_empty_dir; [apply NoDup_longest_first| |done|done|].
  - apply longest_first_below_first.
  - by apply elem_of_longest_first.
Qed.

(** ** What distribute_to_folders leaves alone *)

Lemma kept_refl base_dir q t : kept base_dir q t t.
Proof. by left. Qed.

Lemma kept_step base_dir q t0 t t' :
  kept base_dir q t0 t → kept base_dir q t t' → kept base_dir q t0 t'.
Proof.
  intros [H1|(Hp & Hn & Hd)] [H2|(Hp' & Hn' & Hd')].
  - left. congruence.
  - right. split; [done|]. split; [congruence|done].
  - right. split; [done|]. split; [done|congruence].
  - congruence.
Qed.

Lemma kept_same base_dir q t0 t t' :
  kept base_dir q t0 t → t' !! q = t !! q → kept base_dir q t0 t'.
Proof. intros H Heq. eapply kept_step; [done|]. by left. Qed.

Lemma prefix_snoc_inv {A} (q p : list A) x :
  q `prefix_of` p ++ [x] → q `prefix_of` p ∨ q = p ++ [x].
Proof.
  intros [k Hk]. destruct k as [|y k _] using rev_ind.
  - right. by rewrite app_nil_r in Hk.
  - left. rewrite (assoc_L (++)) in Hk. apply app_inj_tail in Hk as [-> _].
    by apply prefix_app_r.
Qed.

Lemma mkdir_parents_kept base_dir q x t t' :
  ¬ base_dir `prefix_of` q →
  mkdir_parents t (child base_dir x) = Some t' → kept base_dir q t t'.
Proof.
  intros Hq (_ & Hnew & _)%mkdir_parents_spec.
  destruct (Hnew q) as [Heq|(Hnone & Hdir & Hpre)]; [by left|]. right.
  apply prefix_snoc_inv in Hpre as [Hpre| ->]; [done|].
  exfalso. apply Hq. by apply prefix_app_r.
Qed.

Lemma rebase_key_fixed src dst k q :
  ¬ dst `prefix_of` q → rebase_key src dst k = q → k = q.
Proof.
  unfold rebase_key. destruct (decide _); [|done].
  intros Hq <-. exfalso. apply Hq. by apply prefix_app_r.
Qed.

Lemma rebase_lookup_other src dst t q :
  ¬ src `prefix_of` q → ¬ dst `prefix_of` q → rebase src dst t !! q = t !! q.
Proof.
  intros Hsrc Hdst. destruct (t !! q) as [n|] eqn:Hq.
  - unfold rebase. apply elem_of_list_to_map_1'.
    + intros y ([k n'] & [= Hkey ->] & Hk%elem_of_map_to_list)%list_elem_of_fmap.
      symmetry in Hkey. apply rebase_key_fixed in Hkey as ->; [|done].
      simpl. congruence.
    + apply list_elem_of_fmap. exists (q, n). split.
      * simpl. unfold rebase_key. by rewrite decide_False.
      * by apply elem_of_map_to_list.
  - destruct (rebase src dst t !! q) as [n|] eqn:Hr; [|done].
    apply rebase_lookup in Hr as (k & Hk & Heq). symmetry in Heq.
    apply rebase_key_fixed in Heq as ->; [|done]. congruence.
Qed.

Lemma shutil_move_other t src dst t' q :
  shutil_move t src dst = Some t' →
  ¬ src `prefix_of` q → ¬ dst `prefix_of` q → t' !! q = t !! q.
Proof.
  unfold shutil_move. destruct src as [|c src]; [done|].
  destruct (t !! (c :: src)) as [nd|] eqn:Hsrc; [|done].
  destruct (decide (c :: src = dst)) as [|Hne]; [by intros [= <-]|].
  set (real_dst := if path_is_dir t dst then child dst (name (c :: src)) else dst).
  assert (dst `prefix_of` real_dst) as Hrd.
  { unfold real_dst. destruct (path_is_dir t dst); [by apply prefix_app_r|done]. }
  destruct (_ && _); [done|]. destruct (negb _); [done|].
  intros Hmv Hs Hd.
  assert (¬ real_dst `prefix_of` q) as Hd'.
  { intros ?. apply Hd. by etrans. }
  destruct nd as [d|].
  - injection Hmv as <-. rewrite lookup_insert_ne, lookup_delete_ne; [done| |].
    + intros <-. by apply Hs.
    + intros <-. by apply Hd'.
  - destruct (path_exists t real_dst); [done|]. destruct (decide _); [done|].
    injection Hmv as <-. by apply rebase_lookup_other.
Qed.

Lemma shutil_copy2_other t src dst t' q :
  shutil_copy2 t src dst = Some t' → ¬ dst `prefix_of` q → t' !! q = t !! q.
Proof.
  intros (d & rd & _ & _ & _ & -> & Hrd)%shutil_copy2_spec Hq.
  rewrite lookup_insert_ne; [done|]. intros <-. apply Hq. rewrite Hrd.
  destruct (path_is_dir t dst); [by apply prefix_app_r|done].
Qed.

Lemma target_below base_dir g src q :
  ¬ base_dir `prefix_of` q → ¬ target base_dir g src `prefix_of` q.
Proof.
  intros Hq Ht. apply Hq. etrans; [|exact Ht].
  unfold target, child. rewrite <- (assoc_L (++)). by apply prefix_app_r.
Qed.

Lemma wp_fs_mkdir_kept base_dir q x t0 (Q : unit → world → Prop) w :
  ¬ base_dir `prefix_of` q →
  kept base_dir q t0 (w_tree w) →
  (∀ w', kept base_dir q t0 (w_tree w') → w_log w' = w_log w →
         w_flaky w' = w_flaky w → Q tt w') →
  wp (fs_mkdir (child base_dir x)) Q (λ _ w', kept base_dir q t0 (w_tree w')) w.
Proof.
  intros Hq Hk HQ. apply wp_fs_run; [|done].
  intros t1 _ Hmk. apply HQ; [|done..]. simpl.
  eapply kept_step; [done|]. by eapply mkdir_parents_kept.
Qed.

Lemma move_single_kept base_dir q t0 src g st w :
  ¬ base_dir `prefix_of` q → ¬ src `prefix_of` q →
  kept base_dir q t0 (w_tree w) →
  wp (move_single base_dir src g st)
    (λ st' w', kept base_dir q t0 (w_tree w') ∧
               moved_paths st' ⊆ moved_paths st ∪ {[ parent src ]})
    (λ _ w', kept base_dir q t0 (w_tree w')) w.
Proof.
  intros Hq Hs Hk. unfold move_single. rewrite parent_target.
  apply wp_bind, wp_fs_mkdir_kept; [done..|]. intros w1 Hk1 _ _.
  apply wp_try_except, wp_bind, wp_fs_run.
  - intros t2 _ Hmv. apply wp_ret. split; [|done]. simpl.
    eapply kept_same; [done|].
    eapply shutil_move_other; [done..|by apply target_below].
  - apply wp_bind, wp_print, wp_ret. split; [done|]. set_solver.
Qed.

Lemma copy_one_kept base_dir q t0 src g st w :
  ¬ base_dir `prefix_of` q →
  kept base_dir q t0 (w_tree w) →
  wp (copy_one base_dir src st g)
    (λ st' w', kept base_dir q t0 (w_tree w') ∧ moved_paths st' = moved_paths st)
    (λ _ w', kept base_dir q t0 (w_tree w')) w.
Proof.
  intros Hq Hk. unfold copy_one. rewrite parent_target.
  apply wp_bind, wp_fs_mkdir_kept; [done..|]. intros w1 Hk1 _ _.
  apply wp_try_except, wp_bind, wp_fs_run.
  - intros t2 _ Hcp. apply wp_ret. split; [|done]. simpl.
    eapply kept_same; [done|].
    eapply shutil_copy2_other; [done|by apply target_below].
  - by apply wp_bind, wp_print, wp_ret.
Qed.

Lemma copy_multi_kept base_dir q t0 src gs st w :
  ¬ base_dir `prefix_of` q → ¬ src `prefix_of` q →
  kept base_dir q t0 (w_tree w) →
  wp (copy_multi base_dir src gs st)
    (λ st' w', kept base_dir q t0 (w_tree w') ∧ moved_paths st' = moved_paths st)
    (λ _ w', kept base_dir q t0 (w_tree w')) w.
Proof.
  intros Hq Hs Hk. unfold copy_multi. apply wp_bind.
  eapply wp_mono; [| |apply (wp_for_each _ _
      (λ st' w', kept base_dir q t0 (w_tree w') ∧ moved_paths st' = moved_paths st)
      (λ _ w', kept base_dir q t0 (w_tree w')))]; [|done| |done].
  - intros st' w1 [Hk1 Hmp]. apply wp_bind, wp_try_except, wp_fs_run.
    + intros t' _ Hul. apply wp_ret. split; [|done]. simpl.
      eapply kept_same; [done|]. unfold unlink in Hul.
      destruct (node_at (w_tree w1) src) as [[d|]|]; try done.
      injection Hul as <-. apply lookup_delete_ne. intros <-. by apply Hs.
    + by apply wp_print, wp_ret.
  - intros st' g w1 _ [Hk1 Hmp].
    eapply wp_mono; [| |by apply copy_one_kept]; [|done].
    intros st2 w2 [? Heq]. split; [done|congruence].
Qed.

Lemma distribute_item_kept pl base_dir cluster_start q t0 st item w :
  item ∈ plan_items pl →
  ¬ base_dir `prefix_of` q → ¬ item_path item `prefix_of` q →
  kept base_dir q t0 (w_tree w) →
  wp (distribute_item base_dir (cluster_id_map pl cluster_start) st item)
    (λ st' w', kept base_dir q t0 (w_tree w') ∧
               moved_paths st' ⊆ moved_paths st ∪ {[ parent (item_path item) ]})
    (λ _ w', kept base_dir q t0 (w_tree w')) w.
Proof.
  intros Hitem Hq Hs Hk. unfold distribute_item.
  destruct (lookup_ids_plan pl cluster_start item w Hitem) as (gs & Hgs & _).
  apply wp_bind. unfold wp at 1. rewrite Hgs.
  apply wp_bind. unfold wp at 1, fs_exists.
  destruct (path_exists _ _); simpl; [|split; [done|set_solver]].
  destruct gs as [|g [|g' gs]]; [|by apply move_single_kept|];
    (eapply wp_mono; [| |by apply copy_multi_kept]; [|done];
     intros st' w' [? Heq]; split; [done|set_solver]).
Qed.

(** The whole call, for one path outside its field of work. *)
Lemma distribute_to_folders_kept pl base_dir cluster_start w q :
  ¬ base_dir `prefix_of` q →
  (∀ item, item ∈ plan_items pl →
           ¬ item_path item `prefix_of` q ∧ q ≠ parent (item_path item)) →
  wp (distribute_to_folders pl base_dir cluster_start)
    (λ _ w', kept base_dir q (w_tree w) (w_tree w'))
    (λ _ w', kept base_dir q (w_tree w) (w_tree w')) w.
Proof.
  intros Hq Hitems.
  assert (wp (distribute_items pl base_dir cluster_start)
            (λ st w1, kept base_dir q (w_tree w) (w_tree w1) ∧ q ∉ moved_paths st)
            (λ _ w1, kept base_dir q (w_tree w) (w_tree w1)) w) as Hloop.
  { unfold distribute_items. apply wp_for_each.
    - intros st item w0 Hitem [Hk Hmp].
      destruct (Hitems item Hitem) as [Hs Hpar].
      eapply wp_mono; [| |by apply (distribute_item_kept pl)]; [|done].
      intros st' w1 [Hk1 Hsub]. split; [done|]. set_solver.
    - split; [apply kept_refl|set_solver]. }
  unfold distribute_to_folders. apply wp_bind.
  eapply wp_mono; [| |exact Hloop]; [|done].
  intros st w1 [Hk Hmp]. apply wp_bind. unfold wp at 1.
  destruct (cleanup_spec (longest_first (moved_paths st)) w1)
    as (w2 & Hclean & _ & Hframe & _).
  rewrite Hclean. apply wp_ret.
  eapply kept_same; [done|].
  destruct (Hframe q) as [Heq|(Hin%elem_of_longest_first & _)]; done.
Qed.

(** X7: a call changes nothing outside its field of work.  A path that is
    not at or below [base_dir], not at or below the path of an item, and not
    the parent of an item holds after the call, or after the exception,
    what it held before; the only other change is that a missing directory
    on the way to [base_dir] may have been created. *)
Theorem distribute_to_folders_frame pl base_dir cluster_start w r w' q :
  distribute_to_folders pl base_dir cluster_start w = (r, w') →
  ¬ base_dir `prefix_of` q →
  (∀ item, item ∈ plan_items pl →
           ¬ item_path item `prefix_of` q ∧ q ≠ parent (item_path item)) →
  w_tree w' !! q = w_tree w !! q ∨
  (q `prefix_of` base_dir ∧ w_tree w !! q = None ∧ w_tree w' !! q = Some Dir).
Proof.
  intros Hrun Hq Hitems.
  pose proof (distribute_to_folders_kept pl base_dir cluster_start w q Hq Hitems)
    as Hwp.
  unfold wp in Hwp. rewrite Hrun in Hwp. unfold kept in Hwp.
  destruct r; exact Hwp.
Qed.

(** ** build_plan_live: what the scan collects *)

Lemma wp_for_each_pre {A S} (body : S → A → M S)
    (I : list A → S → world → Prop) E l st w :
  (∀ pre x st w, pre ++ [x] `prefix_of` l → I pre st w →
                 wp (body st x) (I (pre ++ [x])) E w) →
  I [] st w → wp (for_each body l st) (I l) E w.
Proof.
  intros Hbody HI.
  assert (∀ k pre st w, pre ++ k = l → I pre st w →
            wp (for_each body k st) (I l) E w) as Hgen.
  { induction k as [|x k IH]; intros pre st' w' Hl HI'; simpl.
    - apply wp_ret. rewrite app_nil_r in Hl. by subst.
    - apply wp_bind. eapply wp_mono; [| |apply (Hbody pre x)]; [|done| |done].
      + intros st2 w2 HI2. apply (IH (pre ++ [x])); [|done].
        by rewrite <- (assoc_L (++)).
      + exists k. by rewrite <- (assoc_L (++)). }
  by apply (Hgen l []).
Qed.

Lemma take_face_cases B min_score p (acc : scan_state B * Z) f :
  (accepted min_score f = true ∧
   ∃ emb, take_face B min_score p acc f =
          ({| embeddings := embeddings acc.1 ++ [emb];
              owners := owners acc.1 ++ [p];
              img_face_count := img_face_count acc.1;
              unreadable := unreadable acc.1;
              no_faces := no_faces acc.1 |}, acc.2 + 1)) ∨
  (accepted min_score f = false ∧ take_face B min_score p acc f = acc).
Proof.
  unfold take_face, accepted.
  destruct (below_min_score min_score f); [by right|].
  destruct (normed_embedding f) as [emb|]; [left|by right].
  split; [done|]. by eexists.
Qed.

Lemma foldl_take_face_count B min_score p faces (acc : scan_state B * Z) :
  let acc' := foldl (take_face B min_score p) acc faces in
  let n := length (filter (λ f, accepted min_score f) faces) in
  acc'.2 = acc.2 + Z.of_nat n ∧
  owners acc'.1 = owners acc.1 ++ replicate n p ∧
  length (embeddings acc'.1) = (length (embeddings acc.1) + n)%nat ∧
  unreadable acc'.1 = unreadable acc.1 ∧
  no_faces acc'.1 = no_faces acc.1 ∧
  img_face_count acc'.1 = img_face_count acc.1.
Proof.
  revert acc. induction faces as [|f faces IH]; intros acc; simpl.
  - rewrite app_nil_r. split_and!; auto; lia.
  - destruct (IH (take_face B min_score p acc f)) as (H2 & Ho & He & Hu & Hn & Hc).
    rewrite filter_cons.
    destruct (take_face_cases B min_score p acc f) as [[Ha [emb Heq]]|[Ha Heq]];
      rewrite Heq in *; rewrite Ha.
    + rewrite decide_True by done. simpl in *.
      rewrite H2, Ho, He. rewrite <- (assoc_L (++)). simpl.
      rewrite length_app. simpl. split_and!; auto; lia.
    + rewrite decide_False by (intros []). done.
Qed.

Lemma face_count_nonneg B min_score t p : 0 ≤ face_count B min_score t p.
Proof.
  unfold face_count. destruct (imread_safe B t p); [|done].
  destruct (app_get B _); [lia|done].
Qed.

(** One image more: the lists record what [imread_safe] and the detector
    say about it. *)
Lemma scan_image_done B min_score t pre st p w :
  scan_done B min_score t pre st w →
  wp (scan_image B min_score st p) (scan_done B min_score t (pre ++ [p]))
     (λ e _, library_error B e) w.
Proof.
  intros (Ht & Hu & Hn & Hlen & Hown & Hcnt). unfold scan_image.
  apply wp_bind. unfold wp at 1, get_tree. rewrite Ht.
  assert (∀ q : path, q ∈ pre ++ [p] ↔ q ∈ pre ∨ q = p) as Hsnoc.
  { intros q. apply elem_of_snoc. }
  destruct (imread_safe B t p) as [img|] eqn:Hread.
  - apply wp_bind, wp_invoke; [|intros e He; right; left; eauto].
    intros faces Hget.
    assert (face_count B min_score t p =
            Z.of_nat (length (filter (λ f, accepted min_score f) faces))) as Hfc.
    { unfold face_count. by rewrite Hread, Hget. }
    assert (no_detection B t p = match faces with [] => true | _ => false end)
      as Hnd.
    { unfold no_detection. by rewrite Hread, Hget. }
    destruct faces as [|f faces].
    + apply wp_ret. simpl in Hfc. split; [done|]. simpl.
      rewrite !filter_app, !filter_cons, !filter_nil.
      rewrite decide_False by (rewrite Hread; done).
      rewrite decide_True by (by rewrite Hnd).
      rewrite app_nil_r. split_and!; [done|by rewrite Hn|done| |].
      * intros q. rewrite Hown, Hsnoc. split; [tauto|].
        intros [[?| ->] ?]; [done|lia].
      * intros q. rewrite Hcnt. apply option_eq. intros v.
        repeat case_decide; try done; exfalso.
        -- match goal with H : ¬ _ |- _ => apply H end. rewrite Hsnoc. tauto.
        -- match goal with H : _ ∧ _ |- _ => destruct H as [[?| ->]%Hsnoc ?] end;
             [tauto|lia].
    + simpl in Hnd. set (fs := f :: faces) in *.
      destruct (foldl_take_face_count B min_score p fs (st, 0))
        as (H2 & Ho & He & Hu' & Hn' & Hc').
      set (acc := foldl _ _ fs) in *. simpl in H2, Ho, He, Hu', Hn', Hc'.
      set (n := length (filter (λ f0, accepted min_score f0) fs)) in *.
      assert (unreadable acc.1 = filter (λ p0, imread_safe B t p0 = None) (pre ++ [p]))
        as Hu2.
      { rewrite Hu', Hu, filter_app, filter_cons, filter_nil.
        rewrite decide_False by (rewrite Hread; done). by rewrite app_nil_r. }
      assert (no_faces acc.1 = filter (λ p0, no_detection B t p0) (pre ++ [p]))
        as Hn2.
      { rewrite Hn', Hn, filter_app, filter_cons, filter_nil.
        rewrite decide_False by (rewrite Hnd; exact id). by rewrite app_nil_r. }
      assert (length (embeddings acc.1) = length (owners acc.1)) as Hlen2.
      { rewrite He, Ho, length_app, length_replicate. lia. }
      assert (∀ q, q ∈ owners acc.1 ↔
                   q ∈ pre ++ [p] ∧ 0 < face_count B min_score t q) as Hown2.
      { intros q. rewrite Ho, elem_of_app, elem_of_replicate, Hown, Hsnoc.
        split.
        - intros [[? ?]|[-> ?]]; [tauto|]. split; [by right|lia].
        - intros [[?| ->] ?]; [tauto|]. right. split; [done|lia]. }
      case_bool_decide as Hpos; apply wp_ret.
      * split; [done|]. simpl. split_and!; try done.
        intros q. rewrite H2 in *. rewrite Hc'.
        destruct (decide (p = q)) as [<-|Hne].
        -- rewrite lookup_insert_eq, decide_True; [by rewrite Hfc|].
           split; [apply Hsnoc; by right|lia].
        -- rewrite lookup_insert_ne by done. rewrite Hcnt.
           apply option_eq. intros v.
           repeat case_decide; try done; exfalso.
           ++ match goal with H : ¬ _ |- _ => apply H end. rewrite Hsnoc. tauto.
           ++ match goal with H : _ ∧ _ |- _ =>
                destruct H as [[?| ->]%Hsnoc ?] end; [tauto|done].
      * split; [done|]. split_and!; try done.
        intros q. rewrite H2 in *. rewrite Hc', Hcnt.
        apply option_eq. intros v.
        repeat case_decide; try done; exfalso.
        -- match goal with H : ¬ _ |- _ => apply H end. rewrite Hsnoc. tauto.
        -- match goal with H : _ ∧ _ |- _ =>
             destruct H as [[?| ->]%Hsnoc ?] end; [tauto|lia].
  - apply wp_ret. split; [done|]. simpl.
    assert (face_count B min_score t p = 0) as Hfc.
    { unfold face_count. by rewrite Hread. }
    rewrite !filter_app, !filter_cons, !filter_nil.
    rewrite decide_True by done.
    rewrite decide_False by (unfold no_detection; rewrite Hread; exact id).
    rewrite app_nil_r. split_and!; [by rewrite Hu|done|done| |].
    + intros q. rewrite Hown, Hsnoc. split; [tauto|].
      intros [[?| ->] ?]; [done|lia].
    + intros q. rewrite Hcnt. apply option_eq. intros v.
      repeat case_decide; try done; exfalso.
      * match goal with H : ¬ _ |- _ => apply H end. rewrite Hsnoc. tauto.
      * match goal with H : _ ∧ _ |- _ => destruct H as [[?| ->]%Hsnoc ?] end;
          [tauto|lia].
Qed.

Lemma scan_images_done B min_score imgs w :
  wp (scan_images B min_score imgs) (scan_done B min_score (w_tree w) imgs)
     (λ e _, library_error B e) w.
Proof.
  unfold scan_images. apply wp_for_each_pre.
  - intros pre p st w' _ Hdone. by apply scan_image_done.
  - split; [done|]. simpl. rewrite !filter_nil. split_and!; try done.
    intros p. split; [by intros ?%elem_of_nil|by intros [?%elem_of_nil _]].
Qed.

(** ** build_plan_live: the grouping and the plan *)

Lemma dict_member_setdefault_add {K X} `{Countable K, Countable X}
    (k k' : K) (x y : X) (d : gmap K (gset X)) :
  dict_member (setdefault_add k x d) k' y ↔
  dict_member d k' y ∨ (k' = k ∧ y = x).
Proof.
  unfold dict_member, setdefault_add. destruct (decide (k = k')) as [->|Hne].
  - rewrite lookup_insert_eq. split.
    + intros (s & [= <-] & [Hy| ->%elem_of_singleton]%elem_of_union); [|by right].
      left. destruct (d !! k') as [s'|]; [by exists s'|].
      by apply elem_of_empty in Hy.
    + intros [(s & Hs & Hy)|[_ ->]]; eexists; (split; [done|]).
      * rewrite Hs. simpl. set_solver.
      * set_solver.
  - rewrite lookup_insert_ne by done. split; [by left|].
    intros [?|[-> _]]; done.
Qed.

Lemma group_one_done lm pre g pair w :
  (pair.1 ≠ NOISE → is_Some (lm !! pair.1)) →
  group_done lm pre g →
  wp (group_one lm g pair) (λ g' w', w' = w ∧ group_done lm (pre ++ [pair]) g')
     (λ _ _, False) w.
Proof.
  intros Hdom (Hcm & Hcbi & Hne & Hne'). unfold group_one. destruct pair as [lbl q0].
  simpl in *.
  assert (∀ c q, (∃ l, (l, q) ∈ pre ++ [(lbl, q0)] ∧ l ≠ NOISE ∧ lm !! l = Some c) ↔
                 (∃ l, (l, q) ∈ pre ∧ l ≠ NOISE ∧ lm !! l = Some c) ∨
                 (q = q0 ∧ lbl ≠ NOISE ∧ lm !! lbl = Some c)) as Hsnoc.
  { intros c q. split.
    - intros (l & [?|[= -> ->]]%elem_of_snoc & ? & ?); [left; eauto|by right].
    - intros [(l & ? & ? & ?)|(-> & ? & ?)].
      + exists l. split; [apply elem_of_snoc; by left|done].
      + exists lbl. split; [apply elem_of_snoc; by right|done]. }
  destruct (decide (lbl = NOISE)) as [Hnoise|Hnoise].
  - apply wp_ret. split; [done|]. split_and!; [| |done|done].
    + intros c q. rewrite Hcm, Hsnoc. split; [by left|]. intros [?|(_ & ? & _)]; done.
    + intros c q. rewrite Hcbi, Hsnoc. split; [by left|]. intros [?|(_ & ? & _)]; done.
  - destruct (Hdom Hnoise) as [new_lbl Hnew]. rewrite Hnew.
    apply wp_ret. split; [done|]. unfold group_done.
    cbn [cluster_map cluster_by_img fst snd]. split_and!.
    + intros c q. rewrite dict_member_setdefault_add, Hcm, Hsnoc.
      split; (intros [?|?]; [by left|right]).
      * destruct H as [-> ->]. done.
      * destruct H as (-> & _ & Hc). split; [congruence|done].
    + intros c q. rewrite dict_member_setdefault_add, Hcbi, Hsnoc.
      split; (intros [?|?]; [by left|right]).
      * destruct H as [-> ->]. done.
      * destruct H as (-> & _ & Hc). split; [done|congruence].
    + intros q s [[-> ->]|[_ Hq]]%setdefault_add_lookup; [set_solver|by eapply Hne].
    + intros c s [[-> ->]|[_ Hc]]%setdefault_add_lookup; [set_solver|by eapply Hne'].
Qed.

Lemma group_loop_done lm pairs w :
  (∀ pair, pair ∈ pairs → pair.1 ≠ NOISE → is_Some (lm !! pair.1)) →
  wp (for_each (group_one lm) pairs {| cluster_map := ∅; cluster_by_img := ∅ |})
     (λ g w', w' = w ∧ group_done lm pairs g) (λ _ _, False) w.
Proof.
  intros Hdom.
  apply (wp_for_each_pre _ (λ pre g w', w' = w ∧ group_done lm pre g)).
  - intros pre pair g w' Hpre [-> Hdone].
    apply group_one_done; [|done].
    apply Hdom. destruct Hpre as [k ->].
    apply elem_of_app. left. apply elem_of_snoc. by right.
  - split; [done|]. split_and!.
    + intros c q. split.
      * intros (s & Hs & _). simpl in Hs. by rewrite lookup_empty in Hs.
      * by intros (l & ?%elem_of_nil & _).
    + intros c q. split.
      * intros (s & Hs & _). simpl in Hs. by rewrite lookup_empty in Hs.
      * by intros (l & ?%elem_of_nil & _).
    + intros q s Hs. simpl in Hs. by rewrite lookup_empty in Hs.
    + intros c s Hs. simpl in Hs. by rewrite lookup_empty in Hs.
Qed.

Lemma label_map_is_Some raw_labels l :
  l ∈ raw_labels → l ≠ NOISE → is_Some (label_map raw_labels !! l).
Proof.
  intros Hl Hn. unfold label_map.
  apply enumerate_dict_dom, elem_of_sorted_set, elem_of_non_noise. done.
Qed.

Lemma label_map_positive raw_labels l v :
  label_map raw_labels !! l = Some v → 1 ≤ v.
Proof. intros (i & _ & ->)%label_map_lookup. lia. Qed.

Lemma sublist_omap_path {A} (f : path → option A) (g : A → path) imgs :
  (∀ p a, f p = Some a → g a = p) → (g <$> omap f imgs) `sublist_of` imgs.
Proof.
  intros Hf. induction imgs as [|p imgs IH]; simpl; [done|].
  destruct (f p) as [a|] eqn:Hp; simpl.
  - rewrite (Hf p a Hp). by apply sublist_skip.
  - by apply sublist_cons.
Qed.

(** The whole of [build_plan_live]: a plan for the images found, or an
    exception of one of the libraries. *)
Lemma build_plan_live_full B input_dir min_score min_cluster_size min_samples w :
  wp (build_plan_live B input_dir min_score min_cluster_size min_samples)
    (λ pl _, plan_facts B min_score (w_tree w)
               (all_images B (w_tree w) input_dir) pl ∧
             plan_labels B min_cluster_size min_samples pl)
    (λ e _, library_error B e) w.
Proof.
  unfold build_plan_live. apply wp_bind. unfold wp at 1, get_tree.
  set (t := w_tree w). set (imgs := all_images B t input_dir).
  apply wp_bind, wp_invoke; [|by left]. intros [] _.
  apply wp_bind.
  eapply wp_mono; [| |apply (scan_images_done B min_score imgs)]; [|done].
  simpl. fold t.
  intros st w2 (Ht & Hu & Hn & Hlen & Hown & Hcnt).
  destruct (embeddings st) as [|e0 es] eqn:Hemb.
  { apply wp_ret. split; [|by left].
    split_and!; simpl; [done|done|apply sublist_nil_l| | |].
    - by intros item ?%elem_of_nil.
    - intros c q (ps & Hps & _). simpl in Hps. by rewrite lookup_empty in Hps.
    - intros c ps Hps. by rewrite lookup_empty in Hps. }
  rewrite <- Hemb in *. clear e0 es Hemb.
  apply wp_bind, wp_invoke; [|intros e He; right; right; left; eauto].
  intros dm Hdm.
  apply wp_bind, wp_invoke; [|intros e He; right; right; right; eauto].
  intros raw_labels Hraw.
  apply wp_bind.
  eapply wp_mono; [| |apply group_loop_done]; [|done|].
  2: { intros [l q] Hin Hl. simpl in *. apply label_map_is_Some; [|done].
       by eapply elem_of_zip_l. }
  intros g w3 (-> & Hcm & Hcbi & Hne & Hne'). apply wp_ret.
  set (pairs := zip raw_labels (owners st)) in *.
  set (pl := {| plan_clusters := sorted_by_str <$> cluster_map g;
                plan_items := omap (plan_entry (cluster_by_img g) (img_face_count st)) imgs;
                plan_unreadable := unreadable st; plan_no_faces := no_faces st |}).
  assert (∀ c q, cluster_member pl c q ↔ dict_member (cluster_map g) c q) as Hmem.
  { intros c q. unfold cluster_member, dict_member. simpl. rewrite lookup_fmap.
    split.
    - intros (ps & Hps & Hq). destruct (cluster_map g !! c) as [s|]; [|done].
      injection Hps as <-. exists s. split; [done|]. by apply elem_of_sorted_by_str.
    - intros (s & -> & Hq). exists (sorted_by_str s). split; [done|].
      by apply elem_of_sorted_by_str. }
  assert (∀ c q, dict_member (cluster_map g) c q ↔ dict_member (cluster_by_img g) q c)
    as Hinv.
  { intros c q. by rewrite Hcm, Hcbi. }
  assert (∀ item, item ∈ plan_items pl ↔
            ∃ q s, q ∈ imgs ∧ cluster_by_img g !! q = Some s ∧
                   item = {| item_path := q; item_cluster := sorted_set s;
                             item_faces := default 0 (img_face_count st !! q) |})
    as Hitem.
  { intros item. simpl. rewrite list_elem_of_omap. unfold plan_entry. split.
    - intros (q & Hq & Hentry). destruct (cluster_by_img g !! q) as [s|] eqn:Hs; [|done].
      destruct (decide (s = ∅)); [done|]. injection Hentry as <-. eauto.
    - intros (q & s & Hq & Hs & ->). exists q. split; [done|]. rewrite Hs.
      rewrite decide_False; [done|]. by eapply Hne. }
  split; [|right; exists (embeddings st), dm, raw_labels, (owners st);
            split_and!; [done|done|done|]]; [split_and!; [done|done| | | |]|].
  - simpl. apply sublist_omap_path. intros p a. unfold plan_entry.
    destruct (cluster_by_img g !! p) as [s|]; [|done].
    destruct (decide (s = ∅)); [done|]. by intros [= <-].
  - intros item (q & s & Hq & Hs & ->)%Hitem. simpl.
    assert (q ∈ owners st) as Hqo.
    { destruct (set_choose_L s) as [c Hc]; [by eapply Hne|].
      assert (dict_member (cluster_by_img g) q c) as Hd by (by exists s).
      apply Hcbi in Hd as (l & Hin & _). by eapply elem_of_zip_r. }
    split_and!.
    + intros Hnil. apply (Hne q s Hs). apply set_eq. intros c.
      rewrite <- elem_of_sorted_set, Hnil. set_solver.
    + apply sorted_set_lookup_lt.
    + intros c Hc%elem_of_sorted_set.
      assert (dict_member (cluster_by_img g) q c) as Hd by (by exists s).
      split.
      * apply Hcbi in Hd as (l & _ & _ & Hl). by eapply label_map_positive.
      * by apply Hmem, Hinv.
    + rewrite Hcnt. apply Hown in Hqo. by rewrite decide_True.
    + rewrite Hcnt. apply Hown in Hqo. rewrite decide_True by done. simpl. tauto.
  - intros c q Hd%Hmem. pose proof Hd as Hd'%Hinv. destruct Hd' as (s & Hs & Hc).
    assert (q ∈ imgs) as Hq.
    { apply Hcm in Hd as (l & Hin & _).
      apply elem_of_zip_r, Hown in Hin. tauto. }
    eexists. split; [apply Hitem; eauto|]. simpl. split; [done|].
    by apply elem_of_sorted_set.
  - intros c ps. simpl. rewrite lookup_fmap.
    destruct (cluster_map g !! c) as [s|] eqn:Hs; [|done]. intros [= <-]. split.
    + destruct (set_choose_L s) as [q Hq]; [by eapply Hne'|].
      apply elem_of_sorted_by_str in Hq. intros Hnil. rewrite Hnil in Hq.
      by apply elem_of_nil in Hq.
    + unfold sorted_by_str. rewrite merge_sort_Permutation. apply NoDup_elements.
  - intros c. simpl. rewrite lookup_fmap, fmap_is_Some. split.
    + intros [s Hs]. destruct (set_choose_L s) as [q Hq]; [by eapply Hne'|].
      assert (dict_member (cluster_map g) c q) as Hd by (by exists s).
      apply Hcm in Hd as (l & ? & ? & ?). by exists l, q.
    + intros (l & q & Hin & Hl & Hc).
      assert (dict_member (cluster_map g) c q) as (s & Hs & _); [|by exists s].
      apply Hcm. by exists l.
Qed.

Lemma build_plan_live_Ok B input_dir min_score min_cluster_size min_samples
    w pl w' :
  build_plan_live B input_dir min_score min_cluster_size min_samples w =
    (Ok pl, w') →
  plan_facts B min_score (w_tree w) (all_images B (w_tree w) input_dir) pl ∧
  plan_labels B min_cluster_size min_samples pl.
Proof.
  intros Hrun.
  pose proof (build_plan_live_full B input_dir min_score min_cluster_size
                min_samples w) as Hwp.
  unfold wp in Hwp. by rewrite Hrun in Hwp.
Qed.

Lemma face_count_unread B min_score t p :
  imread_safe B t p = None → face_count B min_score t p = 0.
Proof. intros Hp. unfold face_count. by rewrite Hp. Qed.

Lemma face_count_no_detection B min_score t p :
  no_detection B t p → face_count B min_score t p = 0.
Proof.
  unfold no_detection, face_count.
  destruct (imread_safe B t p) as [img|]; [|done].
  destruct (app_get B img) as [[|f faces]|e]; done.
Qed.

(** X8: the diagnostics of a plan.  ["unreadable"] holds, in listing order,
    exactly the images that [imread_safe] does not read, ["no_faces"]
    exactly the images that are read and in which the detector finds
    nothing; no image is in both, and none of them has an entry in
    ["plan"]. *)
Theorem build_plan_live_diagnostics B input_dir min_score min_cluster_size
    min_samples w pl w' :
  build_plan_live B input_dir min_score min_cluster_size min_samples w =
    (Ok pl, w') →
  plan_unreadable pl =
    filter (λ p, imread_safe B (w_tree w) p = None)
           (all_images B (w_tree w) input_dir) ∧
  plan_no_faces pl =
    filter (λ p, no_detection B (w_tree w) p)
           (all_images B (w_tree w) input_dir) ∧
  ∀ p, ¬ (p ∈ plan_unreadable pl ∧ p ∈ plan_no_faces pl) ∧
       (p ∈ plan_unreadable pl ∨ p ∈ plan_no_faces pl →
        p ∉ item_path <$> plan_items pl).
Proof.
  intros [(Hu & Hn & _ & Hitems & _) _]%build_plan_live_Ok.
  split; [done|]. split; [done|]. intros p. rewrite Hu, Hn. split.
  - intros [[Hp _]%list_elem_of_filter [Hd _]%list_elem_of_filter].
    unfold no_detection in Hd. by rewrite Hp in Hd.
  - intros Hp (item & -> & Hitem)%list_elem_of_fmap.
    destruct (Hitems item Hitem) as (_ & _ & _ & Hfaces & Hpos).
    rewrite Hfaces in Hpos.
    destruct Hp as [[Hp _]%list_elem_of_filter|[Hp _]%list_elem_of_filter].
    + rewrite face_count_unread in Hpos by done. lia.
    + rewrite face_count_no_detection in Hpos by done. lia.
Qed.

(** X9: the entries of a plan.  They follow the listing order of the images;
    each one is an image of the listing, its cluster list is not empty,
    strictly ascending and starts at 1 or above, and its ["faces"] is the
    number of detections of the image that passed [min_score] and carry an
    embedding, which is positive. *)
Theorem build_plan_live_items_well_formed B input_dir min_score
    min_cluster_size min_samples w pl w' :
  build_plan_live B input_dir min_score min_cluster_size min_samples w =
    (Ok pl, w') →
  (item_path <$> plan_items pl) `sublist_of` all_images B (w_tree w) input_dir ∧
  ∀ item, item ∈ plan_items pl →
    item_path item ∈ all_images B (w_tree w) input_dir ∧
    item_cluster item ≠ [] ∧
    (∀ i j a b, item_cluster item !! i = Some a →
                item_cluster item !! j = Some b → (i < j)%nat → a < b) ∧
    (∀ c, c ∈ item_cluster item → 1 ≤ c) ∧
    item_faces item = face_count B min_score (w_tree w) (item_path item) ∧
    0 < item_faces item.
Proof.
  intros [(_ & _ & Hsub & Hitems & _) _]%build_plan_live_Ok.
  split; [done|]. intros item Hitem.
  destruct (Hitems item Hitem) as (Hne & Hasc & Hc & Hfaces & Hpos).
  split_and!; [|done|done| |done|done].
  - eapply elem_of_sublist; [|exact Hsub].
    apply list_elem_of_fmap. by exists item.
  - intros c Hin. by apply Hc.
Qed.

(** X10: ["clusters"] and ["plan"] of a plan say the same.  An image is
    listed under a cluster exactly when its entry names that cluster; every
    cluster lists at least one image and lists no image twice. *)
Theorem build_plan_live_clusters_match_items B input_dir min_score
    min_cluster_size min_samples w pl w' :
  build_plan_live B input_dir min_score min_cluster_size min_samples w =
    (Ok pl, w') →
  (∀ c q, (∃ ps, plan_clusters pl !! c = Some ps ∧ q ∈ ps) ↔
          (∃ item, item ∈ plan_items pl ∧ item_path item = q ∧
                   c ∈ item_cluster item)) ∧
  (∀ c ps, plan_clusters pl !! c = Some ps → ps ≠ [] ∧ NoDup ps).
Proof.
  intros [(_ & _ & _ & Hitems & Hclusters & Hne) _]%build_plan_live_Ok.
  split; [|done]. intros c q. split.
  - apply Hclusters.
  - intros (item & Hitem & <- & Hc).
    destruct (Hitems item Hitem) as (_ & _ & Hmem & _). by apply Hmem.
Qed.

(** X11: the only exceptions that leave [build_plan_live] are those raised
    by the model, the detector, [cosine_distances] or HDBSCAN; the lookup
    [label_map[lbl]] of line 135 never fails. *)
Theorem build_plan_live_raises_library_error B input_dir min_score
    min_cluster_size min_samples w e w' :
  build_plan_live B input_dir min_score min_cluster_size min_samples w =
    (Raise e, w') →
  face_analysis B = Raise e ∨
  (∃ img, app_get B img = Raise e) ∨
  (∃ embs, cosine_distances B embs = Raise e) ∨
  (∃ a b dm, fit_predict B a b dm = Raise e).
Proof.
  intros Hrun.
  pose proof (build_plan_live_full B input_dir min_score min_cluster_size
                min_samples w) as Hwp.
  unfold wp in Hwp. rewrite Hrun in Hwp. exact Hwp.
Qed.

Lemma used_set_plan B min_score t imgs pl :
  plan_facts B min_score t imgs pl → used_set pl = dom (plan_clusters pl).
Proof.
  intros (_ & _ & _ & Hitems & Hclusters & Hne).
  apply set_eq. intros c.
  rewrite <- elem_of_sorted_set. fold (used_clusters pl).
  rewrite elem_of_used_clusters, elem_of_dom. split.
  - intros (item & Hitem & Hc).
    destruct (Hitems item Hitem) as (_ & _ & Hmem & _).
    destruct (Hmem c Hc) as (_ & ps & Hps & _). by exists ps.
  - intros [ps Hps]. destruct (Hne c ps Hps) as [Hnil _].
    destruct ps as [|q ps]; [done|].
    destruct (Hclusters c q) as (item & ? & _ & ?); [|by exists item].
    exists (q :: ps). split; [done|]. apply list_elem_of_here.
Qed.

(** X12: a plan of [build_plan_live] given to [distribute_to_folders].  The
    clusters used by the entries are the keys of ["clusters"], so the cursor
    returned is [cluster_start] plus the number of clusters of the plan. *)
Theorem distribute_plan_cursor_advance B input_dir min_score min_cluster_size
    min_samples w pl w1 base_dir cluster_start m c next w2 :
  build_plan_live B input_dir min_score min_cluster_size min_samples w =
    (Ok pl, w1) →
  distribute_to_folders pl base_dir cluster_start w1 = (Ok (m, c, next), w2) →
  (∀ k, k ∈ used_clusters pl ↔ is_Some (plan_clusters pl !! k)) ∧
  next = cluster_start + Z.of_nat (size (plan_clusters pl)).
Proof.
  intros [Hfacts _]%build_plan_live_Ok Hrun.
  pose proof (used_set_plan _ _ _ _ _ Hfacts) as Hused. split.
  - intros k. unfold used_clusters. by rewrite elem_of_sorted_set, Hused, elem_of_dom.
  - pose proof (distribute_to_folders_outcome pl base_dir cluster_start w1) as Hwp.
    unfold wp in Hwp. rewrite Hrun in Hwp. simpl in Hwp. rewrite Hwp.
    unfold used_clusters. by rewrite length_sorted_set, Hused, size_dom.
Qed.

(** ** The cluster numbers of a plan *)

Lemma elem_of_zip_same_length {A B} (l : list A) (k : list B) x :
  length l = length k → x ∈ l → ∃ y, (x, y) ∈ zip l k.
Proof.
  intros Hlen [i Hi]%list_elem_of_lookup.
  destruct (lookup_lt_is_Some_2 k i) as [y Hy].
  { rewrite <- Hlen. by eapply lookup_lt_Some. }
  exists y. apply list_elem_of_lookup. exists i. by apply lookup_zip_Some.
Qed.

Lemma label_map_values raw_labels c :
  (∃ l, label_map raw_labels !! l = Some c) ↔
  1 ≤ c ≤ Z.of_nat (size (non_noise raw_labels)).
Proof.
  split.
  - intros (l & (i & Hi & ->)%label_map_lookup).
    apply lookup_lt_Some in Hi. rewrite length_sorted_set in Hi. lia.
  - intros Hc.
    destruct (lookup_lt_is_Some_2 (sorted_set (non_noise raw_labels))
                (Z.to_nat (c - 1))) as [l Hl].
    { rewrite length_sorted_set. lia. }
    exists l. apply label_map_lookup. exists (Z.to_nat (c - 1)).
    split; [done|lia].
Qed.

Lemma dense_size {V} (m : gmap Z V) (K : nat) :
  (∀ c, is_Some (m !! c) ↔ 1 ≤ c ≤ Z.of_nat K) → size m = K.
Proof.
  intros Hm. rewrite <- size_dom.
  assert (dom m = list_to_set (seqZ 1 (Z.of_nat K))) as ->.
  { apply set_eq. intros c.
    rewrite elem_of_dom, Hm, elem_of_list_to_set, elem_of_seqZ. lia. }
  rewrite size_list_to_set by apply NoDup_seqZ. rewrite length_seqZ. lia.
Qed.

Lemma plan_labels_dense B min_cluster_size min_samples pl :
  labels_per_face B → plan_labels B min_cluster_size min_samples pl →
  ∀ c, is_Some (plan_clusters pl !! c) ↔
       1 ≤ c ≤ Z.of_nat (size (plan_clusters pl)).
Proof.
  intros Hper [Hempty|(embs & dm & raw & owners & Hlen & Hdm & Hraw & Hkeys)].
  - rewrite Hempty. intros c. rewrite lookup_empty, map_size_empty.
    split; [by intros [? ?]|lia].
  - assert (∀ c, is_Some (plan_clusters pl !! c) ↔
                 1 ≤ c ≤ Z.of_nat (size (non_noise raw))) as Hd.
    { intros c. rewrite Hkeys, <- label_map_values. split.
      - intros (l & q & _ & _ & Hl). by exists l.
      - intros (l & Hl).
        assert (l ∈ raw ∧ l ≠ NOISE) as [Hin Hn].
        { apply elem_of_non_noise, elem_of_sorted_set.
          eapply enumerate_dict_dom. unfold label_map in Hl. by eexists. }
        destruct (elem_of_zip_same_length raw owners l) as [q Hq]; [|done|].
        { rewrite <- Hlen. by eapply Hper. }
        by exists l, q. }
    intros c. by rewrite (dense_size _ _ Hd).
Qed.

Lemma StronglySorted_seqZ m (k : nat) :
  StronglySorted Z.le (seqZ m (Z.of_nat k)).
Proof.
  revert m. induction k as [|k IH]; intros m.
  - rewrite seqZ_nil by lia. constructor.
  - rewrite seqZ_cons by lia.
    replace (Z.pred (Z.of_nat (S k))) with (Z.of_nat k) by lia.
    constructor; [apply IH|]. apply Forall_seqZ. lia.
Qed.

Lemma sorted_set_dense s (K : nat) :
  (∀ c, c ∈ s ↔ 1 ≤ c ≤ Z.of_nat K) → sorted_set s = seqZ 1 (Z.of_nat K).
Proof.
  intros Hs. apply (StronglySorted_unique Z.le).
  - apply sorted_set_le.
  - apply StronglySorted_seqZ.
  - apply NoDup_Permutation; [apply NoDup_sorted_set|apply NoDup_seqZ|].
    intros c. rewrite elem_of_sorted_set, Hs, elem_of_seqZ. lia.
Qed.

(** X13: the cluster numbers of a plan have no gaps.  When HDBSCAN returns
    one label for each face, the keys of ["clusters"] are exactly the
    numbers 1..K, for K the number of clusters of the plan. *)
Theorem build_plan_live_cluster_numbers_dense B input_dir min_score
    min_cluster_size min_samples w pl w' :
  (∀ a b embs dm labels,
     cosine_distances B embs = Ok dm → fit_predict B a b dm = Ok labels →
     length labels = length embs) →
  build_plan_live B input_dir min_score min_cluster_size min_samples w =
    (Ok pl, w') →
  ∀ c, is_Some (plan_clusters pl !! c) ↔
       1 ≤ c ≤ Z.of_nat (size (plan_clusters pl)).
Proof.
  intros Hper [_ Hlabels]%build_plan_live_Ok.
  by eapply plan_labels_dense.
Qed.

(** X14: where the clusters of a plan go.  When HDBSCAN returns one label
    for each face, [distribute_to_folders] started at [cluster_start] gives
    the cluster [c] of a plan of [build_plan_live] the number
    [cluster_start + c - 1]: the folders of one subfolder are numbered in
    the order of its clusters, without gaps. *)
Theorem distribute_plan_folder_numbers B input_dir min_score min_cluster_size
    min_samples w pl w' cluster_start c :
  (∀ a b embs dm labels,
     cosine_distances B embs = Ok dm → fit_predict B a b dm = Ok labels →
     length labels = length embs) →
  build_plan_live B input_dir min_score min_cluster_size min_samples w =
    (Ok pl, w') →
  is_Some (plan_clusters pl !! c) →
  cluster_id_map pl cluster_start !! c = Some (cluster_start + c - 1).
Proof.
  intros Hper [Hfacts Hlabels]%build_plan_live_Ok Hc.
  pose proof (plan_labels_dense _ _ _ _ Hper Hlabels) as Hdense.
  apply cluster_id_map_lookup. exists (Z.to_nat (c - 1)).
  apply Hdense in Hc. split; [|lia].
  unfold used_clusters.
  rewrite (sorted_set_dense _ (size (plan_clusters pl))).
  - apply lookup_seqZ. lia.
  - intros k. rewrite (used_set_plan _ _ _ _ _ Hfacts), elem_of_dom. apply Hdense.
Qed.

(** ** process_group_folder: what a run leaves alone *)

Lemma wp_and {A} (c : M A) (Q1 Q2 : A → world → Prop)
    (E1 E2 : exn → world → Prop) w :
  wp c Q1 E1 w → wp c Q2 E2 w →
  wp c (λ a w', Q1 a w' ∧ Q2 a w') (λ e w', E1 e w' ∧ E2 e w') w.
Proof. unfold wp. destruct (c w) as [[a|e] w']; auto. Qed.

Lemma wp_forall {A X} (c : M A) (Q : X → A → world → Prop)
    (E : X → exn → world → Prop) w :
  (∀ x, wp c (Q x) (E x) w) →
  wp c (λ a w', ∀ x, Q x a w') (λ e w', ∀ x, E x e w') w.
Proof. unfold wp. destruct (c w) as [[a|e] w']; auto. Qed.

(** Two entries of one directory: neither is below the other. *)
Lemma sibling_prefix (s x : path) :
  s ≠ [] → x ≠ [] → parent s = parent x → s `prefix_of` x → s = x.
Proof.
  intros Hs Hx Hpar [k Hk].
  destruct (exists_last Hs) as (ps & a & ->).
  destruct (exists_last Hx) as (px & b & ->).
  unfold parent in Hpar. rewrite !removelast_last in Hpar. subst px.
  rewrite <- (assoc_L (++)) in Hk. apply app_inv_head in Hk.
  simpl in Hk. injection Hk as Hb _. by subst b.
Qed.

Lemma parent_below (d p : path) :
  d `prefix_of` p → p ≠ d → d `prefix_of` parent p.
Proof.
  intros [k ->] Hne. destruct k as [|a k] using rev_ind.
  - by rewrite app_nil_r in Hne.
  - unfold parent. rewrite (assoc_L (++)), removelast_last. by apply prefix_app_r.
Qed.

(** The nodes that the subfolders [subs] of a run leave alone: those that
    are at or below none of the directories among them that are not
    shared. *)
Lemma process_subfolder_frame (B : backend) (t0 : tree) (subs pre : list path)
    (x : path) (counter : Z) (w : world) :
  (∀ t d p, p ∈ rglob B t d → d `prefix_of` p ∧ p ≠ d) →
  (∀ s, s ∈ subs → s ≠ [] ∧ parent s = parent x ∧ is_Some (t0 !! s)) →
  NoDup subs → pre ++ [x] `prefix_of` subs →
  (∀ p n, t0 !! p = Some n →
          (∀ s, s ∈ pre → t0 !! s = Some Dir →
                ¬ has_shared_marker B (name s) → ¬ s `prefix_of` p) →
          w_tree w !! p = Some n) →
  wp (process_subfolder B counter x)
    (λ _ w', ∀ p n, t0 !! p = Some n →
               (∀ s, s ∈ pre ++ [x] → t0 !! s = Some Dir →
                     ¬ has_shared_marker B (name s) → ¬ s `prefix_of` p) →
               w_tree w' !! p = Some n)
    (λ _ w', ∀ p n, t0 !! p = Some n →
               (∀ s, s ∈ subs → t0 !! s = Some Dir →
                     ¬ has_shared_marker B (name s) → ¬ s `prefix_of` p) →
               w_tree w' !! p = Some n) w.
Proof.
  intros Hrglob Hsubs Hnd Hpre HI.
  assert (∀ s, s ∈ pre ++ [x] → s ∈ subs) as Hin.
  { intros s Hs. destruct Hpre as [k ->]. apply elem_of_app. by left. }
  assert (x ∈ subs) as Hx by (apply Hin, elem_of_app; right; apply list_elem_of_here).
  destruct (Hsubs x Hx) as (Hxne & _ & [nx Hnx]).
  assert (w_tree w !! x = Some nx) as Hwx.
  { apply HI; [done|]. intros s Hs _ _ Hsx.
    destruct (Hsubs s) as (Hsne & Hpar & _); [apply Hin, elem_of_app; by left|].
    pose proof (sibling_prefix s x Hsne Hxne Hpar Hsx) as ->.
    destruct Hpre as [k Hk]. rewrite Hk in Hnd.
    apply NoDup_app in Hnd as [Hnd _]. apply NoDup_app in Hnd as (_ & Hnd & _).
    apply (Hnd x Hs), list_elem_of_here. }
  assert (∀ p n, t0 !! p = Some n →
            (∀ s, s ∈ pre ++ [x] → t0 !! s = Some Dir →
                  ¬ has_shared_marker B (name s) → ¬ s `prefix_of` p) →
            w_tree w !! p = Some n) as Hsame.
  { intros p n Hp Hout. apply HI; [done|]. intros s Hs. apply Hout, elem_of_app.
    by left. }
  unfold process_subfolder. apply wp_bind. unfold wp at 1, fs_is_dir.
  destruct (path_is_dir (w_tree w) x) eqn:Hdir; simpl; [|by apply wp_ret].
  destruct (has_shared_marker B (name x)) eqn:Hshared; [by apply wp_ret|].
  assert (t0 !! x = Some Dir) as Hxdir.
  { unfold path_is_dir in Hdir. apply bool_decide_eq_true in Hdir.
    destruct x as [|a x]; [done|]. simpl in Hdir. congruence. }
  apply wp_bind.
  eapply wp_mono;
    [| |apply wp_and; [apply build_plan_live_spec|apply build_plan_live_full]].
  2: { intros e w1 [[Htree _] _] p n Hp Hout. rewrite Htree.
       apply Hsame; [done|]. intros s Hs. by apply Hout, Hin. }
  intros pl w1 [(Htree & _) [(_ & _ & Hsub & _) _]].
  assert (∀ item, item ∈ plan_items pl →
                  x `prefix_of` item_path item ∧ item_path item ≠ x) as Hitems.
  { intros item Hitem. apply (Hrglob (w_tree w) x).
    assert (item_path item ∈ all_images B (w_tree w) x) as Himg.
    { eapply elem_of_sublist; [|exact Hsub]. apply list_elem_of_fmap. by exists item. }
    unfold all_images in Himg. by apply list_elem_of_filter in Himg as [_ ?]. }
  assert (∀ p, ¬ x `prefix_of` p →
            wp (distribute_to_folders pl x counter)
               (λ _ w', kept x p (w_tree w1) (w_tree w'))
               (λ _ w', kept x p (w_tree w1) (w_tree w')) w1) as Hkept.
  { intros p Hp. apply distribute_to_folders_kept; [done|].
    intros item [Hbelow Hne]%Hitems. split.
    - intros Hip. apply Hp. by etrans.
    - intros ->. by apply Hp, parent_below. }
  apply wp_bind. unfold wp at 1.
  destruct (distribute_to_folders pl x counter w1) as [[r|e] w2] eqn:Hrun.
  - apply wp_ret. intros p n Hp Hout.
    assert (¬ x `prefix_of` p) as Hxp.
    { apply Hout; [apply elem_of_app; right; apply list_elem_of_here|done|].
      rewrite Hshared. exact id. }
    specialize (Hkept p Hxp). unfold wp in Hkept. rewrite Hrun in Hkept.
    pose proof (Hsame p n Hp Hout) as Hw. rewrite <- Htree in Hw.
    destruct Hkept as [->|(_ & Hnone & _)]; [done|congruence].
  - intros p n Hp Hout.
    assert (¬ x `prefix_of` p) as Hxp.
    { apply Hout; [done|done|]. rewrite Hshared. exact id. }
    specialize (Hkept p Hxp). unfold wp in Hkept. rewrite Hrun in Hkept.
    assert (w_tree w1 !! p = Some n) as Hw.
    { rewrite Htree. apply Hsame; [done|]. intros s Hs. by apply Hout, Hin. }
    destruct Hkept as [->|(_ & Hnone & _)]; [done|congruence].
Qed.

Lemma process_subfolders_frame (B : backend) (t0 : tree) (group_dir : path)
    (subs : list path) (counter : Z) (w : world) :
  (∀ t d p, p ∈ rglob B t d → d `prefix_of` p ∧ p ≠ d) →
  (∀ s, s ∈ subs → s ≠ [] ∧ parent s = group_dir ∧ is_Some (t0 !! s)) →
  NoDup subs → w_tree w = t0 →
  wp (process_subfolders B subs counter)
    (λ _ w', ∀ p n, t0 !! p = Some n →
               (∀ s, s ∈ subs → t0 !! s = Some Dir →
                     ¬ has_shared_marker B (name s) → ¬ s `prefix_of` p) →
               w_tree w' !! p = Some n)
    (λ _ w', ∀ p n, t0 !! p = Some n →
               (∀ s, s ∈ subs → t0 !! s = Some Dir →
                     ¬ has_shared_marker B (name s) → ¬ s `prefix_of` p) →
               w_tree w' !! p = Some n) w.
Proof.
  intros Hrglob Hsubs Hnd Ht0. unfold process_subfolders.
  apply (wp_for_each_pre _
           (λ pre (_ : Z) w', ∀ p n, t0 !! p = Some n →
              (∀ s, s ∈ pre → t0 !! s = Some Dir →
                    ¬ has_shared_marker B (name s) → ¬ s `prefix_of` p) →
              w_tree w' !! p = Some n)).
  - intros pre x st w1 Hpre HI.
    apply (process_subfolder_frame B t0 subs); try done.
    assert (x ∈ subs) as Hx.
    { destruct Hpre as [k ->]. apply elem_of_app. left. apply elem_of_app.
      right. apply list_elem_of_here. }
    destruct (Hsubs x Hx) as (_ & Hpx & _).
    intros s Hs. destruct (Hsubs s Hs) as (? & ? & ?). split_and!; congruence.
  - intros p n Hp _. by rewrite Ht0.
Qed.

(** X15: what a run of [process_group_folder] leaves alone.  A file or
    directory that is there before the run and is at or below none of the
    subfolders that the run works on (the entries of [group_dir] that are
    directories and have no shared marker in their name) is the same after
    the run, whether the run returns or raises: loose files of [group_dir],
    the shared folders with all they hold, and everything outside
    [group_dir], provided [rglob] lists only paths below its directory. *)
Theorem process_group_folder_frame (B : backend) group_dir w r w' q n :
  (∀ t d p, p ∈ rglob B t d → d `prefix_of` p ∧ p ≠ d) →
  process_group_folder B group_dir w = (r, w') →
  w_tree w !! q = Some n →
  (∀ s, s ∈ entries (w_tree w) group_dir → w_tree w !! s = Some Dir →
        ¬ has_shared_marker B (name s) → ¬ s `prefix_of` q) →
  w_tree w' !! q = Some n.
Proof.
  intros Hrglob Hrun Hq Hout.
  unfold process_group_folder, bind at 1, fs_iterdir in Hrun.
  destruct (w_flaky w (OpIterdir group_dir)); [by injection Hrun as _ <-|].
  destruct (path_is_dir (w_tree w) group_dir); [|by injection Hrun as _ <-].
  set (subs := merge_sort name_le (entries (w_tree w) group_dir)) in Hrun.
  assert (∀ s, s ∈ subs ↔ s ∈ entries (w_tree w) group_dir) as Hsubs.
  { intros s. unfold subs. by rewrite merge_sort_Permutation. }
  pose proof (process_subfolders_frame B (w_tree w) group_dir subs 1 w Hrglob)
    as Hwp.
  unfold wp in Hwp. rewrite Hrun in Hwp.
  assert (∀ p n, w_tree w !! p = Some n →
            (∀ s, s ∈ subs → w_tree w !! s = Some Dir →
                  ¬ has_shared_marker B (name s) → ¬ s `prefix_of` p) →
            w_tree w' !! p = Some n) as Hframe.
  { destruct r; apply Hwp; try done.
    all: try (intros s Hs%Hsubs%entries_elem; tauto).
    all: unfold subs; rewrite merge_sort_Permutation; unfold entries;
      apply NoDup_filter, NoDup_elements. }
  apply Hframe; [done|]. intros s Hs%Hsubs. by apply Hout.
Qed.

(** ** Concrete runs for the further properties *)

Lemma distribute_to_folders_ids_do_not_collide_witness :
  1 ≤ 3 < 4 ∧ 4 ≤ 4 ∧ (pretty 3 : string) ≠ pretty 4.
Proof.
  assert (distribute_to_folders three_plan ["in"] 1 (quiet album) =
          (Ok (2, 2, 4), (distribute_to_folders three_plan ["in"] 1 (quiet album)).2))
    as Hrun by (vm_compute; reflexivity).
  apply (distribute_to_folders_ids_do_not_collide three_plan two_plan ["in"] 1
           (quiet album) (2, 2, 4) _ 7 3 1 4 Hrun).
  - vm_compute. reflexivity.
  - vm_compute. reflexivity.
Defined.

Lemma process_subfolders_cursor_grows_witness : 1 ≤ 2.
Proof.
  assert (process_subfolders demo [["g"; "m"]] 1 (quiet group) =
          (Ok 2, (process_subfolders demo [["g"; "m"]] 1 (quiet group)).2))
    as Hrun by (vm_compute; reflexivity).
  exact (process_subfolders_cursor_grows demo [["g"; "m"]] 1 (quiet group) 2 _ Hrun).
Defined.

(** The move of [a.jpg] is refused: the file is still at its place. *)
Lemma distribute_item_single_keeps_file_witness :
  let item := {| item_path := ["in"; "a.jpg"]; item_cluster := [1];
                 item_faces := 1 |} in
  let run := distribute_item ["in"] (cluster_id_map two_plan 1)
               {| moved := 0; copied := 0; moved_paths := ∅ |} item
               (no_move_a open_album) in
  w_tree run.2 !! ["in"; "a.jpg"] = Some (File "alice") ∧
  ∃ g q, cluster_id_map two_plan 1 !! 1 = Some g ∧
         w_tree run.2 !! q = Some (File "alice") ∧
         (q = ["in"; "a.jpg"] ∨ target ["in"] g ["in"; "a.jpg"] `prefix_of` q).
Proof.
  intros item run. split; [vm_compute; reflexivity|].
  apply (distribute_item_single_keeps_file two_plan ["in"] 1
           {| moved := 0; copied := 0; moved_paths := ∅ |} item 1 "alice"
           (no_move_a open_album) run.1 run.2).
  - apply list_elem_of_here.
  - reflexivity.
  - vm_compute. reflexivity.
  - apply surjective_pairing.
Defined.

Lemma distribute_to_folders_counts_bounded_witness :
  0 ≤ 2 ≤ Z.of_nat (single_count (plan_items three_plan)) ∧
  0 ≤ 2 ≤ Z.of_nat (other_memberships (plan_items three_plan)).
Proof.
  assert (distribute_to_folders three_plan ["in"] 1 (quiet album) =
          (Ok (2, 2, 4), (distribute_to_folders three_plan ["in"] 1 (quiet album)).2))
    as Hrun by (vm_compute; reflexivity).
  exact (distribute_to_folders_counts_bounded three_plan ["in"] 1 (quiet album)
           (2, 2, 4) _ Hrun).
Defined.

(** Two nested emptied directories go, bottom first; their parent keeps its
    file and stays. *)
Lemma cleanup_leaves_no_empty_parent_witness :
  let w' := (cleanup (longest_first emptied_dirs) (quiet emptied_tree)).2 in
  w_tree w' !! ["top"; "a"; "b"] = None ∧
  w_tree w' !! ["top"; "a"] = None ∧
  ∃ q, q ≠ [] ∧ parent q = ["top"] ∧ is_Some (w_tree w' !! q).
Proof.
  intros w'. split; [vm_compute; reflexivity|]. split; [vm_compute; reflexivity|].
  apply (cleanup_leaves_no_empty_parent emptied_dirs (quiet emptied_tree) w').
  - intros p. split; reflexivity.
  - vm_compute. reflexivity.
  - apply elem_of_list_to_set, list_elem_of_here.
  - discriminate.
  - vm_compute. reflexivity.
Defined.

(** The second subfolder of the group is distributed: the image of the
    first subfolder stays as it is. *)
Lemma distribute_to_folders_frame_witness :
  let run := distribute_to_folders m_plan ["g"; "m"] 1 (quiet group) in
  w_tree run.2 !! ["g"; "k"; "x.jpg"] = w_tree (quiet group) !! ["g"; "k"; "x.jpg"] ∨
  (["g"; "k"; "x.jpg"] `prefix_of` ["g"; "m"] ∧
   w_tree (quiet group) !! ["g"; "k"; "x.jpg"] = None ∧
   w_tree run.2 !! ["g"; "k"; "x.jpg"] = Some Dir).
Proof.
  intros run.
  apply (distribute_to_folders_frame m_plan ["g"; "m"] 1 (quiet group) run.1 run.2).
  - apply surjective_pairing.
  - intros [k Hk]. discriminate Hk.
  - intros item ->%list_elem_of_singleton. split.
    + intros [k Hk]. discriminate Hk.
    + discriminate.
Defined.

Lemma build_plan_live_album :
  build_plan_live demo ["in"] 0.5%float 2 1 (quiet album) =
  (Ok album_plan, (build_plan_live demo ["in"] 0.5%float 2 1 (quiet album)).2).
Proof. vm_compute. reflexivity. Qed.

Lemma build_plan_live_diagnostics_witness :
  plan_unreadable album_plan =
    filter (λ p, imread_safe demo album p = None) (all_images demo album ["in"]) ∧
  plan_no_faces album_plan =
    filter (λ p, no_detection demo album p) (all_images demo album ["in"]) ∧
  ∀ p, ¬ (p ∈ plan_unreadable album_plan ∧ p ∈ plan_no_faces album_plan) ∧
       (p ∈ plan_unreadable album_plan ∨ p ∈ plan_no_faces album_plan →
        p ∉ item_path <$> plan_items album_plan).
Proof.
  exact (build_plan_live_diagnostics demo ["in"] 0.5%float 2 1 (quiet album)
           album_plan _ build_plan_live_album).
Defined.

Lemma build_plan_live_items_well_formed_witness :
  (item_path <$> plan_items album_plan) `sublist_of` all_images demo album ["in"] ∧
  ∀ item, item ∈ plan_items album_plan →
    item_path item ∈ all_images demo album ["in"] ∧
    item_cluster item ≠ [] ∧
    (∀ i j a b, item_cluster item !! i = Some a →
                item_cluster item !! j = Some b → (i < j)%nat → a < b) ∧
    (∀ c, c ∈ item_cluster item → 1 ≤ c) ∧
    item_faces item = face_count demo 0.5%float album (item_path item) ∧
    0 < item_faces item.
Proof.
  exact (build_plan_live_items_well_formed demo ["in"] 0.5%float 2 1 (quiet album)
           album_plan _ build_plan_live_album).
Defined.

Lemma build_plan_live_clusters_match_items_witness :
  (∀ c q, (∃ ps, plan_clusters album_plan !! c = Some ps ∧ q ∈ ps) ↔
          (∃ item, item ∈ plan_items album_plan ∧ item_path item = q ∧
                   c ∈ item_cluster item)) ∧
  (∀ c ps, plan_clusters album_plan !! c = Some ps → ps ≠ [] ∧ NoDup ps).
Proof.
  exact (build_plan_live_clusters_match_items demo ["in"] 0.5%float 2 1
           (quiet album) album_plan _ build_plan_live_album).
Defined.

(** The detector fails on the image of the first subfolder of the group. *)
Lemma build_plan_live_raises_library_error_witness :
  face_analysis demo = Raise (BackendError "detector") ∨
  (∃ img, app_get demo img = Raise (BackendError "detector")) ∨
  (∃ embs, cosine_distances demo embs = Raise (BackendError "detector")) ∨
  (∃ a b dm, fit_predict demo a b dm = Raise (BackendError "detector")).
Proof.
  assert (build_plan_live demo ["g"; "k"] 0.5%float 2 1 (quiet group) =
          (Raise (BackendError "detector"),
           (build_plan_live demo ["g"; "k"] 0.5%float 2 1 (quiet group)).2))
    as Hrun by (vm_compute; reflexivity).
  exact (build_plan_live_raises_library_error demo ["g"; "k"] 0.5%float 2 1
           (quiet group) _ _ Hrun).
Defined.

(** The album has two clusters: started at 4, the distribution returns 6. *)
Lemma distribute_plan_cursor_advance_witness :
  (∀ k, k ∈ used_clusters album_plan ↔ is_Some (plan_clusters album_plan !! k)) ∧
  6 = 4 + Z.of_nat (size (plan_clusters album_plan)).
Proof.
  assert (distribute_to_folders album_plan ["in"] 4
            (build_plan_live demo ["in"] 0.5%float 2 1 (quiet album)).2 =
          (Ok (2, 2, 6),
           (distribute_to_folders album_plan ["in"] 4
              (build_plan_live demo ["in"] 0.5%float 2 1 (quiet album)).2).2))
    as Hrun by (vm_compute; reflexivity).
  exact (distribute_plan_cursor_advance demo ["in"] 0.5%float 2 1 (quiet album)
           album_plan _ ["in"] 4 2 2 6 _ build_plan_live_album Hrun).
Defined.

Lemma demo_labels_per_face : labels_per_face demo.
Proof.
  intros a b embs dm labels Hdm Hl. injection Hdm as <-. injection Hl as <-.
  apply length_fmap.
Qed.

(** The album has the clusters 1 and 2. *)
Lemma build_plan_live_cluster_numbers_dense_witness :
  is_Some (plan_clusters album_plan !! 2) ↔
  1 ≤ 2 ≤ Z.of_nat (size (plan_clusters album_plan)).
Proof.
  exact (build_plan_live_cluster_numbers_dense demo ["in"] 0.5%float 2 1
           (quiet album) album_plan _ demo_labels_per_face build_plan_live_album 2).
Defined.

(** Started at 4, the second cluster of the album goes to the folder 5. *)
Lemma distribute_plan_folder_numbers_witness :
  cluster_id_map album_plan 4 !! 2 = Some (4 + 2 - 1).
Proof.
  apply (distribute_plan_folder_numbers demo ["in"] 0.5%float 2 1
           (quiet album) album_plan _ 4 2 demo_labels_per_face build_plan_live_album).
  exists [["in"; "ab.jpg"]; ["in"; "b.jpg"]]. reflexivity.
Defined.

Lemma demo_rglob_below t d p :
  p ∈ rglob demo t d → d `prefix_of` p ∧ p ≠ d.
Proof.
  simpl. intros [(Hpre & Hne & _) _]%list_elem_of_filter. done.
Qed.

(** The image of the subfolder is moved to its cluster folder; the loose
    file of the group stays. *)
Lemma process_group_folder_frame_witness :
  let run := process_group_folder demo ["g"] (quiet loose_group) in
  w_tree run.2 !! ["g"; "m"; "1"; "y.jpg"] = Some (File "alice") ∧
  w_tree run.2 !! ["g"; "notes.txt"] = Some (File "notes").
Proof.
  intros run. split; [vm_compute; reflexivity|].
  apply (process_group_folder_frame demo ["g"] (quiet loose_group) run.1 run.2
           ["g"; "notes.txt"] (File "notes") demo_rglob_below).
  - apply surjective_pairing.
  - reflexivity.
  - intros s (Hne & Hpar & _)%entries_elem Hdir _ [k Hk].
    destruct s as [|a [|b [|c s]]]; simpl in Hk.
    + by apply Hne.
    + discriminate Hpar.
    + injection Hk as <- <- _. vm_compute in Hdir. discriminate Hdir.
    + discriminate Hk.
Defined.
